(** * AgentMemory: storage and retrieval engine

    A shallow embedding of the TypeScript sources of the agent-memory
    server (SQLite tables and triggers, the memory repository, the dated
    file store, the search service, the tool handlers of
    [AgentMemoryServer] and the resource helpers) together with the
    properties the specification states about them and further properties
    of the code.

    Conventions of the embedding:
    - JavaScript strings are [string]s of bytes; [toLowerCase], [trim] and
      the [\s] character class act on the ASCII range.
    - A thrown exception is the [Err] branch of [result]; a function that
      reads or writes the database or the file system takes the store as an
      argument and returns the new one.
    - SQL tables are lists of rows. SQLite fixes no order in which
      [GROUP_CONCAT] visits the rows of a group; the embedding takes the
      order of insertion, and what is stated about the keywords of a memory
      is to be read up to that order.
    - The FTS5 table [memories_fts] is its inverted index: a list with one
      entry for every instance of a token in a column of a row.
    - Paths follow the POSIX functions of Node's [path] module, and the
      file system maps resolved absolute paths to files.
    - [CURRENT_TIMESTAMP] is an argument [now : Z] of the statements that
      read the clock (seconds; the text form SQLite stores sorts the same
      way).
    - Scores ([bm25], [lambda]) are rationals [Q]; equality of scores is
      [Qeq]. *)

From Stdlib Require Import ZArith QArith Lia Ascii Sorted Permutation.
From Stdlib Require Import DecimalString DecimalN.
From stdpp Require Import gmap strings list sorting.

Local Open Scope Z_scope.

(** ** Exceptions *)

Inductive error : Type :=
  | SqliteError (msg : string)        (* better-sqlite3 SqliteError *)
  | TypeError (msg : string)          (* JavaScript TypeError *)
  | FsError (code : string)           (* errno-style error of the fs module *)
  | ZodError (msg : string)           (* a schema rejected the arguments *)
  | McpInvalidRequest (msg : string)  (* McpError(ErrorCode.InvalidRequest) *)
  | McpInternalError (msg : string).  (* McpError(ErrorCode.InternalError) *)

Inductive result (A : Type) : Type :=
  | Ok (a : A)
  | Err (e : error).
Arguments Ok {A} a.
Arguments Err {A} e.

Global Instance result_ret : MRet result := λ A a, Ok a.
Global Instance result_bind : MBind result := λ A B k r,
  match r with
  | Ok a => k a
  | Err e => Err e
  end.

Definition is_ok {A} (r : result A) : bool :=
  match r with Ok _ => true | Err _ => false end.

(** ** JavaScript string primitives *)

Module Js.

Definition lower_char (c : ascii) : ascii :=
  let n := Ascii.N_of_ascii c in
  if ((65 <=? n) && (n <=? 90))%N then Ascii.ascii_of_N (n + 32) else c.

Fixpoint toLowerCase (s : string) : string :=
  match s with
  | EmptyString => EmptyString
  | String c s' => String (lower_char c) (toLowerCase s')
  end.

Fixpoint trimStart (s : string) : string :=
  match s with
  | EmptyString => EmptyString
  | String c s' => if Ascii.is_space c then trimStart s' else s
  end.

Definition trimEnd (s : string) : string :=
  String.rev (trimStart (String.rev s)).

Definition trim (s : string) : string := trimEnd (trimStart s).

(** [s.startsWith(p)] and [s.endsWith(p)]. *)
Definition startsWith (s p : string) : bool := String.prefix p s.
Definition endsWith (s p : string) : bool :=
  String.prefix (String.rev p) (String.rev s).

(** [s.split(sep)] for a non-empty separator: the pieces between the
    occurrences of [sep], found from left to right without overlap.
    [skip] counts the characters of a matched separator still to drop and
    [cur] is the current piece, reversed. *)
Fixpoint split_go (sep : string) (skip : nat) (cur : string) (s : string)
  : list string :=
  match s with
  | EmptyString => [String.rev cur]
  | String c s' =>
      match skip with
      | S k => split_go sep k cur s'
      | O =>
          if String.prefix sep s
          then String.rev cur :: split_go sep (String.length sep - 1) "" s'
          else split_go sep O (String c cur) s'
      end
  end.

Definition split (sep : string) (s : string) : list string :=
  split_go sep O "" s.

(** [l.join(sep)]. *)
Definition join (sep : string) (l : list string) : string :=
  String.concat sep l.

(** [Boolean(s)] for a string: the empty string is falsy. *)
Definition truthy (s : string) : bool :=
  match s with EmptyString => false | _ => true end.

(** [[...new Set(l)]]: the first occurrence of every element, in order. *)
Fixpoint uniq (l : list string) : list string :=
  match l with
  | [] => []
  | x :: l' => x :: filter (λ y, y ≠ x) (uniq l')
  end.

(** [String(n)] for a non-negative integer [n]. *)
Definition number (n : N) : string := NilEmpty.string_of_uint (N.to_uint n).

(** [String(z)] for an integer [z]. *)
Definition integer (z : Z) : string :=
  if (z <? 0)%Z then "-" +:+ number (Z.to_N (- z)) else number (Z.to_N z).

(** [s.padStart(2, '0')]. *)
Definition pad2 (s : string) : string :=
  match s with
  | String c EmptyString => String "0"%char s
  | EmptyString => "00"
  | _ => s
  end.

End Js.

(** ** The relational store: [db/connection.ts] and [db/schema.ts] *)

(** A row of [memories]. *)
Module Memory.
Record t : Type := Build
  { id : Z; file_path : string; summary : string; created_at : Z }.
End Memory.

(** A row of [keywords]. *)
Module Keyword.
Record t : Type := Build { memory_id : Z; keyword : string }.
End Keyword.

(** The full-text index of the FTS5 table [memories_fts]. The table is an
    external-content table ([content='memories']): it stores no documents,
    only the index, one entry for each instance of a token in a column of
    an indexed document. *)
Module Fts.

Inductive column : Type := Summary | Keywords.

Record t : Type := Build { rowid : Z; col : column; term : string }.

(** The [unicode61] tokenizer on ASCII text: a token is a maximal run of
    letters and digits (bytes outside ASCII count as letters), folded to
    lower case. *)
Definition is_token_char (c : ascii) : bool :=
  let n := Ascii.N_of_ascii c in
  (((48 <=? n) && (n <=? 57)) || ((65 <=? n) && (n <=? 90))
   || ((97 <=? n) && (n <=? 122)) || (128 <=? n))%N.

Definition emit (cur : string) : list string :=
  match cur with
  | EmptyString => []
  | _ => [String.rev cur]
  end.

(** [cur] is the current token, reversed. *)
Fixpoint tokens_go (cur : string) (s : string) : list string :=
  match s with
  | EmptyString => emit cur
  | String c s' =>
      if is_token_char c then tokens_go (String (Js.lower_char c) cur) s'
      else emit cur ++ tokens_go EmptyString s'
  end.

(** The tokens of a column value; SQL [NULL] has none. *)
Definition tokenize (text : option string) : list string :=
  match text with
  | Some s => tokens_go EmptyString s
  | None => []
  end.

(** The index entries of the document [(rid, summary, keywords)]. *)
Definition entries (rid : Z) (summary keywords : option string) : list t :=
  (Build rid Summary <$> tokenize summary)
  ++ (Build rid Keywords <$> tokenize keywords).

End Fts.

Global Instance memory_eq_dec : EqDecision Memory.t.
Proof. solve_decision. Defined.
Global Instance keyword_eq_dec : EqDecision Keyword.t.
Proof. solve_decision. Defined.
Global Instance fts_column_eq_dec : EqDecision Fts.column.
Proof. solve_decision. Defined.
Global Instance fts_eq_dec : EqDecision Fts.t.
Proof. solve_decision. Defined.

(** The state of one connection. [sqlite_sequence] is the counter SQLite
    keeps for the [AUTOINCREMENT] key of [memories]; [foreign_keys] is the
    connection's [PRAGMA foreign_keys]. *)
Record Database : Type := MkDatabase
  { foreign_keys : bool;
    memories : list Memory.t;
    keywords : list Keyword.t;
    memories_fts : list Fts.t;
    sqlite_sequence : Z }.

Definition set_memories (ms : list Memory.t) (db : Database) : Database :=
  MkDatabase (foreign_keys db) ms (keywords db) (memories_fts db)
             (sqlite_sequence db).
Definition set_keywords (ks : list Keyword.t) (db : Database) : Database :=
  MkDatabase (foreign_keys db) (memories db) ks (memories_fts db)
             (sqlite_sequence db).
Definition set_memories_fts (ds : list Fts.t) (db : Database) : Database :=
  MkDatabase (foreign_keys db) (memories db) (keywords db) ds
             (sqlite_sequence db).
Definition set_sqlite_sequence (n : Z) (db : Database) : Database :=
  MkDatabase (foreign_keys db) (memories db) (keywords db) (memories_fts db) n.

(** [openDatabase(path)] on a new file. It sets four pragmas (journal mode,
    synchronous, cache size, temp store), none of which changes what a
    statement computes, and leaves [foreign_keys] at the default of the
    driver: better-sqlite3 builds SQLite with
    [SQLITE_DEFAULT_FOREIGN_KEYS=1], so the constraint of [keywords] and its
    [ON DELETE CASCADE] are enforced. *)
Definition openDatabase : Database :=
  {| foreign_keys := true; memories := []; keywords := [];
     memories_fts := []; sqlite_sequence := 0 |}.

Module Sql.

(** The aggregate [GROUP_CONCAT(x, sep)]: [NULL] over no rows. *)
Definition group_concat (sep : string) (vals : list string) : option string :=
  match vals with
  | [] => None
  | _ => Some (Js.join sep vals)
  end.

(** [COALESCE(x, d)]. *)
Definition coalesce (x : option string) (d : string) : string := default d x.

(** [SELECT keyword FROM keywords WHERE memory_id = mid]. *)
Definition keywords_of (mid : Z) (db : Database) : list string :=
  Keyword.keyword <$> filter (λ k, Keyword.memory_id k = mid) (keywords db).

(** [SELECT * FROM memories WHERE id = mid], first row. *)
Definition memory_by_id (mid : Z) (db : Database) : option Memory.t :=
  head (filter (λ m, Memory.id m = mid) (memories db)).

(** The scalar subquery [(SELECT summary FROM memories WHERE id = mid)]. *)
Definition summary_of (mid : Z) (db : Database) : option string :=
  Memory.summary <$> memory_by_id mid db.

(** One entry less in the index, when it is there. *)
Fixpoint remove_entry (e : Fts.t) (index : list Fts.t) : list Fts.t :=
  match index with
  | [] => []
  | e' :: index' =>
      if decide (e' = e) then index' else e' :: remove_entry e index'
  end.

(** The FTS5 command [INSERT INTO memories_fts(memories_fts, rowid, summary,
    keywords) VALUES ('delete', rid, s, k)]. An inverted index cannot tell
    which tokens a row had, so the command removes the entries of the
    tokens of the values it is given; the SQLite manual asks for the values
    the row was indexed with (section "The 'delete' Command" of the FTS5
    documentation: with other values "some full-text index entries may not
    be correctly deleted"). A column the statement leaves out is [NULL]. *)
Definition fts_delete (rid : Z) (s k : option string) (db : Database)
  : Database :=
  set_memories_fts
    (foldl (λ index e, remove_entry e index) (memories_fts db)
           (Fts.entries rid s k)) db.

(** [INSERT INTO memories_fts(rowid, summary, keywords) VALUES (rid, s, k)]:
    the tokens of the two columns enter the index. *)
Definition fts_insert (rid : Z) (s k : option string) (db : Database)
  : Database :=
  set_memories_fts (memories_fts db ++ Fts.entries rid s k) db.

(** The keyword column the triggers build for [mid]:
    [COALESCE((SELECT GROUP_CONCAT(keyword, ' ') FROM keywords
               WHERE memory_id = mid), '')]. *)
Definition keywords_column (mid : Z) (db : Database) : string :=
  coalesce (group_concat " " (keywords_of mid db)) "".

(** [ORDER BY]: a stable insertion sort, [le a b] telling that [a] may stand
    before [b]. Rows with equal keys keep the order of the scan. *)
Fixpoint insert_by {A} (le : A → A → bool) (x : A) (l : list A) : list A :=
  match l with
  | [] => [x]
  | y :: l' => if le x y then x :: l else y :: insert_by le x l'
  end.

Definition order_by {A} (le : A → A → bool) (l : list A) : list A :=
  foldr (insert_by le) [] l.

End Sql.

(** The triggers [initializeSchema] creates, as functions of the row they
    fire for ([new] or [old]) and of the database at that point. *)
Module Trigger.

Definition memories_ai (new : Memory.t) (db : Database) : Database :=
  Sql.fts_insert (Memory.id new) (Some (Memory.summary new))
    (Some (Sql.keywords_column (Memory.id new) db)) db.

(** [INSERT INTO memories_fts(memories_fts, rowid) VALUES ('delete',
    old.id)]: the command names no column value. *)
Definition memories_ad (old : Memory.t) (db : Database) : Database :=
  Sql.fts_delete (Memory.id old) None None db.

Definition memories_au (old new : Memory.t) (db : Database) : Database :=
  let db1 := Sql.fts_delete (Memory.id old) None None db in
  Sql.fts_insert (Memory.id new) (Some (Memory.summary new))
    (Some (Sql.keywords_column (Memory.id new) db1)) db1.

(** The body the three triggers on [keywords] share, for the memory [mid]
    of the row they fire for. *)
Definition reindex (mid : Z) (db : Database) : Database :=
  let db1 := Sql.fts_delete mid None None db in
  Sql.fts_insert mid (Sql.summary_of mid db1)
    (Some (Sql.keywords_column mid db1)) db1.

Definition keywords_ai (new : Keyword.t) (db : Database) : Database :=
  reindex (Keyword.memory_id new) db.

Definition keywords_ad (old : Keyword.t) (db : Database) : Database :=
  reindex (Keyword.memory_id old) db.

Definition keywords_au (old : Keyword.t) (db : Database) : Database :=
  reindex (Keyword.memory_id old) db.

End Trigger.

(** [initializeSchema(db)]: every [CREATE] is [IF NOT EXISTS], so rows already
    stored stay; on a new database the three tables are empty. The triggers
    it installs are those of [Trigger], fired by the statements of [Stmt]. *)
Definition initializeSchema (db : Database) : Database := db.

(** The statements the repository prepares, with the constraints of the
    schema and the triggers they fire. A constraint violation throws and
    leaves the database as it was before the statement. *)
Module Stmt.

(** The row id an [AUTOINCREMENT] key gets: one more than the largest id the
    table holds or ever held. *)
Definition next_id (db : Database) : Z :=
  Z.max (foldr Z.max 0 (Memory.id <$> memories db)) (sqlite_sequence db) + 1.

(** [INSERT INTO memories (file_path, summary) VALUES (?, ?) RETURNING id];
    [file_path] is [UNIQUE], [created_at] defaults to [CURRENT_TIMESTAMP]. *)
Definition insert_memory (fp s : string) (now : Z) (db : Database)
  : result (Database * Z) :=
  if decide (fp ∈ Memory.file_path <$> memories db)
  then Err (SqliteError "UNIQUE constraint failed: memories.file_path")
  else
    let i := next_id db in
    let new := Memory.Build i fp s now in
    Ok (Trigger.memories_ai new
          (set_sqlite_sequence i (set_memories (memories db ++ [new]) db)), i).

(** [INSERT INTO keywords (memory_id, keyword) VALUES (?, ?)]; the pair is
    the primary key and [memory_id] references [memories(id)]. *)
Definition insert_keyword (mid : Z) (k : string) (db : Database)
  : result Database :=
  let new := Keyword.Build mid k in
  if decide (new ∈ keywords db)
  then Err (SqliteError
              "UNIQUE constraint failed: keywords.memory_id, keywords.keyword")
  else if foreign_keys db && bool_decide (Sql.memory_by_id mid db = None)
  then Err (SqliteError "FOREIGN KEY constraint failed")
  else Ok (Trigger.keywords_ai new (set_keywords (keywords db ++ [new]) db)).

(** One row of [DELETE FROM keywords ...]: the row goes, then [keywords_ad]
    fires. *)
Definition delete_keyword (old : Keyword.t) (db : Database) : Database :=
  Trigger.keywords_ad old
    (set_keywords (filter (λ k, k ≠ old) (keywords db)) db).

(** [DELETE FROM keywords WHERE memory_id = ?], row by row. *)
Definition delete_keywords_where (mid : Z) (db : Database) : Database :=
  foldl (λ d old, delete_keyword old d) db
        (filter (λ k, Keyword.memory_id k = mid) (keywords db)).

(** One row of [UPDATE memories SET summary = ?, created_at =
    CURRENT_TIMESTAMP ...]: the row is rewritten, then [memories_au] fires. *)
Definition update_memory (old : Memory.t) (s : string) (now : Z)
  (db : Database) : Database :=
  let new := Memory.Build (Memory.id old) (Memory.file_path old) s now in
  Trigger.memories_au old new
    (set_memories
       ((λ m, if decide (Memory.id m = Memory.id old) then new else m)
          <$> memories db) db).

(** [UPDATE memories SET summary = ?, created_at = CURRENT_TIMESTAMP
    WHERE id = ?]. *)
Definition update_memories_where (mid : Z) (s : string) (now : Z)
  (db : Database) : Database :=
  foldl (λ d old, update_memory old s now d) db
        (filter (λ m, Memory.id m = mid) (memories db)).

(** One row of [DELETE FROM memories ...]: the row goes; with foreign keys
    enforced the [ON DELETE CASCADE] action then deletes the keyword rows
    that reference it (their [keywords_ad] fires for each); the [AFTER
    DELETE] trigger [memories_ad] fires last. *)
Definition delete_memory (old : Memory.t) (db : Database) : Database :=
  let db1 :=
    set_memories (filter (λ m, Memory.id m ≠ Memory.id old) (memories db)) db in
  let db2 :=
    if foreign_keys db1 then delete_keywords_where (Memory.id old) db1
    else db1 in
  Trigger.memories_ad old db2.

(** [DELETE FROM memories WHERE id = ?], with [changes], the number of rows
    the statement itself deleted. *)
Definition delete_memories_where (mid : Z) (db : Database) : Database * nat :=
  let victims := filter (λ m, Memory.id m = mid) (memories db) in
  (foldl (λ d old, delete_memory old d) db victims, length victims).

End Stmt.

(** ** [repositories/memoryRepo.ts] *)

(** What [get] and [list] return: the columns of the row, the aggregate
    [kws] and the [keywords] array made from it. *)
Record MemoryWithKeywords : Type := MkMemoryWithKeywords
  { row : Memory.t; kws : option string; mem_keywords : list string }.

Module MemoryRepository.

(** [db.transaction(fn)()]: commit when [fn] returns, roll back when it
    throws. *)
Definition transaction {A} (fn : Database → result (Database * A))
  (db : Database) : Database * result A :=
  match fn db with
  | Ok (db', a) => (db', Ok a)
  | Err e => (db, Err e)
  end.

(** [for (const k of keywords) insert.run(id, k)]. *)
Fixpoint insert_each (mid : Z) (ks : list string) (db : Database)
  : result Database :=
  match ks with
  | [] => Ok db
  | k :: ks' => db' ← Stmt.insert_keyword mid k db; insert_each mid ks' db'
  end.

Definition insert (file_path summary : string) (keywords : list string)
  (now : Z) : Database → Database * result Z :=
  transaction (λ db,
    '(db1, id) ← Stmt.insert_memory file_path summary now db;
    db2 ← (if bool_decide (keywords ≠ [])
           then insert_each id keywords db1 else Ok db1);
    Ok (db2, id)).

Definition update (id : Z) (summary : option string)
  (keywords : option (list string)) (now : Z)
  : Database → Database * result bool :=
  transaction (λ db,
    let db1 :=
      match summary with
      | Some s =>
          if Js.truthy s then Stmt.update_memories_where id s now db else db
      | None => db
      end in
    db2 ← match keywords with
          | Some ks =>
              let db' := Stmt.delete_keywords_where id db1 in
              if bool_decide (ks ≠ []) then insert_each id ks db' else Ok db'
          | None => Ok db1
          end;
    let exists_ := bool_decide (Sql.memory_by_id id db2 ≠ None) in
    Ok (db2, exists_)).

(** The row [SELECT m.*, GROUP_CONCAT(k.keyword, ', ') as kws ... GROUP BY
    m.id] yields for [m], turned into the object the repository returns:
    [keywords: r.kws ? r.kws.split(', ') : []]. *)
Definition with_keywords (db : Database) (m : Memory.t) : MemoryWithKeywords :=
  let kws := Sql.group_concat ", " (Sql.keywords_of (Memory.id m) db) in
  MkMemoryWithKeywords m kws
    (match kws with
     | Some s => if Js.truthy s then Js.split ", " s else []
     | None => []
     end).

Definition get (id : Z) (db : Database) : option MemoryWithKeywords :=
  with_keywords db <$> Sql.memory_by_id id db.

(** [ORDER BY m.created_at DESC LIMIT ? OFFSET ?] over the grouped rows. *)
Definition list (limit offset : nat) (db : Database)
  : list MemoryWithKeywords :=
  with_keywords db <$>
    take limit (drop offset
      (Sql.order_by
         (λ a b, Memory.created_at b <=? Memory.created_at a) (memories db))).

Definition count (db : Database) : nat := length (memories db).

Definition delete (id : Z) (db : Database) : Database * bool :=
  let '(db', changes) := Stmt.delete_memories_where id db in
  (db', bool_decide (0 < changes)%nat).

End MemoryRepository.

(** ** Paths: the POSIX functions of Node's [path] module *)

Module Path.

Definition sep : string := "/".

Definition isAbsolute (p : string) : bool := Js.startsWith p "/".

Definition segments (p : string) : list string := Js.split "/" p.

(** One step of [normalizeString], on the stack of segments kept so far
    (last segment first). *)
Definition step (allowAboveRoot : bool) (st : list string) (seg : string)
  : list string :=
  if decide (seg = "" ∨ seg = ".") then st
  else if decide (seg = "..") then
    match st with
    | top :: st' =>
        if decide (top = "..")
        then (if allowAboveRoot then ".." :: st else st)
        else st'
    | [] => if allowAboveRoot then [".."] else []
    end
  else seg :: st.

Definition normalizeString (p : string) (allowAboveRoot : bool) : string :=
  Js.join "/" (reverse (foldl (step allowAboveRoot) [] (segments p))).

Definition normalize (p : string) : string :=
  if decide (p = "") then "."
  else
    let abs := isAbsolute p in
    let trailing := Js.endsWith p "/" in
    let q := normalizeString p (negb abs) in
    if decide (q = "")
    then (if abs then "/" else if trailing then "./" else ".")
    else
      let q' := if trailing then q +:+ "/" else q in
      if abs then "/" +:+ q' else q'.

(** [join(...parts)]. *)
Definition join (parts : list string) : string :=
  match filter (λ s, s ≠ "") parts with
  | [] => "."
  | ps => normalize (Js.join "/" ps)
  end.

(** [resolve(p)] in a process whose working directory is [cwd] (an absolute
    path). *)
Definition resolve (cwd p : string) : string :=
  let full := if isAbsolute p then p else cwd +:+ "/" +:+ p in
  "/" +:+ normalizeString full false.

(** [basename(p)]: the last segment, trailing separators apart. *)
Definition basename (p : string) : string :=
  default "" (last (filter (λ s, s ≠ "") (segments p))).

End Path.

(** ** The file system seen through Node's [fs] module *)

Module Fs.

(** What lives at a path. Directories are not tracked: [mkdirSync] with
    [recursive] is taken to succeed, and so is [writeFileSync]. *)
Inductive node : Type :=
  | File (content : string)           (* a regular file that can be read *)
  | Unreadable (size : Z) (e : error) (* [stat] works, reading throws [e] *)
  | Unstatable (e : error)            (* the path exists, [stat] throws [e] *)
  | Unreachable (e : error).          (* there, but the way to it is barred:
                                         [stat] and reading throw [e] *)

(** The files, by absolute path. A function of [fs] is given the path as the
    program wrote it and resolves it against the working directory [cwd] of
    the process. *)
Abbreviation t := (gmap string node).

Definition lookup (cwd p : string) (fs : t) : option node :=
  fs !! Path.resolve cwd p.

(** [existsSync(p)] never throws: when the call on the path fails it
    answers [false], as it does for a path that is not there. *)
Definition existsSync (cwd p : string) (fs : t) : bool :=
  match lookup cwd p fs with
  | Some (File _) | Some (Unreadable _ _) | Some (Unstatable _) => true
  | Some (Unreachable _) | None => false
  end.

(** [statSync(p).size]. *)
Definition statSync_size (cwd p : string) (fs : t) : result Z :=
  match lookup cwd p fs with
  | Some (File c) => Ok (Z.of_nat (String.length c))
  | Some (Unreadable size _) => Ok size
  | Some (Unstatable e) => Err e
  | Some (Unreachable e) => Err e
  | None => Err (FsError "ENOENT")
  end.

(** [readFileSync(p, 'utf-8')]. *)
Definition readFileSync (cwd p : string) (fs : t) : result string :=
  match lookup cwd p fs with
  | Some (File c) => Ok c
  | Some (Unreadable _ e) => Err e
  | Some (Unstatable e) => Err e
  | Some (Unreachable e) => Err e
  | None => Err (FsError "ENOENT")
  end.

(** [writeFileSync(p, content, 'utf-8')], taken to succeed: afterwards the
    path holds a file with the content. *)
Definition writeFileSync (cwd p content : string) (fs : t) : t :=
  <[Path.resolve cwd p := File content]> fs.

End Fs.

(** [`${e}`] for a caught exception. *)
Definition show_error (e : error) : string :=
  match e with
  | SqliteError m => "SqliteError: " +:+ m
  | TypeError m => "TypeError: " +:+ m
  | FsError c => "Error: " +:+ c
  | ZodError m => "ZodError: " +:+ m
  | McpInvalidRequest m => "McpError: " +:+ m
  | McpInternalError m => "McpError: " +:+ m
  end.

(** ** [storage/fileStore.ts] *)

(** The fields of a JavaScript [Date] that [saveDated] reads. *)
Record Date : Type := MkDate { getFullYear : N; getMonth : N; getDate : N }.

Record StoredFileResult : Type := MkStored { path : string; bytes : nat }.

(** The object [readLimited] returns; an absent property is [None]. *)
Record ReadResult : Type := MkRead
  { file_exists : bool; file_size : option Z; file_contents : option string }.

Module FileStore.

Section Process.

(** [process.cwd()]. *)
Variable cwd : string.

(** [ensureDir(p)]: directories are not part of [Fs.t]. *)
Definition ensureDir (p : string) (fs : Fs.t) : Fs.t := fs.

(** [finalFileName.replace(/\.md$/i, '')]. *)
Definition stem_of (name : string) : string :=
  if Js.endsWith (Js.toLowerCase name) ".md"
  then String.substring 0 (String.length name - 3) name
  else name.

(** The candidate the loop tries at counter [i]. *)
Definition suffixed (targetDir stem : string) (i : nat) : string :=
  Path.join [targetDir; stem +:+ "-" +:+ Js.number (N.of_nat i) +:+ ".md"].

(** [while (existsSync(candidate)) { candidate = join(targetDir,
    `${stem}-${i}.md`); i++ }], run for at most [fuel] rounds. *)
Fixpoint probe (fs : Fs.t) (targetDir stem : string) (fuel : nat) (i : nat)
  (candidate : string) : option string :=
  if Fs.existsSync cwd candidate fs then
    match fuel with
    | O => None
    | S fuel' =>
        probe fs targetDir stem fuel' (S i) (suffixed targetDir stem i)
    end
  else Some candidate.

Definition targetDir_of (baseDir : string) (now : Date) : string :=
  let year := Js.number (getFullYear now) in
  let month := Js.pad2 (Js.number (getMonth now + 1)) in
  let day := Js.pad2 (Js.number (getDate now)) in
  Path.join [baseDir; year; month; day].

Definition finalFileName_of (basenameHint : string) : string :=
  let rawName :=
    Path.basename (if Js.truthy basenameHint then basenameHint else "note.md") in
  if Js.endsWith rawName ".md" then rawName else rawName +:+ ".md".

(** [saveDated(basenameHint, content, now)]. The loop gets as many rounds as
    the file system has entries, which is as many as it can need
    ([saveDated_shape] below); [None] would be a loop that does not
    end. *)
Definition saveDated (baseDir : string) (basenameHint content : string)
  (now : Date) (fs : Fs.t) : option (Fs.t * StoredFileResult) :=
  let finalFileName := finalFileName_of basenameHint in
  let targetDir := targetDir_of baseDir now in
  let fs1 := ensureDir targetDir fs in
  let candidate := Path.join [targetDir; finalFileName] in
  candidate' ←
    (if Fs.existsSync cwd candidate fs1
     then probe fs1 targetDir (stem_of finalFileName) (size fs1) 1 candidate
     else Some candidate);
  Some (Fs.writeFileSync cwd candidate' content fs1,
        MkStored candidate' (String.length content)).

(** [(size / 1024 / 1024).toFixed(2)]: the division is exact in a double,
    and [toFixed] rounds to the nearest hundredth, a tie going up. *)
Definition megabytes_toFixed2 (size : Z) : string :=
  let n := Z.to_N ((200 * size + 1048576) / 2097152) in
  Js.number (n / 100) +:+ "." +:+ Js.pad2 (Js.number (n mod 100)).

Definition too_large_message (size : Z) : string :=
  "[File too large: " +:+ megabytes_toFixed2 size +:+
  "MB. Contents not loaded.]".

Definition default_limitBytes : Z := 1024 * 1024.

(** The body of the [try] block of [readLimited]. *)
Definition readLimited_try (p : string) (limitBytes : Z) (fs : Fs.t)
  : result ReadResult :=
  if negb (Fs.existsSync cwd p fs) then Ok (MkRead false None None)
  else
    size ← Fs.statSync_size cwd p fs;
    if limitBytes <? size
    then Ok (MkRead true (Some size) (Some (too_large_message size)))
    else
      contents ← Fs.readFileSync cwd p fs;
      Ok (MkRead true (Some size) (Some contents)).

Definition readLimited (p : string) (limitBytes : Z) (fs : Fs.t) : ReadResult :=
  match readLimited_try p limitBytes fs with
  | Ok r => r
  | Err e =>
      MkRead false None (Some ("[Error reading file: " +:+ show_error e +:+ "]"))
  end.

End Process.

End FileStore.

(** ** [search/searchService.ts] *)

Record SearchParams : Type := MkSearchParams
  { query : string; boostKeywords : list string; limit : nat;
    summaryWeight : Q; keywordWeight : Q; lambda : Q }.

(** A row of the [ranked] common table expression. *)
Record RankedRow : Type := MkRanked
  { memory : Memory.t; bm25_score : Q; matched_keywords : nat }.

(** A row of the outer [SELECT]: [ranked.*] and [final_score]. *)
Record SearchRow : Type := MkSearchRow { ranked : RankedRow; final_score : Q }.

Module SearchService.

Definition dquote : ascii := "034"%char.

(** The first [replace] of [sanitize]: every double quote character is
    written twice. *)
Fixpoint double_quotes (s : string) : string :=
  match s with
  | EmptyString => EmptyString
  | String c s' =>
      if decide (c = dquote)
      then String dquote (String dquote (double_quotes s'))
      else String c (double_quotes s')
  end.

Definition is_bracket (c : ascii) : bool :=
  match c with
  | "("%char | ")"%char | "{"%char | "}"%char | "["%char | "]"%char => true
  | _ => false
  end.

(** [.replace(/[(){}[\]]/g, ' ')] *)
Fixpoint blank_brackets (s : string) : string :=
  match s with
  | EmptyString => EmptyString
  | String c s' =>
      String (if is_bracket c then " "%char else c) (blank_brackets s')
  end.

(** [.replace(/\s+/g, ' ')]; [in_run] tells that the previous character was
    white space. *)
Fixpoint collapse_spaces (in_run : bool) (s : string) : string :=
  match s with
  | EmptyString => EmptyString
  | String c s' =>
      if Ascii.is_space c
      then (if in_run then collapse_spaces true s'
            else String " "%char (collapse_spaces true s'))
      else String c (collapse_spaces false s')
  end.

Definition sanitize (query : string) : string :=
  Js.trim (collapse_spaces false (blank_brackets (double_quotes query))).

Section Engine.

(** The two functions of FTS5 the query uses. [fts5_match index q] is the
    list of row ids [memories_fts MATCH q] yields, or [None] when FTS5
    rejects [q] as a query; [bm25 index q ws wk rid] is
    [bm25(memories_fts, ws, wk)] for the row [rid]. *)
Variable fts5_match : list Fts.t → string → option (list Z).
Variable bm25 : list Fts.t → string → Q → Q → Z → Q.

(** [kwExpr]: [(SELECT COUNT(DISTINCT k.keyword) FROM keywords k WHERE
    k.memory_id = m.id AND k.keyword IN (...))], or the literal [0]. *)
Definition kwExpr (hasKeywords : bool) (bound : list string) (db : Database)
  (m : Memory.t) : nat :=
  if hasKeywords
  then length (remove_dups
                 (filter (λ k, k ∈ bound) (Sql.keywords_of (Memory.id m) db)))
  else O.

(** [FROM memories_fts JOIN memories m ON m.id = memories_fts.rowid WHERE
    memories_fts MATCH ?]. *)
Definition matching_rows (matched : list Z) (db : Database)
  : list Memory.t :=
  rid ← matched; filter (λ m, Memory.id m = rid) (memories db).

Definition final_of (lambda : Q) (r : RankedRow) : SearchRow :=
  MkSearchRow r
    (bm25_score r - lambda * inject_Z (Z.of_nat (matched_keywords r)))%Q.

Definition run (params : SearchParams) (db : Database)
  : result (list SearchRow) :=
  let sanitized := sanitize (query params) in
  let hasKeywords := bool_decide (boostKeywords params ≠ []) in
  let bound := Js.toLowerCase <$> boostKeywords params in
  match fts5_match (memories_fts db) sanitized with
  | None => Err (SqliteError "fts5: syntax error")
  | Some matched =>
      let ranked :=
        take (limit params * 2)
          (Sql.order_by (λ a b, Qle_bool (bm25_score a) (bm25_score b))
             ((λ m : Memory.t,
                 MkRanked m
                   (bm25 (memories_fts db) sanitized (summaryWeight params)
                         (keywordWeight params) (Memory.id m))
                   (kwExpr hasKeywords bound db m))
                <$> matching_rows matched db)) in
      Ok (Sql.order_by (λ a b, Qle_bool (final_score a) (final_score b))
            (final_of (lambda params) <$> ranked))
  end.

End Engine.

End SearchService.

(** ** [index.ts]: the tool handlers of [AgentMemoryServer] *)

(** A value whose type TypeScript does not know (the rows [listMemories]
    casts to [any]). *)
Inductive JsValue : Type :=
  | JsUndefined
  | JsString (s : string)
  | JsArray (items : list string).

Definition js_truthy (v : JsValue) : bool :=
  match v with
  | JsUndefined => false
  | JsString s => Js.truthy s
  | JsArray _ => true
  end.

(** The call [v.split(sep)]: strings have the method, arrays do not. *)
Definition js_call_split (v : JsValue) (sep : string) : result (list string) :=
  match v with
  | JsString s => Ok (Js.split sep s)
  | JsArray _ => Err (TypeError "m.keywords.split is not a function")
  | JsUndefined =>
      Err (TypeError "Cannot read properties of undefined (reading 'split')")
  end.

(** The arguments of the tools, as the schemas of [schemas.ts] read them; an
    optional property that is absent is [None]. *)
Record InsertArgs : Type := MkInsertArgs
  { ins_content : string; ins_summary : string;
    ins_keywords : option (list string) }.

Record UpdateArgs : Type := MkUpdateArgs
  { upd_id : Z; upd_content : option string; upd_summary : option string;
    upd_keywords : option (list string) }.

Record SearchArgs : Type := MkSearchArgs
  { sea_query : string; sea_keywords : option (list string);
    sea_limit : option Z; sea_summaryWeight : option Q;
    sea_keywordWeight : option Q; sea_lambda : option Q }.

Record ListArgs : Type := MkListArgs
  { lst_limit : option Z; lst_offset : option Z }.

(** The objects the handlers serialise into their reply. *)
Record StoredReply : Type := MkStoredReply
  { reply_id : Z; reply_file_path : string }.

Record SearchHit : Type := MkSearchHit
  { hit_file_path : string; hit_file_contents : option string;
    hit_summary : string }.

Record SearchReply : Type := MkSearchReply
  { results : list SearchHit; total_found : nat }.

Record GetReply : Type := MkGetReply
  { got_id : Z; got_file_path : string; got_file_contents : option string;
    got_summary : string }.

Record Pagination : Type := MkPagination
  { total : nat; page_limit : nat; page_offset : nat; has_more : bool }.

Record ListedMemory : Type := MkListed
  { listed : MemoryWithKeywords; listed_keywords : list string }.

Record ListReply : Type := MkListReply
  { listed_memories : list ListedMemory; pagination : Pagination }.

Record ReadFileReply : Type := MkReadFileReply
  { read_file_path : string; read_file_contents : option string;
    read_file_exists : bool }.

Module Schemas.

Definition check (ok : bool) (msg : string) : result unit :=
  if ok then Ok () else Err (ZodError msg).

Definition keywords_ok (ks : list string) : bool :=
  bool_decide (length ks ≤ 10)%nat.

Definition summary_ok (s : string) : bool :=
  bool_decide (1 ≤ String.length s ≤ 1000)%nat.

Definition InsertMemorySchema (a : InsertArgs)
  : result (string * string * list string) :=
  _ ← check (bool_decide (1 ≤ String.length (ins_content a))%nat) "content";
  _ ← check (summary_ok (ins_summary a)) "summary";
  let keywords := default [] (ins_keywords a) in
  _ ← check (keywords_ok keywords) "keywords";
  Ok (ins_content a, ins_summary a, keywords).

Definition UpdateMemorySchema (a : UpdateArgs) : result UpdateArgs :=
  _ ← check (bool_decide (0 < upd_id a)) "id";
  _ ← check (from_option (λ c, bool_decide (1 ≤ String.length c)%nat) true
               (upd_content a)) "content";
  _ ← check (from_option summary_ok true (upd_summary a)) "summary";
  _ ← check (from_option keywords_ok true (upd_keywords a)) "keywords";
  _ ← check (from_option Js.truthy false (upd_content a)
             || from_option Js.truthy false (upd_summary a)
             || bool_decide (upd_keywords a ≠ None))
        "At least one of content, summary, or keywords must be provided";
  Ok a.

Definition SearchMemoriesSchema (a : SearchArgs) : result SearchParams :=
  _ ← check (bool_decide (1 ≤ String.length (sea_query a))%nat) "query";
  let keywords := default [] (sea_keywords a) in
  _ ← check (keywords_ok keywords) "keywords";
  let limit := default 10 (sea_limit a) in
  _ ← check (bool_decide (0 < limit ≤ 100)) "limit";
  let summaryWeight := default (8 # 10) (sea_summaryWeight a) in
  _ ← check (negb (Qle_bool summaryWeight 0)) "summaryWeight";
  let keywordWeight := default (2 # 1) (sea_keywordWeight a) in
  _ ← check (negb (Qle_bool keywordWeight 0)) "keywordWeight";
  let lambda := default (1 # 1) (sea_lambda a) in
  _ ← check (Qle_bool 0 lambda) "lambda";
  Ok (MkSearchParams (sea_query a) keywords (Z.to_nat limit) summaryWeight
        keywordWeight lambda).

Definition GetMemorySchema (id : Z) : result Z :=
  _ ← check (bool_decide (0 < id)) "id"; Ok id.

Definition DeleteMemorySchema (id : Z) : result Z :=
  _ ← check (bool_decide (0 < id)) "id"; Ok id.

Definition ListMemoriesSchema (a : ListArgs) : result (nat * nat) :=
  let limit := default 20 (lst_limit a) in
  _ ← check (bool_decide (0 < limit ≤ 100)) "limit";
  let offset := default 0 (lst_offset a) in
  _ ← check (bool_decide (0 ≤ offset)) "offset";
  Ok (Z.to_nat limit, Z.to_nat offset).

End Schemas.

Module AgentMemoryServer.

Record t : Type := Build
  { db : Database; fileStore : Fs.t; baseContentDir : string; cwd : string }.

Definition set_db (d : Database) (srv : t) : t :=
  Build d (fileStore srv) (baseContentDir srv) (cwd srv).
Definition set_fileStore (fs : Fs.t) (srv : t) : t :=
  Build (db srv) fs (baseContentDir srv) (cwd srv).

(** [`Memory with ID ${id} not found`] *)
Definition not_found (id : Z) : error :=
  McpInvalidRequest ("Memory with ID " +:+ Js.integer id +:+ " not found").

(** [new AgentMemoryServer(dbPath, baseContentDir)] on a new database
    file. *)
Definition create (baseContentDir cwd : string) (fs : Fs.t) : t :=
  Build (initializeSchema openDatabase) fs baseContentDir cwd.

(** [[...new Set(keywords.map(k => k.trim().toLowerCase()).filter(Boolean))]
    .slice(0, 10)] *)
Definition normalize_keywords (keywords : list string) : list string :=
  take 10
    (Js.uniq
       (filter (λ k, k ≠ "") ((λ k, Js.toLowerCase (Js.trim k)) <$> keywords))).

(** [s.split(/\s+/)]; [in_run] tells that the previous character was white
    space and [cur] is the current piece, reversed. *)
Fixpoint split_spaces_go (in_run : bool) (cur : string) (s : string)
  : list string :=
  match s with
  | EmptyString => [String.rev cur]
  | String c s' =>
      if Ascii.is_space c
      then (if in_run then split_spaces_go true cur s'
            else String.rev cur :: split_spaces_go true "" s')
      else split_spaces_go false (String c cur) s'
  end.

Definition is_slug_char (c : ascii) : bool :=
  let n := Ascii.N_of_ascii c in
  (((97 <=? n) && (n <=? 122)) || ((48 <=? n) && (n <=? 57)) || (n =? 45))%N.

(** [.replace(/[^a-z0-9-]+/g, '-')]; [in_run] tells that the previous
    character was replaced. *)
Fixpoint dash_others (in_run : bool) (s : string) : string :=
  match s with
  | EmptyString => EmptyString
  | String c s' =>
      if is_slug_char c then String c (dash_others false s')
      else if in_run then dash_others true s'
      else String "-"%char (dash_others true s')
  end.

(** [.replace(/-+/g, '-')] *)
Fixpoint squeeze_dashes (in_run : bool) (s : string) : string :=
  match s with
  | EmptyString => EmptyString
  | String c s' =>
      if decide (c = "-"%char)
      then (if in_run then squeeze_dashes true s'
            else String c (squeeze_dashes true s'))
      else String c (squeeze_dashes false s')
  end.

(** [.replace(/^-|-$/g, '')] *)
Definition strip_dash_start (s : string) : string :=
  match s with
  | String "-"%char s' => s'
  | _ => s
  end.
Definition strip_edge_dashes (s : string) : string :=
  String.rev (strip_dash_start (String.rev (strip_dash_start s))).

Definition slug_of (summary : string) : string :=
  let words :=
    Js.join "-" (take 8 (split_spaces_go false "" (Js.toLowerCase summary))) in
  let base := if Js.truthy words then words else "memory" in
  String.substring 0 50
    (strip_edge_dashes (squeeze_dashes false (dash_others false base))).

(** The [catch] of the [CallToolRequestSchema] handler: an [McpError] is
    thrown on as it is, any other exception inside a new [McpError]. *)
Definition call_tool {A} (name : string) (r : result A) : result A :=
  match r with
  | Ok a => Ok a
  | Err (McpInvalidRequest m) => Err (McpInvalidRequest m)
  | Err (McpInternalError m) => Err (McpInternalError m)
  | Err e =>
      Err (McpInternalError
             ("Error executing tool " +:+ name +:+ ": " +:+ show_error e))
  end.

(** [insertMemory(args)]; [today] is [new Date()] and [now] the
    [CURRENT_TIMESTAMP] of the insert. *)
Definition insertMemory (args : InsertArgs) (today : Date) (now : Z) (srv : t)
  : t * result StoredReply :=
  match Schemas.InsertMemorySchema args with
  | Err e => (srv, Err e)
  | Ok (content, summary, keywords) =>
      let normalized := normalize_keywords keywords in
      let slug := slug_of summary in
      match FileStore.saveDated (cwd srv) (baseContentDir srv)
              (slug +:+ ".md") content today (fileStore srv) with
      | None => (srv, Err (McpInternalError "Failed to insert memory"))
      | Some (fs', stored) =>
          let '(db', r) :=
            MemoryRepository.insert (path stored) summary normalized now
              (db srv) in
          let srv' := set_db db' (set_fileStore fs' srv) in
          match r with
          | Ok id => (srv', Ok (MkStoredReply id (path stored)))
          | Err e =>
              (srv', Err (McpInternalError
                            ("Failed to insert memory: " +:+ show_error e)))
          end
      end
  end.

Definition updateMemory (args : UpdateArgs) (now : Z) (srv : t)
  : t * result StoredReply :=
  match Schemas.UpdateMemorySchema args with
  | Err e => (srv, Err e)
  | Ok a =>
      let id := upd_id a in
      match MemoryRepository.get id (db srv) with
      | None =>
          (srv, Err (not_found id))
      | Some existing =>
          let srv1 :=
            match upd_content a with
            | Some content =>
                if Js.truthy content
                then set_fileStore
                       (Fs.writeFileSync (cwd srv)
                          (Memory.file_path (row existing)) content
                          (fileStore srv)) srv
                else srv
            | None => srv
            end in
          let normalized := normalize_keywords <$> upd_keywords a in
          let '(db', r) :=
            MemoryRepository.update id (upd_summary a) normalized now
              (db srv1) in
          let srv2 := set_db db' srv1 in
          match r with
          | Err e => (srv2, Err e)
          | Ok false => (srv2, Err (McpInternalError "Update failed"))
          | Ok true =>
              match MemoryRepository.get id db' with
              | Some updated =>
                  (srv2, Ok (MkStoredReply id (Memory.file_path (row updated))))
              | None =>
                  (srv2, Err (TypeError
                     "Cannot read properties of undefined (reading 'file_path')"))
              end
          end
      end
  end.

Section Search.

Variable fts5_match : list Fts.t → string → option (list Z).
Variable bm25 : list Fts.t → string → Q → Q → Z → Q.

Definition searchMemories (args : SearchArgs) (srv : t) : result SearchReply :=
  params ← Schemas.SearchMemoriesSchema args;
  rows ← SearchService.run fts5_match bm25 params (db srv);
  let enhancedResults :=
    (λ r : SearchRow,
       let m := memory (ranked r) in
       MkSearchHit (Memory.file_path m)
         (file_contents
            (FileStore.readLimited (cwd srv) (Memory.file_path m)
               FileStore.default_limitBytes (fileStore srv)))
         (Memory.summary m))
      <$> take (limit params) rows in
  Ok (MkSearchReply enhancedResults (length rows)).

End Search.

Definition getMemory (id : Z) (srv : t) : result GetReply :=
  id ← Schemas.GetMemorySchema id;
  match MemoryRepository.get id (db srv) with
  | None => Err (not_found id)
  | Some m =>
      let fileInfo :=
        FileStore.readLimited (cwd srv) (Memory.file_path (row m))
          FileStore.default_limitBytes (fileStore srv) in
      Ok (MkGetReply (Memory.id (row m)) (Memory.file_path (row m))
            (file_contents fileInfo) (Memory.summary (row m)))
  end.

Definition deleteMemory (id : Z) (srv : t) : t * result unit :=
  match Schemas.DeleteMemorySchema id with
  | Err e => (srv, Err e)
  | Ok id =>
      let '(db', ok) := MemoryRepository.delete id (db srv) in
      if ok then (set_db db' srv, Ok ())
      else (set_db db' srv, Err (not_found id))
  end.

(** [listMemories(args)]. The rows come from [repo.list] cast to [any[]];
    their [keywords] property is the array [repo.list] built. *)
Definition listMemories (args : ListArgs) (srv : t) : result ListReply :=
  '(limit, offset) ← Schemas.ListMemoriesSchema args;
  let memories := MemoryRepository.list limit offset (db srv) in
  let total := MemoryRepository.count (db srv) in
  listed ← mapM (λ m : MemoryWithKeywords,
                   let m_keywords := JsArray (mem_keywords m) in
                   keywords ← (if js_truthy m_keywords
                               then js_call_split m_keywords ", "
                               else Ok []);
                   Ok (MkListed m keywords)) memories;
  Ok (MkListReply listed
        (MkPagination total limit offset
           (bool_decide (offset + limit < total)%nat))).

(** [readFile(args)]. *)
Definition readFile (filePath : string) (srv : t) : result ReadFileReply :=
  let resolvedBase := Path.resolve (cwd srv) (baseContentDir srv) +:+ Path.sep in
  let resolvedTarget := Path.resolve (cwd srv) filePath in
  let isWithinBase :=
    Js.startsWith (Js.toLowerCase resolvedTarget) (Js.toLowerCase resolvedBase) in
  if negb isWithinBase
  then Err (McpInvalidRequest "File path outside content directory")
  else
    let fileInfo :=
      FileStore.readLimited (cwd srv) resolvedTarget
        FileStore.default_limitBytes (fileStore srv) in
    Ok (MkReadFileReply filePath (file_contents fileInfo)
          (file_exists fileInfo)).

End AgentMemoryServer.

(** ** [server/resourceHandlers.ts] *)

(** The object [exportAllMemories] returns; [export_timestamp] is the time
    of the call. *)
Record ExportReply : Type := MkExportReply
  { export_timestamp : Z; export_total_memories : nat;
    export_memories : list MemoryWithKeywords }.

Module ResourceHandlers.

(** The first five statements of [getDatabaseStats]: [SELECT COUNT( * ) FROM
    memories], [SELECT COUNT( * ) FROM keywords], [SELECT COUNT(DISTINCT
    keyword) FROM keywords], and [SELECT created_at FROM memories ORDER BY
    created_at ASC] (and [DESC]) [LIMIT 1] with [oldest?.created_at ||
    null]. *)
Definition memoryCount (db : Database) : nat := length (memories db).

Definition keywordCount (db : Database) : nat := length (keywords db).

Definition uniqueKeywords (db : Database) : nat :=
  length (remove_dups (Keyword.keyword <$> keywords db)).

Definition oldest (db : Database) : option Z :=
  Memory.created_at
    <$> head (Sql.order_by
                (λ a b, Memory.created_at a <=? Memory.created_at b)
                (memories db)).

Definition newest (db : Database) : option Z :=
  Memory.created_at
    <$> head (Sql.order_by
                (λ a b, Memory.created_at b <=? Memory.created_at a)
                (memories db)).

(** [exportAllMemories(db)]: the query of [repo.list] without its window,
    each row with [keywords: r.kws ? r.kws.split(', ') : []]. *)
Definition exportAllMemories (now : Z) (db : Database) : ExportReply :=
  let rows :=
    MemoryRepository.with_keywords db
      <$> Sql.order_by (λ a b, Memory.created_at b <=? Memory.created_at a)
            (memories db) in
  MkExportReply now (length rows) rows.

End ResourceHandlers.

(** ** Vocabulary of the statements *)

Fixpoint no_slash (s : string) : Prop :=
  match s with
  | EmptyString => True
  | String c s' => c ≠ "/"%char ∧ no_slash s'
  end.

(** A file name that [normalizeString] keeps as it is. *)
Definition regular (n : string) : Prop :=
  n ≠ "" ∧ n ≠ "." ∧ n ≠ ".." ∧ no_slash n.

(** The directory part [normalizeString] writes before a last segment. *)
Definition dir_prefix (l : list string) : string :=
  match l with
  | [] => ""
  | _ => String.concat "/" l +:+ "/"
  end.

(** [join(dir, n)] is a prefix that [dir] alone decides, then [n]. *)
Definition join_prefix (dir : string) : string :=
  (if Path.isAbsolute dir then "/" else "")
  +:+ dir_prefix
        (reverse (foldl (Path.step (negb (Path.isAbsolute dir))) []
                        (Path.segments dir))).

(** The file name [saveDated] tries at counter [i]. *)
Definition suffixed_name (stem : string) (i : nat) : string :=
  stem +:+ "-" +:+ Js.number (N.of_nat i) +:+ ".md".

(** The first step of [update]: [if (summary) { UPDATE memories ... }]. *)
Definition summary_step (id : Z) (summary : option string) (now : Z)
  (db : Database) : Database :=
  match summary with
  | Some s => if Js.truthy s then Stmt.update_memories_where id s now db else db
  | None => db
  end.

(** The index holds the entries of the documents of the stored memories and
    no others. *)
Definition index_reflects_store (db : Database) : Prop :=
  ∀ e, e ∈ memories_fts db
       ↔ ∃ m, m ∈ memories db
              ∧ e ∈ Fts.entries (Memory.id m) (Some (Memory.summary m))
                      (Some (Js.join " " (Sql.keywords_of (Memory.id m) db))).

(** The number of distinct boost keywords, compared without regard to case,
    that are among the stored keywords. *)
Definition boost_overlap (boost stored : list string) : nat :=
  length (filter (λ b, b ∈ Js.toLowerCase <$> stored)
                 (remove_dups (Js.toLowerCase <$> boost))).

(** The keywords of the table are in lower case. *)
Definition keywords_lowercase (db : Database) : Prop :=
  Forall (λ k, Js.toLowerCase (Keyword.keyword k) = Keyword.keyword k)
         (keywords db).

(** No occurrence of the separator of [get] and [list], a comma and a
    space, in [s]. *)
Fixpoint separator_free (s : string) : bool :=
  match s with
  | EmptyString => true
  | String _ s' => negb (String.prefix ", " s) && separator_free s'
  end.

(** Every row of [keywords] references a row of [memories]. *)
Definition keywords_reference (db : Database) : Prop :=
  Forall (λ k, is_Some (Sql.memory_by_id (Keyword.memory_id k) db))
         (keywords db).

(** Foreign keys are enforced and every keyword row references a memory. *)
Definition referential (db : Database) : Prop :=
  foreign_keys db = true ∧ keywords_reference db.

(** The servers that [insert_memory], [update_memory] and [delete_memory]
    lead to from a new database. *)
Inductive reachable : AgentMemoryServer.t → Prop :=
  | reachable_create base cwd fs :
      reachable (AgentMemoryServer.create base cwd fs)
  | reachable_insert args today now srv :
      reachable srv →
      reachable (AgentMemoryServer.insertMemory args today now srv).1
  | reachable_update args now srv :
      reachable srv → reachable (AgentMemoryServer.updateMemory args now srv).1
  | reachable_delete id srv :
      reachable srv → reachable (AgentMemoryServer.deleteMemory id srv).1.

(** [s] does not start with white space. *)
Definition starts_clean (s : string) : Prop :=
  match s with
  | EmptyString => True
  | String c _ => Ascii.is_space c = false
  end.

(** [s] neither starts nor ends with white space. *)
Definition trimmed (s : string) : Prop :=
  starts_clean s ∧ starts_clean (String.rev s).

(** A keyword as the handlers store it. *)
Definition normal_keyword (k : string) : Prop :=
  k ≠ "" ∧ trimmed k ∧ Js.toLowerCase k = k.

(** Every character of [s] passes [p]. *)
Fixpoint all_chars (p : ascii → bool) (s : string) : bool :=
  match s with
  | EmptyString => true
  | String c s' => p c && all_chars p s'
  end.

(** The first character of [s] passes [p]. *)
Definition starts_with (p : ascii → bool) (s : string) : bool :=
  match s with
  | EmptyString => false
  | String c _ => p c
  end.

(** No character of [s] that passes [p] is followed by one that does. *)
Fixpoint no_adjacent (p : ascii → bool) (s : string) : bool :=
  match s with
  | EmptyString => true
  | String c s' => negb (p c && starts_with p s') && no_adjacent p s'
  end.

(** The number of times [c] stands in [s]. *)
Fixpoint count_char (c : ascii) (s : string) : nat :=
  match s with
  | EmptyString => 0
  | String d s' => (if decide (d = c) then 1 else 0) + count_char c s'
  end.

Definition is_dash (c : ascii) : bool := bool_decide (c = "-"%char).

(** A lower-case ASCII letter or a digit. *)
Definition is_alnum (c : ascii) : bool :=
  AgentMemoryServer.is_slug_char c && negb (is_dash c).

(** A character of the ASCII range. *)
Definition is_ascii (c : ascii) : bool := (Ascii.N_of_ascii c <? 128)%N.

(** The rows of [memories] have distinct positive ids, none above the
    sequence of the table, and the rows of [keywords] are distinct. *)
Definition keys_hold (db : Database) : Prop :=
  NoDup (Memory.id <$> memories db)
  ∧ NoDup (keywords db)
  ∧ Forall (λ m, 0 < Memory.id m ≤ sqlite_sequence db) (memories db).

(** The path of every memory holds a file that can be read. *)
Definition files_exist (srv : AgentMemoryServer.t) : Prop :=
  Forall (λ m, ∃ c, Fs.lookup (AgentMemoryServer.cwd srv)
                      (Memory.file_path m)
                      (AgentMemoryServer.fileStore srv) = Some (Fs.File c))
         (memories (AgentMemoryServer.db srv)).

(** What [readLimited], under its default cap, gives as the contents of a
    file that holds [content]. *)
Definition read_back (content : string) : option string :=
  let size := Z.of_nat (String.length content) in
  Some (if FileStore.default_limitBytes <? size
        then FileStore.too_large_message size else content).

(** The servers the three tools that write lead to from [srv]. *)
Inductive steps (srv : AgentMemoryServer.t) : AgentMemoryServer.t → Prop :=
  | steps_refl : steps srv srv
  | steps_insert args today now srv' :
      steps srv srv' →
      steps srv (AgentMemoryServer.insertMemory args today now srv').1
  | steps_update args now srv' :
      steps srv srv' →
      steps srv (AgentMemoryServer.updateMemory args now srv').1
  | steps_delete id srv' :
      steps srv srv' → steps srv (AgentMemoryServer.deleteMemory id srv').1.

(** The keywords stored for every id: at most ten, pairwise distinct, each
    as the handlers store keywords. *)
Definition keywords_normal (db : Database) : Prop :=
  ∀ id, (length (Sql.keywords_of id db) ≤ 10)%nat
        ∧ NoDup (Sql.keywords_of id db)
        ∧ Forall normal_keyword (Sql.keywords_of id db).

(** ** Sample stores *)

(** One memory, inserted at time 100. *)
Definition sample_server : AgentMemoryServer.t :=
  (AgentMemoryServer.insertMemory
     (MkInsertArgs "The body of the note" "Alpha note" (Some ["k1"; "K2"]))
     (MkDate 2025 0 2) 100
     (AgentMemoryServer.create "./data" "/srv" ∅)).1.

(** [sample_server] and a second note. *)
Definition two_notes : AgentMemoryServer.t :=
  (AgentMemoryServer.insertMemory
     (MkInsertArgs "Another body" "Beta note" (Some ["k3"]))
     (MkDate 2025 0 2) 150 sample_server).1.

(** Three memories, inserted at times 100, 200 and 300. *)
Definition three_records : AgentMemoryServer.t :=
  let day := MkDate 2025 0 2 in
  let s0 := AgentMemoryServer.create "./data" "/srv" ∅ in
  let s1 :=
    (AgentMemoryServer.insertMemory
       (MkInsertArgs "body one" "First" (Some ["x"])) day 100 s0).1 in
  let s2 :=
    (AgentMemoryServer.insertMemory
       (MkInsertArgs "body two" "Second" None) day 200 s1).1 in
  (AgentMemoryServer.insertMemory
     (MkInsertArgs "body three" "Third" (Some ["y"; "z"])) day 300 s2).1.

(** A stand-in for FTS5 on one-word queries: the rows that hold the word,
    scored by the weighted number of its instances (lower is better). *)
Definition sample_match (index : list Fts.t) (q : string) : option (list Z) :=
  Some (remove_dups (Fts.rowid <$> filter (λ e, Fts.term e = q) index)).

Definition sample_bm25 (index : list Fts.t) (q : string) (ws wk : Q) (rid : Z)
  : Q :=
  let hits c :=
    inject_Z (Z.of_nat (length (filter
      (λ e, Fts.rowid e = rid ∧ Fts.col e = c ∧ Fts.term e = q) index))) in
  (- (ws * hits Fts.Summary + wk * hits Fts.Keywords))%Q.

(** [sample_server] and [two_notes] are servers the tools lead to. *)
Definition sample_reachable : reachable sample_server :=
  reachable_insert _ _ _ _ (reachable_create "./data" "/srv" ∅).

Definition two_notes_reachable : reachable two_notes :=
  reachable_insert _ _ _ _ sample_reachable.

(** ** Tactics *)

(** Membership in a list that evaluates to a list of closed terms. *)
Ltac eval_list_in H :=
  match type of H with
  | ?x ∈ ?l => let l' := eval vm_compute in l in change (x ∈ l') in H
  end.

Ltac cases_of_list H :=
  eval_list_in H;
  repeat (apply elem_of_cons in H as [H|H]);
  [..|by apply elem_of_nil in H].

(** * Properties *)
(** ** Strings *)

Section StringFacts.

Implicit Types s t u : string.

Lemma str_app_nil_l s : "" +:+ s = s.
Proof. reflexivity. Qed.

Lemma str_app_cons c s t : String c s +:+ t = String c (s +:+ t).
Proof. reflexivity. Qed.

Lemma str_app_nil_r s : s +:+ "" = s.
Proof. induction s as [|c s IH]; [done|]. by rewrite str_app_cons, IH. Qed.

Lemma str_app_assoc s t u : (s +:+ t) +:+ u = s +:+ t +:+ u.
Proof. induction s as [|c s IH]; [done|]. by rewrite !str_app_cons, IH. Qed.

Lemma str_app_length s t :
  String.length (s +:+ t) = (String.length s + String.length t)%nat.
Proof.
  induction s as [|c s IH]; [done|]. rewrite str_app_cons. simpl. by rewrite IH.
Qed.

Lemma str_app_eq_nil s t : s +:+ t = "" → s = "" ∧ t = "".
Proof. destruct s; [auto | discriminate]. Qed.

Lemma str_rev_app_spec s t : String.rev_app s t = String.rev s +:+ t.
Proof.
  unfold String.rev. revert t.
  induction s as [|c s IH]; intros t; simpl; [done|].
  rewrite (IH (String c "")), IH, str_app_assoc. done.
Qed.

Lemma str_rev_cons c s : String.rev (String c s) = String.rev s +:+ String c "".
Proof. unfold String.rev at 1. simpl. apply str_rev_app_spec. Qed.

Lemma str_rev_app_distr s t :
  String.rev (s +:+ t) = String.rev t +:+ String.rev s.
Proof.
  induction s as [|c s IH].
  - by rewrite str_app_nil_l, str_app_nil_r.
  - by rewrite str_app_cons, !str_rev_cons, IH, str_app_assoc.
Qed.

Lemma str_rev_involutive s : String.rev (String.rev s) = s.
Proof.
  induction s as [|c s IH]; [done|].
  by rewrite str_rev_cons, str_rev_app_distr, IH.
Qed.

Lemma str_rev_inj s t : String.rev s = String.rev t → s = t.
Proof. intros H. by rewrite <-(str_rev_involutive s), H, str_rev_involutive. Qed.

Lemma str_app_inv_tail s t u : s +:+ u = t +:+ u → s = t.
Proof.
  intros H. apply str_rev_inj. apply (f_equal String.rev) in H.
  rewrite !str_rev_app_distr in H. by apply (inj (String.app _)) in H.
Qed.

Lemma str_prefix_nil s : String.prefix "" s = true.
Proof. by destruct s. Qed.

Lemma str_prefix_cons c d s t :
  String.prefix (String c s) (String d t)
  = bool_decide (c = d) && String.prefix s t.
Proof.
  simpl. destruct (ascii_dec c d);
    [rewrite bool_decide_true by done | rewrite bool_decide_false by done];
    done.
Qed.

Lemma str_prefix_app s t : String.prefix s (s +:+ t) = true.
Proof.
  induction s as [|c s IH]; [apply str_prefix_nil|].
  rewrite str_app_cons, str_prefix_cons, IH. by rewrite bool_decide_true.
Qed.

Lemma str_prefix_inv s t : String.prefix s t = true → ∃ u, t = s +:+ u.
Proof.
  revert t. induction s as [|c s IH]; intros t H.
  - by exists t.
  - destruct t as [|d t]; [done|].
    rewrite str_prefix_cons in H. apply andb_true_iff in H as [Hc H].
    apply bool_decide_eq_true in Hc as ->.
    destruct (IH _ H) as [u ->]. by exists u.
Qed.

Lemma endsWith_app s t : Js.endsWith (s +:+ t) t = true.
Proof. unfold Js.endsWith. rewrite str_rev_app_distr. apply str_prefix_app. Qed.

Lemma endsWith_inv s t : Js.endsWith s t = true → ∃ u, s = u +:+ t.
Proof.
  unfold Js.endsWith. intros [u Hu]%str_prefix_inv. exists (String.rev u).
  apply str_rev_inj. by rewrite str_rev_app_distr, str_rev_involutive.
Qed.

Lemma substring_app_l s t : String.substring 0 (String.length s) (s +:+ t) = s.
Proof.
  induction s as [|c s IH]; [by destruct t|].
  rewrite str_app_cons. simpl. by rewrite IH.
Qed.

Lemma toLowerCase_app s t :
  Js.toLowerCase (s +:+ t) = Js.toLowerCase s +:+ Js.toLowerCase t.
Proof.
  induction s as [|c s IH]; [done|].
  rewrite str_app_cons. simpl. by rewrite IH, str_app_cons.
Qed.

Lemma no_slash_app s t : no_slash (s +:+ t) ↔ no_slash s ∧ no_slash t.
Proof.
  induction s as [|c s IH]; [simpl; rewrite str_app_nil_l; tauto|].
  rewrite str_app_cons. simpl. tauto.
Qed.

Lemma no_slash_rev s : no_slash (String.rev s) ↔ no_slash s.
Proof.
  induction s as [|c s IH]; [done|].
  rewrite str_rev_cons, no_slash_app, IH. simpl. tauto.
Qed.

Lemma md_suffix_long s : s +:+ ".md" ≠ "" ∧ s +:+ ".md" ≠ "." ∧ s +:+ ".md" ≠ "..".
Proof.
  repeat split; intros H%(f_equal String.length);
    rewrite str_app_length in H; simpl in H; lia.
Qed.

End StringFacts.

(** ** Paths *)

Section PathFacts.

Implicit Types s t n : string.

Lemma prefix_slash c s :
  String.prefix "/" (String c s) = bool_decide ("/"%char = c).
Proof. by rewrite str_prefix_cons, str_prefix_nil, andb_true_r. Qed.

Lemma split_go_slash_app cur s t :
  Js.split_go "/" 0 cur (s +:+ String "/" t)
  = Js.split_go "/" 0 cur s ++ Js.split_go "/" 0 "" t.
Proof.
  revert cur. induction s as [|c s IH]; intros cur.
  - rewrite str_app_nil_l. cbn [Js.split_go]. by rewrite prefix_slash, bool_decide_true.
  - rewrite str_app_cons. cbn [Js.split_go]. rewrite !prefix_slash.
    case_bool_decide; simpl; by rewrite IH.
Qed.

Lemma split_go_no_slash cur n :
  no_slash n → Js.split_go "/" 0 cur n = [String.rev cur +:+ n].
Proof.
  revert cur. induction n as [|c n IH]; intros cur Hn.
  - simpl. by rewrite str_app_nil_r.
  - destruct Hn as [Hc Hn]. cbn [Js.split_go]. rewrite prefix_slash.
    rewrite bool_decide_false by congruence.
    by rewrite IH, str_rev_cons, str_app_assoc.
Qed.

Lemma segments_single n : no_slash n → Path.segments n = [n].
Proof. intros. unfold Path.segments, Js.split. by rewrite split_go_no_slash. Qed.

Lemma segments_snoc s n :
  no_slash n → Path.segments (s +:+ "/" +:+ n) = Path.segments s ++ [n].
Proof.
  intros Hn. unfold Path.segments, Js.split.
  change ("/" +:+ n) with (String "/" n).
  by rewrite split_go_slash_app, (split_go_no_slash "" n).
Qed.

Lemma step_regular b st n : regular n → Path.step b st n = n :: st.
Proof.
  intros (? & ? & ? & _). unfold Path.step.
  rewrite decide_False by (intros [?|?]; done).
  by rewrite decide_False.
Qed.

Lemma concat_snoc l n : String.concat "/" (l ++ [n]) = dir_prefix l +:+ n.
Proof.
  induction l as [|x l IH]; [done|].
  destruct l as [|y l].
  - simpl. by rewrite str_app_assoc.
  - change (String.concat "/" ((x :: y :: l) ++ [n]))
      with (x +:+ "/" +:+ String.concat "/" ((y :: l) ++ [n])).
    rewrite IH. unfold dir_prefix.
    change (String.concat "/" (x :: y :: l))
      with (x +:+ "/" +:+ String.concat "/" (y :: l)).
    by rewrite !str_app_assoc.
Qed.

Lemma normalizeString_single b n : regular n → Path.normalizeString n b = n.
Proof.
  intros Hn. unfold Path.normalizeString.
  rewrite segments_single by apply Hn. simpl. by rewrite step_regular.
Qed.

Lemma normalizeString_snoc b s n :
  regular n →
  Path.normalizeString (s +:+ "/" +:+ n) b
  = dir_prefix (reverse (foldl (Path.step b) [] (Path.segments s))) +:+ n.
Proof.
  intros Hn. unfold Path.normalizeString, Js.join.
  rewrite segments_snoc by apply Hn.
  rewrite foldl_app. simpl. rewrite step_regular by done.
  by rewrite reverse_cons, concat_snoc.
Qed.

Lemma isAbsolute_app s t :
  s ≠ "" → Path.isAbsolute (s +:+ t) = Path.isAbsolute s.
Proof.
  destruct s as [|c s]; [done|]. intros _.
  unfold Path.isAbsolute, Js.startsWith. by rewrite str_app_cons, !prefix_slash.
Qed.

Lemma isAbsolute_regular n : regular n → Path.isAbsolute n = false.
Proof.
  intros (Hne & _ & _ & Hn). destruct n as [|c n]; [done|].
  unfold Path.isAbsolute, Js.startsWith. rewrite prefix_slash.
  apply bool_decide_false. destruct Hn. congruence.
Qed.

Lemma endsWith_slash_regular s n :
  regular n → Js.endsWith (s +:+ n) "/" = false.
Proof.
  intros (Hne & _ & _ & Hn). unfold Js.endsWith. rewrite str_rev_app_distr.
  destruct (String.rev n) as [|c r] eqn:Hr.
  - destruct Hne. apply str_rev_inj. by rewrite Hr.
  - apply no_slash_rev in Hn. rewrite Hr in Hn. destruct Hn as [Hc _].
    rewrite str_app_cons. change (String.rev "/") with "/".
    rewrite prefix_slash. apply bool_decide_false. congruence.
Qed.

Lemma normalize_nonempty s : Path.normalize s ≠ "".
Proof.
  unfold Path.normalize. case_decide; [done|].
  case_decide.
  - by destruct (Path.isAbsolute s), (Js.endsWith s "/").
  - destruct (Path.isAbsolute s), (Js.endsWith s "/"); try done;
      intros [? _]%str_app_eq_nil; done.
Qed.

Lemma join_nonempty l : Path.join l ≠ "".
Proof.
  unfold Path.join. destruct (filter _ l); [done | apply normalize_nonempty].
Qed.

Lemma join_dir_name dir n :
  dir ≠ "" → regular n → Path.join [dir; n] = join_prefix dir +:+ n.
Proof.
  intros Hdir Hn. unfold Path.join.
  assert (Hne : n ≠ "") by apply Hn.
  rewrite filter_cons_True, filter_cons_True, filter_nil by done.
  change (Js.join "/" [dir; n]) with (dir +:+ "/" +:+ n).
  unfold Path.normalize.
  rewrite decide_False by (intros [? _]%str_app_eq_nil; done).
  rewrite isAbsolute_app by done.
  rewrite <-str_app_assoc, endsWith_slash_regular, str_app_assoc by done.
  rewrite normalizeString_snoc by done.
  rewrite decide_False by (intros [_ ?]%str_app_eq_nil; done).
  unfold join_prefix. destruct (Path.isAbsolute dir); simpl; [by rewrite str_app_assoc | done].
Qed.

Lemma dir_prefix_shape l :
  dir_prefix l = "" ∨ ∃ s, dir_prefix l = s +:+ "/".
Proof. destruct l; [by left | right; by eexists]. Qed.

Lemma resolve_prefix_name cwd p :
  (p = "" ∨ ∃ s, p = s +:+ "/") →
  ∃ r, ∀ n, regular n → Path.resolve cwd (p +:+ n) = r +:+ n.
Proof.
  intros [->|[s ->]].
  - eexists. intros n Hn. unfold Path.resolve.
    rewrite str_app_nil_l, isAbsolute_regular by done.
    rewrite normalizeString_snoc by done. by rewrite <-str_app_assoc.
  - destruct (Path.isAbsolute (s +:+ "/")) eqn:Habs.
    + eexists. intros n Hn. unfold Path.resolve.
      rewrite isAbsolute_app, Habs by (intros [_ ?]%str_app_eq_nil; done).
      rewrite str_app_assoc, normalizeString_snoc by done.
      by rewrite <-str_app_assoc.
    + eexists. intros n Hn. unfold Path.resolve.
      rewrite isAbsolute_app, Habs by (intros [_ ?]%str_app_eq_nil; done).
      rewrite (str_app_assoc s "/" n).
      rewrite <-(str_app_assoc "/" s), <-(str_app_assoc cwd).
      rewrite normalizeString_snoc by done.
      by rewrite <-str_app_assoc.
Qed.

Lemma resolve_join_name cwd dir :
  dir ≠ "" →
  ∃ r, ∀ n, regular n → Path.resolve cwd (Path.join [dir; n]) = r +:+ n.
Proof.
  intros Hdir.
  destruct (resolve_prefix_name cwd (join_prefix dir)) as [r Hr].
  - unfold join_prefix.
    destruct (dir_prefix_shape
                (reverse (foldl (Path.step (negb (Path.isAbsolute dir))) []
                                (Path.segments dir)))) as [->|[s ->]].
    + destruct (Path.isAbsolute dir); [right; by exists "" | by left].
    + right. exists ((if Path.isAbsolute dir then "/" else "") +:+ s).
      by rewrite str_app_assoc.
  - exists r. intros n Hn. by rewrite join_dir_name, Hr.
Qed.

End PathFacts.

(** ** The file store *)

Section FileStoreFacts.

Variable cwd : string.

Implicit Types s t n : string.
Implicit Types fs : Fs.t.

Lemma string_of_uint_inj d d' :
  NilEmpty.string_of_uint d = NilEmpty.string_of_uint d' → d = d'.
Proof.
  intros H. assert (Some d = Some d') as [= ->]; [|done].
  by rewrite <-(NilEmpty.usu d), <-(NilEmpty.usu d'), H.
Qed.

Lemma number_inj a b : Js.number a = Js.number b → a = b.
Proof.
  unfold Js.number. intros H%string_of_uint_inj.
  by apply DecimalN.Unsigned.to_uint_inj.
Qed.

Lemma no_slash_string_of_uint d : no_slash (NilEmpty.string_of_uint d).
Proof. induction d; simpl; done. Qed.

Lemma no_slash_number a : no_slash (Js.number a).
Proof. apply no_slash_string_of_uint. Qed.

Lemma split_go_elems_no_slash cur s :
  no_slash cur → Forall no_slash (Js.split_go "/" 0 cur s).
Proof.
  revert cur. induction s as [|c s IH]; intros cur Hcur.
  - simpl. constructor; [by apply no_slash_rev | constructor].
  - cbn [Js.split_go]. rewrite prefix_slash. case_bool_decide.
    + simpl. constructor; [by apply no_slash_rev | by apply IH].
    + apply IH. simpl. split; [congruence | done].
Qed.

Lemma no_slash_basename p : no_slash (Path.basename p).
Proof.
  unfold Path.basename.
  destruct (last _) as [x|] eqn:Hlast; [|done]. simpl.
  apply last_Some_elem_of, list_elem_of_filter in Hlast as [_ Hx].
  pose proof (split_go_elems_no_slash "" p I) as Hall.
  rewrite Forall_forall in Hall. by apply Hall.
Qed.

(** [basename] of a name, alone or behind a directory. *)
Lemma basename_single n : n ≠ "" → no_slash n → Path.basename n = n.
Proof.
  intros Hne Hn. unfold Path.basename. rewrite segments_single by done.
  by rewrite filter_cons_True.
Qed.

Lemma basename_dir d n :
  n ≠ "" → no_slash n → Path.basename (d +:+ "/" +:+ n) = n.
Proof.
  intros Hne Hn. unfold Path.basename. rewrite segments_snoc by done.
  rewrite filter_app, filter_cons_True, filter_nil by done.
  by rewrite last_snoc.
Qed.

(** The final file name is a stem without separators and [.md]. *)
Lemma finalFileName_shape hint :
  ∃ t, FileStore.finalFileName_of hint = t +:+ ".md" ∧ no_slash t
       ∧ FileStore.stem_of (FileStore.finalFileName_of hint) = t.
Proof.
  assert (Hstem : ∀ t, FileStore.stem_of (t +:+ ".md") = t).
  { intros t. unfold FileStore.stem_of.
    rewrite toLowerCase_app. change (Js.toLowerCase ".md") with ".md".
    rewrite endsWith_app, str_app_length. simpl String.length.
    by rewrite Nat.add_sub, substring_app_l. }
  unfold FileStore.finalFileName_of.
  set (raw := Path.basename _).
  assert (Hraw : no_slash raw) by apply no_slash_basename.
  destruct (Js.endsWith raw ".md") eqn:Hend.
  - apply endsWith_inv in Hend as [t Ht]. exists t. rewrite Ht in *.
    apply no_slash_app in Hraw as [? _]. auto.
  - exists raw. auto.
Qed.

Lemma regular_md t : no_slash t → regular (t +:+ ".md").
Proof.
  intros Ht. destruct (md_suffix_long t) as (? & ? & ?).
  repeat split; try done. apply no_slash_app. split; [done | simpl; done].
Qed.

Lemma regular_suffixed t i : no_slash t → regular (suffixed_name t i).
Proof.
  intros Ht. unfold suffixed_name.
  rewrite <-(str_app_assoc "-"), <-str_app_assoc. apply regular_md.
  rewrite !no_slash_app. repeat split; try done. apply no_slash_number.
Qed.

Lemma suffixed_name_inj t i j : suffixed_name t i = suffixed_name t j → i = j.
Proof.
  unfold suffixed_name. intros H.
  apply (inj (String.app _)) in H. apply (inj (String.app _)) in H.
  apply str_app_inv_tail, number_inj in H. lia.
Qed.

Lemma suffixed_name_fresh t i : t +:+ ".md" ≠ suffixed_name t i.
Proof. unfold suffixed_name. intros H. by apply (inj (String.app _)) in H. Qed.

Lemma existsSync_true p fs :
  Fs.existsSync cwd p fs = true → is_Some (fs !! Path.resolve cwd p).
Proof.
  unfold Fs.existsSync, Fs.lookup.
  by destruct (fs !! Path.resolve cwd p) as [[]|].
Qed.

Lemma existsSync_File p c fs :
  fs !! Path.resolve cwd p = Some (Fs.File c) → Fs.existsSync cwd p fs = true.
Proof. unfold Fs.existsSync, Fs.lookup. by intros ->. Qed.

(** [existsSync] sees a path through its resolved form only. *)
Lemma existsSync_resolve p q fs :
  Path.resolve cwd p = Path.resolve cwd q →
  Fs.existsSync cwd p fs = Fs.existsSync cwd q fs.
Proof. unfold Fs.existsSync, Fs.lookup. by intros ->. Qed.

Lemma probe_None fs dir stem fuel i c :
  FileStore.probe cwd fs dir stem fuel i c = None →
  Fs.existsSync cwd c fs = true
  ∧ ∀ k, (i ≤ k < i + fuel)%nat →
         Fs.existsSync cwd (FileStore.suffixed dir stem k) fs = true.
Proof.
  revert i c. induction fuel as [|fuel IH]; intros i c; simpl.
  - destruct (Fs.existsSync cwd c fs); [|done]. intros _. split; [done|lia].
  - destruct (Fs.existsSync cwd c fs); [|done].
    intros [H1 H2]%IH. split; [done|]. intros k Hk.
    destruct (decide (k = i)) as [->|]; [done|]. apply H2. lia.
Qed.

Lemma probe_Some fs dir stem fuel i c r :
  FileStore.probe cwd fs dir stem fuel i c = Some r →
  Fs.existsSync cwd r fs = false
  ∧ (r = c
     ∨ Fs.existsSync cwd c fs = true
       ∧ ∃ k, (i ≤ k < i + fuel)%nat ∧ r = FileStore.suffixed dir stem k
              ∧ ∀ j, (i ≤ j < k)%nat →
                     Fs.existsSync cwd (FileStore.suffixed dir stem j) fs = true).
Proof.
  revert i c. induction fuel as [|fuel IH]; intros i c; simpl.
  - destruct (Fs.existsSync cwd c fs) eqn:Hc; [done|]. intros [= <-]. auto.
  - destruct (Fs.existsSync cwd c fs) eqn:Hc; [|intros [= <-]; auto].
    intros [Hr [->|(Hi & k & Hk & -> & Hbelow)]]%IH; (split; [done|]); right;
      (split; [done|]).
    + exists i. split; [lia|]. split; [done|]. intros j Hj. lia.
    + exists k. split; [lia|]. split; [done|]. intros j Hj.
      destruct (decide (j = i)) as [->|]; [done|]. apply Hbelow. lia.
Qed.

(** As many distinct paths as exist fit into the file system. *)
Lemma existing_paths_bound fs (keys : list string) :
  NoDup keys → (∀ k, k ∈ keys → is_Some (fs !! k)) → (length keys ≤ size fs)%nat.
Proof.
  intros Hnd Hin.
  rewrite <-(size_dom (D := gset string) fs), <-(size_list_to_set (C := gset string) keys) by done.
  apply subseteq_size. intros k Hk%elem_of_list_to_set.
  by apply elem_of_dom, Hin.
Qed.

Lemma probe_returns fs dir t :
  dir ≠ "" → no_slash t →
  is_Some (FileStore.probe cwd fs dir t (size fs) 1
             (Path.join [dir; t +:+ ".md"])).
Proof.
  intros Hdir Ht.
  destruct (FileStore.probe cwd fs dir t (size fs) 1 _) as [r|] eqn:Hp; [done|].
  exfalso. apply probe_None in Hp as [H0 Hall].
  destruct (resolve_join_name cwd dir Hdir) as [r Hr].
  pose proof (existing_paths_bound fs
    ((r +:+ (t +:+ ".md"))
       :: ((λ i, r +:+ suffixed_name t i) <$> seq 1 (size fs)))) as Hbound.
  simpl in Hbound. rewrite length_fmap, length_seq in Hbound.
  enough (S (size fs) ≤ size fs)%nat by lia. apply Hbound.
  - constructor.
    + intros (i & Heq & _)%list_elem_of_fmap.
      apply (inj (String.app _)) in Heq. by apply suffixed_name_fresh in Heq.
    + apply NoDup_fmap_2_strong; [|apply NoDup_seq].
      intros i j _ _ Heq. apply (inj (String.app _)) in Heq.
      by apply suffixed_name_inj in Heq.
  - intros k [->|(i & -> & Hi%elem_of_seq)%list_elem_of_fmap]%elem_of_cons.
    + rewrite <-Hr by by apply regular_md. by apply existsSync_true.
    + rewrite <-Hr by by apply regular_suffixed.
      apply existsSync_true, Hall. lia.
Qed.

End FileStoreFacts.

Section SaveDated.

Variable cwd : string.

Lemma targetDir_nonempty baseDir now : FileStore.targetDir_of baseDir now ≠ "".
Proof. apply join_nonempty. Qed.

Lemma writeFileSync_frame p content fs q :
  q ≠ Path.resolve cwd p → Fs.writeFileSync cwd p content fs !! q = fs !! q.
Proof. unfold Fs.writeFileSync. intros Hq. by apply lookup_insert_ne. Qed.

(** A write to a path that [existsSync] does not see changes no path that
    it sees. *)
Lemma writeFileSync_existing p content fs q :
  Fs.existsSync cwd p fs = false → Fs.existsSync cwd q fs = true →
  Fs.lookup cwd q (Fs.writeFileSync cwd p content fs) = Fs.lookup cwd q fs.
Proof.
  intros Hp Hq. unfold Fs.lookup. apply writeFileSync_frame. intros Heq.
  rewrite (existsSync_resolve cwd q p fs Heq) in Hq. congruence.
Qed.

(** What [saveDated] returns and where it writes. *)
Lemma saveDated_shape baseDir hint content now fs :
  let dir := FileStore.targetDir_of baseDir now in
  let name := FileStore.finalFileName_of hint in
  let stem := FileStore.stem_of name in
  ∃ stored,
    FileStore.saveDated cwd baseDir hint content now fs
    = Some (Fs.writeFileSync cwd (path stored) content fs, stored)
    ∧ bytes stored = String.length content
    ∧ Fs.existsSync cwd (path stored) fs = false
    ∧ (if Fs.existsSync cwd (Path.join [dir; name]) fs
       then ∃ i, (1 ≤ i)%nat
            ∧ path stored = FileStore.suffixed dir stem i
            ∧ ∀ j, (1 ≤ j < i)%nat →
                   Fs.existsSync cwd (FileStore.suffixed dir stem j) fs = true
       else path stored = Path.join [dir; name]).
Proof.
  cbv zeta. unfold FileStore.saveDated, FileStore.ensureDir.
  destruct (finalFileName_shape hint) as (t & Hname & Ht & Hstem).
  rewrite Hstem, Hname. set (dir := FileStore.targetDir_of baseDir now).
  destruct (Fs.existsSync cwd (Path.join [dir; t +:+ ".md"]) fs) eqn:Hc0.
  - destruct (probe_returns cwd fs dir t (targetDir_nonempty _ _) Ht) as [r Hr].
    rewrite Hr. simpl.
    apply probe_Some in Hr as [Hfree [->|(_ & k & Hk & -> & Hbelow)]].
    { congruence. }
    eexists (MkStored _ _). simpl. split; [done|]. split; [done|].
    split; [done|].
    exists k. split; [lia|]. split; [done|]. intros j Hj. apply Hbelow. lia.
  - simpl. eexists (MkStored _ _). simpl. split; [done|]. split; [done|].
    split; [done | done].
Qed.

End SaveDated.

Section SaveDatedSpec.

Variable cwd : string.

Lemma resolve_join_inj dir n m :
  dir ≠ "" → regular n → regular m →
  Path.resolve cwd (Path.join [dir; n]) = Path.resolve cwd (Path.join [dir; m]) →
  n = m.
Proof.
  intros Hdir Hn Hm. destruct (resolve_join_name cwd dir Hdir) as [r Hr].
  rewrite !Hr by done. apply (inj (String.app _)).
Qed.

(** C8. [saveDated] builds the directory [root/YYYY/MM/DD] from the date,
    with the month and the day in two digits. The file name is the last
    segment of the hint ([note.md] for an empty hint), with [.md] added
    unless it ends in [.md] already. [saveDated] always returns; the path
    it returns is one [existsSync] did not see, and it is the only one
    written, so that no file that exists changes; the path is the plain
    name when that does not exist and otherwise the first that does not
    exist among [stem-1.md], [stem-2.md], ...; and a second save of the
    same hint on the same day returns another path, leaves the first file
    as it is, and returns [stem-1.md] when neither the plain name nor
    [stem-1.md] existed before the first save. *)
Theorem saveDated_collision_safe baseDir hint content now fs :
  let dir :=
    Path.join [baseDir; Js.number (getFullYear now);
               Js.pad2 (Js.number (getMonth now + 1));
               Js.pad2 (Js.number (getDate now))] in
  let name := FileStore.finalFileName_of hint in
  let stem := FileStore.stem_of name in
  let numbered (i : nat) :=
    Path.join [dir; stem +:+ "-" +:+ Js.number (N.of_nat i) +:+ ".md"] in
  let forced (n : string) := if Js.endsWith n ".md" then n else n +:+ ".md" in
  (name = forced (Path.basename (if decide (hint = "") then "note.md" else hint))
   ∧ (hint = "" → name = "note.md")
   ∧ (∀ n, n ≠ "" → no_slash n → hint = n → name = forced n)
   ∧ (∀ d n, n ≠ "" → no_slash n → hint = d +:+ "/" +:+ n → name = forced n)
   ∧ name = stem +:+ ".md" ∧ no_slash name)
  ∧ (FileStore.finalFileName_of "notes/My Note" = "My Note.md"
     ∧ FileStore.finalFileName_of "a/b.md" = "b.md"
     ∧ FileStore.finalFileName_of "Draft.MD" = "Draft.MD.md"
     ∧ FileStore.stem_of "Draft.MD.md" = "Draft.MD"
     ∧ FileStore.targetDir_of "./data" (MkDate 2025 0 2) = "data/2025/01/02"
     ∧ FileStore.targetDir_of "/var/notes" (MkDate 2025 11 25)
       = "/var/notes/2025/12/25")
  ∧ ∃ stored,
      let fs1 := Fs.writeFileSync cwd (path stored) content fs in
      FileStore.saveDated cwd baseDir hint content now fs = Some (fs1, stored)
      ∧ bytes stored = String.length content
      ∧ Fs.existsSync cwd (path stored) fs = false
      ∧ (∀ q, q ≠ Path.resolve cwd (path stored) → fs1 !! q = fs !! q)
      ∧ (∀ q, Fs.existsSync cwd q fs = true →
              Fs.lookup cwd q fs1 = Fs.lookup cwd q fs)
      ∧ Fs.lookup cwd (path stored) fs1 = Some (Fs.File content)
      ∧ (if Fs.existsSync cwd (Path.join [dir; name]) fs
         then ∃ i, (1 ≤ i)%nat ∧ path stored = numbered i
              ∧ ∀ j, (1 ≤ j < i)%nat → Fs.existsSync cwd (numbered j) fs = true
         else path stored = Path.join [dir; name])
      ∧ ∀ content2, ∃ stored2,
          let fs2 := Fs.writeFileSync cwd (path stored2) content2 fs1 in
          FileStore.saveDated cwd baseDir hint content2 now fs1
          = Some (fs2, stored2)
          ∧ path stored2 ≠ path stored
          ∧ Fs.lookup cwd (path stored) fs2 = Some (Fs.File content)
          ∧ (Fs.existsSync cwd (Path.join [dir; name]) fs = false →
             Fs.existsSync cwd (numbered 1%nat) fs = false →
             path stored = Path.join [dir; name]
             ∧ path stored2 = Path.join [dir; stem +:+ "-1.md"]).
Proof.
  cbv zeta.
  change (Path.join [baseDir; Js.number (getFullYear now);
                     Js.pad2 (Js.number (getMonth now + 1));
                     Js.pad2 (Js.number (getDate now))])
    with (FileStore.targetDir_of baseDir now).
  set (dir := FileStore.targetDir_of baseDir now).
  destruct (finalFileName_shape hint) as (t & Hname & Ht & Hstem).
  split.
  { split; [by destruct hint|]. split; [by intros ->|].
    split; [|split; [|split]].
    - intros n Hne Hn ->. unfold FileStore.finalFileName_of.
      destruct n as [|c n]; [done|]. cbn [Js.truthy].
      by rewrite basename_single.
    - intros d n Hne Hn ->. unfold FileStore.finalFileName_of.
      assert (Js.truthy (d +:+ "/" +:+ n) = true) as ->.
      { destruct d as [|c d]; [done|]. by rewrite str_app_cons. }
      by rewrite basename_dir.
    - by rewrite Hstem, Hname.
    - rewrite Hname. apply no_slash_app. by split. }
  split. { vm_compute. repeat split. }
  destruct (saveDated_shape cwd baseDir hint content now fs)
    as (stored & Hsave & Hbytes & Hfree & Hshape).
  exists stored. set (fs1 := Fs.writeFileSync cwd (path stored) content fs).
  assert (Hfirst : Fs.lookup cwd (path stored) fs1 = Some (Fs.File content)).
  { unfold Fs.lookup, fs1, Fs.writeFileSync. apply lookup_insert_eq. }
  split; [done|]. split; [done|]. split; [done|].
  split. { intros q Hq. by apply writeFileSync_frame. }
  split. { intros q Hq. by apply writeFileSync_existing. }
  split; [done|]. split; [exact Hshape|].
  intros content2.
  destruct (saveDated_shape cwd baseDir hint content2 now fs1)
    as (stored2 & Hsave2 & _ & Hfree2 & Hshape2).
  exists stored2. split; [done|].
  assert (Hseen : Fs.existsSync cwd (path stored) fs1 = true)
    by by eapply existsSync_File.
  assert (Hne : path stored2 ≠ path stored).
  { intros Heq. rewrite Heq in Hfree2. congruence. }
  split; [done|].
  split. { by rewrite writeFileSync_existing. }
  intros Hc0 Hc1. cbv zeta in Hshape, Hshape2. fold dir in Hshape, Hshape2.
  rewrite Hc0 in Hshape. split; [done|].
  rewrite Hshape in Hseen. rewrite Hseen in Hshape2.
  destruct Hshape2 as (i & Hi & Hpath2 & Hbelow).
  destruct (decide (i = 1%nat)) as [->|Hi1]; [exact Hpath2|].
  exfalso. specialize (Hbelow 1%nat ltac:(lia)).
  unfold Fs.existsSync, Fs.lookup in Hbelow, Hc1.
  unfold fs1 in Hbelow. rewrite writeFileSync_frame in Hbelow.
  { unfold FileStore.suffixed in Hbelow. by rewrite Hc1 in Hbelow. }
  rewrite Hshape, Hstem, Hname. intros Heq.
  apply resolve_join_inj in Heq;
    [by apply (suffixed_name_fresh t 1) | apply targetDir_nonempty
    | by apply (regular_suffixed t 1) | by apply regular_md].
Qed.

End SaveDatedSpec.

Example saveDated_twice_example :
  let today := MkDate 2025 0 2 in
  let first := FileStore.saveDated "/srv" "./data" "note.md" "one" today ∅ in
  let second :=
    first ≫= λ r, FileStore.saveDated "/srv" "./data" "note.md" "two" today r.1 in
  (path ∘ snd) <$> first = Some "data/2025/01/02/note.md"
  ∧ (path ∘ snd) <$> second = Some "data/2025/01/02/note-1.md"
  ∧ (map_to_list ∘ fst) <$> second
    = Some [("/srv/data/2025/01/02/note-1.md", Fs.File "two");
            ("/srv/data/2025/01/02/note.md", Fs.File "one")].
Proof. cbv zeta. split; [|split]; vm_compute; reflexivity. Qed.

(** ** Capped reads *)

Section ReadLimited.

Variable cwd : string.

(** What [readLimited] answers, by what is at the path. *)
Lemma readLimited_answer p limitBytes fs :
  let marker e :=
    MkRead false None (Some ("[Error reading file: " +:+ show_error e +:+ "]")) in
  let oversized size :=
    MkRead true (Some size) (Some (FileStore.too_large_message size)) in
  FileStore.readLimited cwd p limitBytes fs
  = match Fs.lookup cwd p fs with
    | None => MkRead false None None
    | Some (Fs.File c) =>
        let size := Z.of_nat (String.length c) in
        if limitBytes <? size then oversized size
        else MkRead true (Some size) (Some c)
    | Some (Fs.Unreadable size e) =>
        if limitBytes <? size then oversized size else marker e
    | Some (Fs.Unstatable e) => marker e
    | Some (Fs.Unreachable _) => MkRead false None None
    end.
Proof.
  cbv zeta. unfold FileStore.readLimited, FileStore.readLimited_try,
    Fs.existsSync, Fs.statSync_size, Fs.readFileSync.
  destruct (Fs.lookup cwd p fs) as [[c|size e|e|e]|] eqn:Hl; simpl; try done.
  - by destruct (limitBytes <? Z.of_nat (String.length c)).
  - by destruct (limitBytes <? size).
Qed.

End ReadLimited.

(** The number in the placeholder is the size in MiB, rounded to the
    nearest hundredth. *)
Lemma too_large_message_rounds size :
  0 ≤ size →
  ∃ n : N,
    2 * Z.abs (Z.of_N n * 1048576 - 100 * size) ≤ 1048576
    ∧ FileStore.too_large_message size
      = "[File too large: " +:+ Js.number (n / 100) +:+ "."
        +:+ Js.pad2 (Js.number (n mod 100)) +:+ "MB. Contents not loaded.]".
Proof.
  intros Hsize. exists (Z.to_N ((200 * size + 1048576) / 2097152)).
  split.
  2:{ unfold FileStore.too_large_message, FileStore.megabytes_toFixed2.
      cbv zeta. by rewrite !str_app_assoc. }
  assert (Hq : 0 ≤ (200 * size + 1048576) / 2097152)
    by (apply Z.div_pos; lia).
  rewrite Z2N.id by done.
  pose proof (Z.mul_div_le (200 * size + 1048576) 2097152 ltac:(lia)).
  pose proof (Z.mul_succ_div_gt (200 * size + 1048576) 2097152 ltac:(lia)).
  lia.
Qed.

(** C9, at an input where the code departs from the claim. A file in a
    directory the process may not search is there, and [stat] and a read
    of it throw; [existsSync] answers [false] for it, and [readLimited]
    gives the answer it gives for a path that is not there, not the marker
    of an error. Everywhere else [readLimited] does what the claim says: a
    missing path gets [file_exists: false] and nothing else; a file above
    the cap its size and the placeholder, which names the size in MiB and
    is the same whatever the file holds; a file within the cap its size
    and content; and a [stat] or a read that throws the marker that
    carries the error. *)
Theorem readLimited_unreachable_as_missing :
  let denied :=
    FsError "EACCES: permission denied, stat '/srv/data/private/note.md'" in
  let fs : Fs.t := {[ "/srv/data/private/note.md" := Fs.Unreachable denied ]} in
  let missing := MkRead false None None in
  let marker e :=
    MkRead false None (Some ("[Error reading file: " +:+ show_error e +:+ "]")) in
  let oversized size :=
    MkRead true (Some size) (Some (FileStore.too_large_message size)) in
  (Fs.statSync_size "/srv" "data/private/note.md" fs = Err denied
   ∧ Fs.readFileSync "/srv" "data/private/note.md" fs = Err denied
   ∧ Fs.existsSync "/srv" "data/private/note.md" fs = false
   ∧ FileStore.readLimited "/srv" "data/private/note.md"
       FileStore.default_limitBytes fs = missing
   ∧ FileStore.readLimited "/srv" "data/absent.md"
       FileStore.default_limitBytes fs = missing
   ∧ marker denied
     = MkRead false None
         (Some "[Error reading file: Error: EACCES: permission denied, stat '/srv/data/private/note.md']")
   ∧ marker denied ≠ missing)
  ∧ (∀ cwd p limitBytes fs,
       FileStore.readLimited cwd p limitBytes fs
       = match Fs.lookup cwd p fs with
         | None => missing
         | Some (Fs.File c) =>
             let size := Z.of_nat (String.length c) in
             if limitBytes <? size then oversized size
             else MkRead true (Some size) (Some c)
         | Some (Fs.Unreadable size e) =>
             if limitBytes <? size then oversized size else marker e
         | Some (Fs.Unstatable e) => marker e
         | Some (Fs.Unreachable _) => missing
         end)
  ∧ (∀ e, marker e ≠ missing)
  ∧ (FileStore.default_limitBytes = 1048576
     ∧ FileStore.too_large_message 1048577
       = "[File too large: 1.00MB. Contents not loaded.]"
     ∧ FileStore.too_large_message 1572864
       = "[File too large: 1.50MB. Contents not loaded.]"
     ∧ FileStore.too_large_message 131072
       = "[File too large: 0.13MB. Contents not loaded.]"
     ∧ FileStore.too_large_message 123456789
       = "[File too large: 117.74MB. Contents not loaded.]"
     ∧ ∀ size, 0 ≤ size →
         ∃ n : N,
           2 * Z.abs (Z.of_N n * 1048576 - 100 * size) ≤ 1048576
           ∧ FileStore.too_large_message size
             = "[File too large: " +:+ Js.number (n / 100) +:+ "."
               +:+ Js.pad2 (Js.number (n mod 100))
               +:+ "MB. Contents not loaded.]")
  ∧ (∀ cwd p limitBytes fs c c',
       String.length c = String.length c' →
       limitBytes < Z.of_nat (String.length c) →
       FileStore.readLimited cwd p limitBytes
         (<[Path.resolve cwd p := Fs.File c]> fs)
       = FileStore.readLimited cwd p limitBytes
           (<[Path.resolve cwd p := Fs.File c']> fs)
         ∧ file_contents
             (FileStore.readLimited cwd p limitBytes
                (<[Path.resolve cwd p := Fs.File c]> fs))
           = Some (FileStore.too_large_message (Z.of_nat (String.length c)))).
Proof.
  cbv zeta. split; [by vm_compute|].
  split; [intros cwd p limitBytes fs; apply readLimited_answer|].
  split; [intros e; discriminate|].
  split.
  { split; [done|]. do 4 (split; [by vm_compute|]).
    apply too_large_message_rounds. }
  intros cwd p limitBytes fs c c' Hlen Hbig.
  rewrite !readLimited_answer. unfold Fs.lookup. rewrite !lookup_insert_eq.
  cbv zeta. rewrite <-Hlen. by rewrite (proj2 (Z.ltb_lt _ _) Hbig).
Qed.

Example readLimited_examples :
  let fs : Fs.t :=
    {[ "/srv/data/small.md" := Fs.File "hello";
       "/srv/data/locked.md" := Fs.Unreadable 5 (FsError "EACCES") ]} in
  FileStore.readLimited "/srv" "data/small.md" 1048576 fs
  = MkRead true (Some 5) (Some "hello")
  ∧ FileStore.readLimited "/srv" "data/small.md" 4 fs
    = MkRead true (Some 5)
        (Some "[File too large: 0.00MB. Contents not loaded.]")
  ∧ FileStore.readLimited "/srv" "data/absent.md" 1048576 fs
    = MkRead false None None
  ∧ FileStore.readLimited "/srv" "data/locked.md" 1048576 fs
    = MkRead false None (Some "[Error reading file: Error: EACCES]").
Proof. vm_compute. repeat split. Qed.

(** ** The relational store *)

Section ListFacts.

Context {A : Type}.

Lemma filter_ext_in (P Q : A → Prop)
    `{!∀ x, Decision (P x), !∀ x, Decision (Q x)} (l : list A) :
  (∀ x, x ∈ l → (P x ↔ Q x)) → filter P l = filter Q l.
Proof.
  induction l as [|a l IH]; intros Hiff; [done|].
  rewrite !filter_cons.
  rewrite IH by (intros x Hx; apply Hiff; by right).
  apply decide_ext, Hiff. by left.
Qed.

Lemma filter_all (P : A → Prop) `{!∀ x, Decision (P x)} (l : list A) :
  (∀ x, x ∈ l → P x) → filter P l = l.
Proof.
  induction l as [|a l IH]; intros Hall; [done|].
  rewrite filter_cons_True by (apply Hall; by left).
  rewrite IH; [done|]. intros x Hx. apply Hall. by right.
Qed.

Lemma filter_none (P : A → Prop) `{!∀ x, Decision (P x)} (l : list A) :
  (∀ x, x ∈ l → ¬ P x) → filter P l = [].
Proof.
  induction l as [|a l IH]; intros Hall; [done|].
  rewrite filter_cons_False by (apply Hall; by left).
  apply IH. intros x Hx. apply Hall. by right.
Qed.

Lemma head_filter_Some (P : A → Prop) `{!∀ x, Decision (P x)} (l : list A) x :
  head (filter P l) = Some x → P x ∧ x ∈ l.
Proof.
  intros Hh. apply (list_elem_of_filter P).
  destruct (filter P l); [done|]. simplify_eq/=. by left.
Qed.

End ListFacts.

Section StoreFacts.

Implicit Types db : Database.
Implicit Types mid : Z.

(** *** Deleting keyword rows *)

Lemma delete_keyword_fold_keywords vs db :
  keywords (foldl (λ d old, Stmt.delete_keyword old d) db vs)
  = filter (λ k, k ∉ vs) (keywords db).
Proof.
  revert db. induction vs as [|v vs IH]; intros db; simpl.
  - symmetry. apply filter_all. intros k _. apply not_elem_of_nil.
  - rewrite IH. simpl. rewrite list_filter_filter.
    apply list_filter_iff. intros k. rewrite not_elem_of_cons. tauto.
Qed.

Lemma delete_keyword_fold_frame vs db :
  let db' := foldl (λ d old, Stmt.delete_keyword old d) db vs in
  memories db' = memories db ∧ foreign_keys db' = foreign_keys db
  ∧ sqlite_sequence db' = sqlite_sequence db.
Proof.
  revert db. induction vs as [|v vs IH]; intros db; simpl; [done|].
  destruct (IH (Stmt.delete_keyword v db)) as (-> & -> & ->). done.
Qed.

Lemma delete_keywords_where_keywords mid db :
  keywords (Stmt.delete_keywords_where mid db)
  = filter (λ k, Keyword.memory_id k ≠ mid) (keywords db).
Proof.
  unfold Stmt.delete_keywords_where. rewrite delete_keyword_fold_keywords.
  apply filter_ext_in. intros k Hk. rewrite list_elem_of_filter. tauto.
Qed.

Lemma delete_keywords_where_frame mid db :
  memories (Stmt.delete_keywords_where mid db) = memories db
  ∧ foreign_keys (Stmt.delete_keywords_where mid db) = foreign_keys db
  ∧ sqlite_sequence (Stmt.delete_keywords_where mid db) = sqlite_sequence db.
Proof. apply delete_keyword_fold_frame. Qed.

Lemma keywords_of_cleared mid db :
  Sql.keywords_of mid (Stmt.delete_keywords_where mid db) = [].
Proof.
  unfold Sql.keywords_of. rewrite delete_keywords_where_keywords.
  rewrite list_filter_filter, filter_none; [done|]. intros k _ [? ?]. done.
Qed.

Lemma keywords_of_kept mid j db :
  j ≠ mid →
  Sql.keywords_of j (Stmt.delete_keywords_where mid db) = Sql.keywords_of j db.
Proof.
  intros Hj. unfold Sql.keywords_of. rewrite delete_keywords_where_keywords.
  rewrite list_filter_filter. f_equal. apply list_filter_iff.
  intros k. split; [tauto | intros ->; done].
Qed.

(** *** Inserting keyword rows *)

Lemma insert_keyword_Ok mid k db db' :
  Stmt.insert_keyword mid k db = Ok db' →
  memories db' = memories db ∧ foreign_keys db' = foreign_keys db
  ∧ sqlite_sequence db' = sqlite_sequence db
  ∧ keywords db' = keywords db ++ [Keyword.Build mid k].
Proof.
  unfold Stmt.insert_keyword. case_decide; [done|].
  destruct (_ && _); [done|]. by intros [= <-].
Qed.

Lemma insert_each_Ok mid ks db db' :
  MemoryRepository.insert_each mid ks db = Ok db' →
  memories db' = memories db ∧ foreign_keys db' = foreign_keys db
  ∧ sqlite_sequence db' = sqlite_sequence db
  ∧ keywords db' = keywords db ++ (Keyword.Build mid <$> ks).
Proof.
  revert db. induction ks as [|k ks IH]; intros db; simpl.
  - intros [= <-]. by rewrite app_nil_r.
  - destruct (Stmt.insert_keyword mid k db) as [db1|e] eqn:H1; [|done].
    simpl. intros (-> & -> & -> & ->)%IH.
    apply insert_keyword_Ok in H1 as (-> & -> & -> & ->).
    by rewrite <-app_assoc.
Qed.

(** *** Updating a memory row *)

Lemma update_memory_fold_frame vs s now db :
  let db' := foldl (λ d old, Stmt.update_memory old s now d) db vs in
  keywords db' = keywords db ∧ foreign_keys db' = foreign_keys db
  ∧ sqlite_sequence db' = sqlite_sequence db.
Proof.
  revert db. induction vs as [|v vs IH]; intros db; simpl; [done|].
  destruct (IH (Stmt.update_memory v s now db)) as (-> & -> & ->). done.
Qed.

Lemma memory_by_id_update_memory mid v s now db :
  Memory.id v = mid → is_Some (Sql.memory_by_id mid db) →
  Sql.memory_by_id mid (Stmt.update_memory v s now db)
  = Some (Memory.Build mid (Memory.file_path v) s now).
Proof.
  intros <- [m Hm]. unfold Sql.memory_by_id in *. simpl.
  induction (memories db) as [|a l IH]; [done|].
  rewrite fmap_cons. cbn beta. rewrite filter_cons in Hm.
  destruct (decide (Memory.id a = Memory.id v)) as [Ha|Ha].
  - by rewrite filter_cons_True.
  - rewrite filter_cons_False by done. auto.
Qed.

Lemma memory_by_id_update_memory_ne mid v s now db :
  Memory.id v ≠ mid →
  Sql.memory_by_id mid (Stmt.update_memory v s now db) = Sql.memory_by_id mid db.
Proof.
  intros Hv. unfold Sql.memory_by_id. simpl. f_equal.
  induction (memories db) as [|a l IH]; [done|].
  rewrite fmap_cons. cbn beta. rewrite !filter_cons.
  destruct (decide (Memory.id a = Memory.id v)) as [Ha|Ha]; simpl.
  - rewrite decide_False by congruence.
    rewrite decide_False by congruence. done.
  - rewrite IH. done.
Qed.

Lemma memory_by_id_update_fold mid vs s now db :
  vs ≠ [] → Forall (λ v, Memory.id v = mid) vs →
  is_Some (Sql.memory_by_id mid db) →
  ∃ fp, Sql.memory_by_id mid
          (foldl (λ d old, Stmt.update_memory old s now d) db vs)
        = Some (Memory.Build mid fp s now).
Proof.
  revert db. induction vs as [|v vs IH]; intros db Hne Hall Hsome; [done|].
  apply Forall_cons in Hall as [Hv Hall]. simpl.
  pose proof (memory_by_id_update_memory mid v s now db Hv Hsome) as H1.
  destruct vs as [|v' vs]; [by eexists|].
  apply IH; [done | done | by rewrite H1].
Qed.

Lemma update_memories_where_created_at mid s now db :
  is_Some (Sql.memory_by_id mid db) →
  ∃ fp, Sql.memory_by_id mid (Stmt.update_memories_where mid s now db)
        = Some (Memory.Build mid fp s now).
Proof.
  intros Hsome. apply memory_by_id_update_fold; [| |done].
  - destruct Hsome as [m Hm]. unfold Sql.memory_by_id in Hm.
    by destruct (filter _ _).
  - apply Forall_forall. intros v Hv%list_elem_of_filter. apply Hv.
Qed.

(** *** Deleting a memory row *)

Lemma delete_memory_fold mid vs db :
  foreign_keys db = true → vs ≠ [] → Forall (λ v, Memory.id v = mid) vs →
  let db' := foldl (λ d old, Stmt.delete_memory old d) db vs in
  memories db' = filter (λ m, Memory.id m ≠ mid) (memories db)
  ∧ keywords db' = filter (λ k, Keyword.memory_id k ≠ mid) (keywords db)
  ∧ foreign_keys db' = true.
Proof.
  revert db. induction vs as [|v vs IH]; intros db Hfk Hne Hall; [done|].
  apply Forall_cons in Hall as [<- Hall]. simpl.
  set (db1 := Stmt.delete_memory v db).
  assert (H1 : memories db1 = filter (λ m, Memory.id m ≠ Memory.id v) (memories db)
               ∧ keywords db1
                 = filter (λ k, Keyword.memory_id k ≠ Memory.id v) (keywords db)
               ∧ foreign_keys db1 = true).
  { unfold db1, Stmt.delete_memory. simpl. rewrite Hfk.
    rewrite delete_keywords_where_keywords.
    destruct (delete_keywords_where_frame (Memory.id v)
                (set_memories (filter (λ m, Memory.id m ≠ Memory.id v)
                                 (memories db)) db)) as (-> & -> & _).
    done. }
  destruct H1 as (Hm & Hk & Hfk1).
  destruct vs as [|v' vs]; [done|].
  destruct (IH db1 Hfk1 ltac:(done) Hall) as (-> & -> & ->).
  rewrite Hm, Hk. repeat split.
  - apply list_filter_filter_l. tauto.
  - apply list_filter_filter_l. tauto.
Qed.

End StoreFacts.

(** ** The repository *)

Section RepositoryFacts.

Implicit Types db : Database.

Lemma summary_step_frame id summary now db :
  keywords (summary_step id summary now db) = keywords db
  ∧ foreign_keys (summary_step id summary now db) = foreign_keys db.
Proof.
  unfold summary_step. destruct summary as [s|]; [|done].
  destruct (Js.truthy s); [|done].
  unfold Stmt.update_memories_where.
  destruct (update_memory_fold_frame
              (filter (λ m, Memory.id m = id) (memories db)) s now db)
    as (-> & -> & _). done.
Qed.

Lemma summary_step_exists id summary now db :
  is_Some (Sql.memory_by_id id db) →
  is_Some (Sql.memory_by_id id (summary_step id summary now db)).
Proof.
  intros Hsome. unfold summary_step. destruct summary as [s|]; [|done].
  destruct (Js.truthy s); [|done].
  destruct (update_memories_where_created_at id s now db Hsome) as [fp ->].
  by eexists.
Qed.

Lemma memory_by_id_delete_keywords id mid db :
  Sql.memory_by_id id (Stmt.delete_keywords_where mid db) = Sql.memory_by_id id db.
Proof.
  unfold Sql.memory_by_id.
  by destruct (delete_keywords_where_frame mid db) as (-> & _).
Qed.

Lemma update_keywords_empty id summary now db :
  is_Some (Sql.memory_by_id id db) →
  MemoryRepository.update id summary (Some []) now db
  = (Stmt.delete_keywords_where id (summary_step id summary now db), Ok true).
Proof.
  intros Hsome. unfold MemoryRepository.update, MemoryRepository.transaction.
  fold (summary_step id summary now db). simpl.
  rewrite bool_decide_true; [done|].
  rewrite memory_by_id_delete_keywords.
  destruct (summary_step_exists id summary now db Hsome) as [m ->]. done.
Qed.

Lemma update_keywords_omitted id summary now db :
  is_Some (Sql.memory_by_id id db) →
  MemoryRepository.update id summary None now db
  = (summary_step id summary now db, Ok true).
Proof.
  intros Hsome. unfold MemoryRepository.update, MemoryRepository.transaction.
  fold (summary_step id summary now db). simpl.
  rewrite bool_decide_true; [done|].
  destruct (summary_step_exists id summary now db Hsome) as [m ->]. done.
Qed.

Lemma update_memories id summary keywords now db db' r :
  MemoryRepository.update id summary keywords now db = (db', Ok r) →
  memories db' = memories (summary_step id summary now db).
Proof.
  unfold MemoryRepository.update, MemoryRepository.transaction.
  fold (summary_step id summary now db).
  destruct keywords as [ks|]; simpl.
  - case_bool_decide.
    + destruct (MemoryRepository.insert_each _ _ _) as [db2|e] eqn:Hins;
        simpl; [|done].
      intros [= <- _]. apply insert_each_Ok in Hins as (-> & _).
      by destruct (delete_keywords_where_frame id
                     (summary_step id summary now db)) as (-> & _).
    + simpl. intros [= <- _].
      by destruct (delete_keywords_where_frame id
                     (summary_step id summary now db)) as (-> & _).
  - by intros [= <- _].
Qed.

Lemma get_Some id db :
  is_Some (MemoryRepository.get id db) ↔ is_Some (Sql.memory_by_id id db).
Proof. unfold MemoryRepository.get. by rewrite fmap_is_Some. Qed.

Lemma next_id_fresh db m : m ∈ memories db → Memory.id m < Stmt.next_id db.
Proof.
  unfold Stmt.next_id. intros Hm.
  enough (Memory.id m ≤ foldr Z.max 0 (Memory.id <$> memories db)) by lia.
  induction (memories db) as [|a l IH]; [by apply elem_of_nil in Hm|].
  rewrite fmap_cons. cbn [foldr].
  apply elem_of_cons in Hm as [->|Hm]; [lia|].
  specialize (IH Hm). lia.
Qed.

Lemma insert_row fp s ks now db db' i :
  MemoryRepository.insert fp s ks now db = (db', Ok i) →
  i = Stmt.next_id db
  ∧ memories db' = memories db ++ [Memory.Build i fp s now]
  ∧ keywords db' = keywords db ++ (Keyword.Build i <$> ks)
  ∧ Sql.memory_by_id i db' = Some (Memory.Build i fp s now).
Proof.
  unfold MemoryRepository.insert, MemoryRepository.transaction, Stmt.insert_memory.
  case_decide as Hfp; [done|]. simpl.
  set (i0 := Stmt.next_id db). set (new := Memory.Build i0 fp s now).
  set (db1 := Trigger.memories_ai new _).
  assert (Hby : ∀ ms, ms = memories db ++ [new] →
                      head (filter (λ m, Memory.id m = i0) ms) = Some new).
  { intros ms ->. rewrite filter_app, filter_none.
    - simpl. by rewrite filter_cons_True.
    - intros m Hm%next_id_fresh. fold i0 in Hm. lia. }
  case_bool_decide as Hks.
  - destruct (MemoryRepository.insert_each i0 ks db1) as [db2|e] eqn:Hins;
      simpl; [|done].
    intros [= <- <-]. apply insert_each_Ok in Hins as (Hm & _ & _ & Hk).
    unfold Sql.memory_by_id. rewrite Hm, Hk. auto.
  - simpl. intros [= <- <-]. rewrite Hks.
    unfold Sql.memory_by_id. simpl. rewrite app_nil_r. auto.
Qed.

End RepositoryFacts.

(** ** The tool handlers: update *)

Section UpdateFacts.

Import AgentMemoryServer.

Lemma UpdateMemorySchema_Ok a :
  is_ok (Schemas.UpdateMemorySchema a) = true →
  Schemas.UpdateMemorySchema a = Ok a.
Proof.
  unfold Schemas.UpdateMemorySchema, Schemas.check.
  destruct (bool_decide (0 < upd_id a)); simpl; [|done].
  destruct (from_option _ true (upd_content a)); simpl; [|done].
  destruct (from_option Schemas.summary_ok true (upd_summary a)); simpl; [|done].
  destruct (from_option Schemas.keywords_ok true (upd_keywords a)); simpl; [|done].
  destruct (_ || _); simpl; done.
Qed.

(** What [updateMemory] does to the database when the memory exists and the
    repository accepts the update. *)
Lemma updateMemory_db a now srv db' :
  Schemas.UpdateMemorySchema a = Ok a →
  is_Some (Sql.memory_by_id (upd_id a) (db srv)) →
  MemoryRepository.update (upd_id a) (upd_summary a)
    (normalize_keywords <$> upd_keywords a) now (db srv) = (db', Ok true) →
  ∃ srv' reply,
    updateMemory a now srv = (srv', Ok reply)
    ∧ db srv' = db' ∧ reply_id reply = upd_id a.
Proof.
  intros Hschema Hsome Hupd. unfold updateMemory. rewrite Hschema.
  destruct (MemoryRepository.get (upd_id a) (db srv)) as [existing|] eqn:Hget.
  2:{ apply get_Some in Hsome. rewrite Hget in Hsome. by destruct Hsome. }
  set (srv1 := match upd_content a with Some _ => _ | None => _ end).
  assert (Hdb1 : db srv1 = db srv).
  { unfold srv1. destruct (upd_content a) as [c|]; [|done].
    by destruct (Js.truthy c). }
  rewrite Hdb1, Hupd.
  assert (Hafter : is_Some (MemoryRepository.get (upd_id a) db')).
  { apply get_Some. unfold Sql.memory_by_id.
    rewrite (update_memories _ _ _ _ _ _ _ Hupd).
    by apply summary_step_exists. }
  destruct Hafter as [updated ->]. by eexists _, _.
Qed.

(** C6. For a stored memory, [update_memory] with [keywords: []] leaves no
    keyword row of that memory and keeps the rows of every other memory,
    and [update_memory] without [keywords] leaves the table of keywords as
    it was. *)
Theorem update_keywords_empty_or_omitted srv id content summary now :
  is_Some (Sql.memory_by_id id (db srv)) →
  let empty := MkUpdateArgs id content summary (Some []) in
  let omitted := MkUpdateArgs id content summary None in
  (is_ok (Schemas.UpdateMemorySchema empty) = true →
   ∃ srv' reply,
     updateMemory empty now srv = (srv', Ok reply) ∧ reply_id reply = id
     ∧ MemoryRepository.update id summary (Some []) now (db srv)
       = (db srv', Ok true)
     ∧ Sql.keywords_of id (db srv') = []
     ∧ ∀ j, j ≠ id → Sql.keywords_of j (db srv') = Sql.keywords_of j (db srv))
  ∧ (is_ok (Schemas.UpdateMemorySchema omitted) = true →
     ∃ srv' reply,
       updateMemory omitted now srv = (srv', Ok reply) ∧ reply_id reply = id
       ∧ MemoryRepository.update id summary None now (db srv)
         = (db srv', Ok true)
       ∧ keywords (db srv') = keywords (db srv)).
Proof.
  intros Hsome empty omitted. split.
  - intros Hok%UpdateMemorySchema_Ok.
    pose proof (update_keywords_empty id summary now (db srv) Hsome) as Hupd.
    destruct (updateMemory_db empty now srv _ Hok Hsome Hupd)
      as (srv' & reply & Hrun & Hdb & Hid).
    exists srv', reply. rewrite Hdb. repeat split; try done.
    + apply keywords_of_cleared.
    + intros j Hj. rewrite keywords_of_kept by done.
      unfold Sql.keywords_of.
      by destruct (summary_step_frame id summary now (db srv)) as [-> _].
  - intros Hok%UpdateMemorySchema_Ok.
    pose proof (update_keywords_omitted id summary now (db srv) Hsome) as Hupd.
    destruct (updateMemory_db omitted now srv _ Hok Hsome Hupd)
      as (srv' & reply & Hrun & Hdb & Hid).
    exists srv', reply. rewrite Hdb. repeat split; try done.
    by destruct (summary_step_frame id summary now (db srv)) as [-> _].
Qed.

End UpdateFacts.

Lemma update_keywords_empty_or_omitted_witness :
  Sql.keywords_of 1 (AgentMemoryServer.db sample_server) = ["k1"; "k2"]
  ∧ (∃ srv' reply,
       AgentMemoryServer.updateMemory (MkUpdateArgs 1 None None (Some [])) 200
         sample_server = (srv', Ok reply)
       ∧ Sql.keywords_of 1 (AgentMemoryServer.db srv') = [])
  ∧ (∃ srv' reply,
       AgentMemoryServer.updateMemory
         (MkUpdateArgs 1 None (Some "Beta note") None) 200 sample_server
       = (srv', Ok reply)
       ∧ Sql.keywords_of 1 (AgentMemoryServer.db srv') = ["k1"; "k2"]).
Proof.
  assert (Hsome : is_Some (Sql.memory_by_id 1 (AgentMemoryServer.db sample_server)))
    by (vm_compute; eauto).
  split; [by vm_compute|].
  split.
  - destruct (update_keywords_empty_or_omitted sample_server 1 None None 200 Hsome)
      as [Hempty _].
    destruct Hempty as (srv' & reply & Hrun & _ & _ & Hkw & _); [by vm_compute|].
    by exists srv', reply.
  - destruct (update_keywords_empty_or_omitted sample_server 1 None
                (Some "Beta note") 200 Hsome) as [_ Homitted].
    destruct Homitted as (srv' & reply & Hrun & _ & _ & Hkw); [by vm_compute|].
    exists srv', reply. split; [done|]. unfold Sql.keywords_of. by rewrite Hkw.
Defined.

(** ** Creation time *)

Section CreatedAt.

Implicit Types db : Database.

(** C7 (as amended). [created_at] is the time of the insert, and an update
    sets it to the time of the update exactly when it is given a non-empty
    summary; an update of the keywords alone leaves it as it was. *)
Theorem created_at_set_by_insert_and_summary db :
  (∀ fp s ks now db' i,
     MemoryRepository.insert fp s ks now db = (db', Ok i) →
     Memory.created_at <$> Sql.memory_by_id i db' = Some now)
  ∧ (∀ id summary keywords now db' r,
       is_Some (Sql.memory_by_id id db) →
       MemoryRepository.update id summary keywords now db = (db', Ok r) →
       Memory.created_at <$> Sql.memory_by_id id db'
       = if from_option Js.truthy false summary then Some now
         else Memory.created_at <$> Sql.memory_by_id id db).
Proof.
  split.
  - intros fp s ks now db' i (_ & _ & _ & ->)%insert_row. done.
  - intros id summary keywords now db' r Hsome Hupd.
    unfold Sql.memory_by_id at 1. rewrite (update_memories _ _ _ _ _ _ _ Hupd).
    fold (Sql.memory_by_id id (summary_step id summary now db)).
    unfold summary_step. destruct summary as [s|]; simpl; [|done].
    destruct (Js.truthy s); [|done].
    by destruct (update_memories_where_created_at id s now db Hsome) as [fp ->].
Qed.

End CreatedAt.

Lemma created_at_set_by_insert_and_summary_witness :
  let db := AgentMemoryServer.db sample_server in
  Memory.created_at <$> Sql.memory_by_id 1 db = Some 100
  ∧ Memory.created_at
      <$> Sql.memory_by_id 1
            (MemoryRepository.update 1 (Some "Beta note") None 200 db).1
    = Some 200
  ∧ Memory.created_at
      <$> Sql.memory_by_id 1
            (MemoryRepository.update 1 None (Some ["k3"]) 200 db).1
    = Some 100.
Proof.
  cbv zeta.
  pose proof (created_at_set_by_insert_and_summary
                (AgentMemoryServer.db sample_server)) as [_ Hupd].
  assert (Hsome : is_Some (Sql.memory_by_id 1 (AgentMemoryServer.db sample_server)))
    by (vm_compute; eauto).
  split; [by vm_compute|]. split.
  - by rewrite (Hupd 1 (Some "Beta note") None 200 _ true Hsome)
      by (by vm_compute).
  - rewrite (Hupd 1 None (Some ["k3"]) 200 _ true Hsome) by (by vm_compute).
    by vm_compute.
Defined.

(** C7, against the claim as it was stated: an update of the keywords alone,
    made at time 200, leaves the [created_at] of time 100. *)
Lemma keyword_update_keeps_created_at :
  ∃ srv' reply,
    AgentMemoryServer.updateMemory (MkUpdateArgs 1 None None (Some ["k3"])) 200
      sample_server = (srv', Ok reply)
    ∧ Sql.keywords_of 1 (AgentMemoryServer.db sample_server) = ["k1"; "k2"]
    ∧ Sql.keywords_of 1 (AgentMemoryServer.db srv') = ["k3"]
    ∧ Memory.created_at
        <$> Sql.memory_by_id 1 (AgentMemoryServer.db sample_server) = Some 100
    ∧ Memory.created_at <$> Sql.memory_by_id 1 (AgentMemoryServer.db srv')
      = Some 100
    ∧ Memory.created_at <$> Sql.memory_by_id 1 (AgentMemoryServer.db srv')
      ≠ Some 200.
Proof. eexists _, _. vm_compute. repeat split; discriminate. Qed.

(** ** The full-text index *)

(** The command the triggers issue, with no column value, removes
    nothing. *)
Lemma fts_delete_without_values rid db :
  Sql.fts_delete rid None None db = db.
Proof. by destruct db. Qed.

Lemma index_after_insert : index_reflects_store (AgentMemoryServer.db sample_server).
Proof.
  intros e. split.
  - intros He. eexists. split; [by left|].
    cases_of_list He; subst e; compute_done.
  - intros (m & Hm & He). cases_of_list Hm. subst m.
    cases_of_list He; subst e; compute_done.
Qed.

(** *** The index only grows *)

Section IndexGrows.

Implicit Types db : Database.

(** [grows db db']: the index of [db'] is the index of [db] and more. *)
Local Abbreviation grows db db' := (memories_fts db `prefix_of` memories_fts db').

Lemma reindex_grows mid db : grows db (Trigger.reindex mid db).
Proof. unfold Trigger.reindex. rewrite fts_delete_without_values. by eexists. Qed.

Lemma fold_grows {A} (f : Database → A → Database) (l : list A) db :
  (∀ d a, grows d (f d a)) → grows db (foldl f db l).
Proof.
  intros Hf. revert db. induction l as [|a l IH]; intros db; simpl; [done|].
  etrans; [apply Hf | apply IH].
Qed.

Lemma delete_keywords_where_grows mid db :
  grows db (Stmt.delete_keywords_where mid db).
Proof.
  unfold Stmt.delete_keywords_where. apply fold_grows.
  intros d old. apply (reindex_grows _ (set_keywords _ d)).
Qed.

Lemma insert_keyword_grows mid k db db' :
  Stmt.insert_keyword mid k db = Ok db' → grows db db'.
Proof.
  unfold Stmt.insert_keyword. case_decide; [done|].
  destruct (_ && _); [done|]. intros [= <-].
  apply (reindex_grows _ (set_keywords _ db)).
Qed.

Lemma insert_each_grows mid ks db db' :
  MemoryRepository.insert_each mid ks db = Ok db' → grows db db'.
Proof.
  revert db. induction ks as [|k ks IH]; intros db; simpl.
  - by intros [= <-].
  - destruct (Stmt.insert_keyword mid k db) as [db1|e] eqn:H1; [|done].
    simpl. intros H2. etrans; [by eapply insert_keyword_grows | by apply IH].
Qed.

Lemma update_memories_where_grows mid s now db :
  grows db (Stmt.update_memories_where mid s now db).
Proof.
  unfold Stmt.update_memories_where. apply fold_grows.
  intros d old. unfold Stmt.update_memory, Trigger.memories_au.
  rewrite fts_delete_without_values. by eexists.
Qed.

Lemma delete_memories_where_grows mid db :
  grows db (Stmt.delete_memories_where mid db).1.
Proof.
  unfold Stmt.delete_memories_where. simpl. apply fold_grows.
  intros d old. unfold Stmt.delete_memory, Trigger.memories_ad.
  rewrite fts_delete_without_values.
  destruct (foreign_keys _); [|done].
  apply (delete_keywords_where_grows _ (set_memories _ d)).
Qed.

(** No operation of the repository takes an entry out of the index. *)
Lemma index_only_grows db :
  (∀ fp s ks now, grows db (MemoryRepository.insert fp s ks now db).1)
  ∧ (∀ id summary keywords now,
       grows db (MemoryRepository.update id summary keywords now db).1)
  ∧ (∀ id, grows db (MemoryRepository.delete id db).1).
Proof.
  split; [|split].
  - intros fp s ks now.
    unfold MemoryRepository.insert, MemoryRepository.transaction,
      Stmt.insert_memory.
    case_decide; [done|]. simpl.
    set (db1 := Trigger.memories_ai _ _).
    assert (H1 : grows db db1) by by eexists.
    case_bool_decide; simpl; [|done].
    destruct (MemoryRepository.insert_each _ _ _) as [db2|e] eqn:Hins;
      simpl; [|done].
    etrans; [done | by eapply insert_each_grows].
  - intros id summary keywords now.
    unfold MemoryRepository.update, MemoryRepository.transaction.
    fold (summary_step id summary now db).
    assert (H1 : grows db (summary_step id summary now db)).
    { unfold summary_step. destruct summary as [s|]; [|done].
      destruct (Js.truthy s); [|done]. apply update_memories_where_grows. }
    destruct keywords as [ks|]; simpl; [|done].
    pose proof (delete_keywords_where_grows id (summary_step id summary now db))
      as H2.
    case_bool_decide; simpl; [|by etrans].
    destruct (MemoryRepository.insert_each _ _ _) as [db2|e] eqn:Hins;
      simpl; [|done].
    etrans; [done|]. etrans; [done | by eapply insert_each_grows].
  - intros id. unfold MemoryRepository.delete.
    pose proof (delete_memories_where_grows id db) as H.
    by destruct (Stmt.delete_memories_where id db).
Qed.

End IndexGrows.

(** C2, at an input where the code departs from the claim. After the summary
    and the keywords of memory 1 are replaced, the index still holds the
    tokens of the old summary and of the old keywords. *)
Theorem index_stale_after_update :
  let srv' :=
    (AgentMemoryServer.updateMemory
       (MkUpdateArgs 1 None (Some "Beta note") (Some ["k3"])) 200
       sample_server).1 in
  let db' := AgentMemoryServer.db srv' in
  Sql.summary_of 1 db' = Some "Beta note"
  ∧ Sql.keywords_of 1 db' = ["k3"]
  ∧ Fts.Build 1 Fts.Summary "beta" ∈ memories_fts db'
  ∧ Fts.Build 1 Fts.Keywords "k3" ∈ memories_fts db'
  ∧ Fts.Build 1 Fts.Summary "alpha" ∈ memories_fts db'
  ∧ Fts.Build 1 Fts.Keywords "k1" ∈ memories_fts db'
  ∧ ¬ index_reflects_store db'.
Proof.
  cbv zeta. split; [by vm_compute|]. split; [by vm_compute|].
  assert (Halpha : Fts.Build 1 Fts.Summary "alpha"
                     ∈ memories_fts
                         (AgentMemoryServer.db
                            (AgentMemoryServer.updateMemory
                               (MkUpdateArgs 1 None (Some "Beta note")
                                  (Some ["k3"])) 200 sample_server).1)).
  { compute_done. }
  repeat split; try compute_done.
  intros Hreflects. apply Hreflects in Halpha as (m & Hm & He).
  cases_of_list Hm. subst m. cases_of_list He; discriminate.
Qed.

(** ** Delete *)

Section DeleteFacts.

Implicit Types db : Database.

(** What [delete] does to the two tables when foreign keys are enforced. *)
Lemma delete_removes_rows id db :
  foreign_keys db = true →
  match Sql.memory_by_id id db with
  | Some _ =>
      ∃ db', MemoryRepository.delete id db = (db', true)
             ∧ memories db' = filter (λ m, Memory.id m ≠ id) (memories db)
             ∧ keywords db'
               = filter (λ k, Keyword.memory_id k ≠ id) (keywords db)
             ∧ foreign_keys db' = true
             ∧ Sql.memory_by_id id db' = None
             ∧ Sql.keywords_of id db' = []
             ∧ MemoryRepository.get id db' = None
  | None => MemoryRepository.delete id db = (db, false)
  end.
Proof.
  intros Hfk. unfold MemoryRepository.delete, Stmt.delete_memories_where,
    Sql.memory_by_id.
  destruct (filter (λ m, Memory.id m = id) (memories db)) as [|v vs] eqn:Hvs;
    simpl head; cbv iota beta; [done|].
  eexists. split; [done|].
  destruct (delete_memory_fold id (v :: vs) db Hfk ltac:(done))
    as (Hm & Hk & Hfk').
  { rewrite <-Hvs. apply Forall_forall. intros m Hm%list_elem_of_filter.
    apply Hm. }
  split; [done|]. split; [done|]. split; [done|].
  assert (Hnone : Sql.memory_by_id id
                    (foldl (λ d old, Stmt.delete_memory old d) db (v :: vs))
                  = None).
  { unfold Sql.memory_by_id. rewrite Hm, list_filter_filter, filter_none; [done|].
    intros m _ [? ?]. done. }
  split; [done|]. split.
  - unfold Sql.keywords_of. rewrite Hk, list_filter_filter, filter_none; [done|].
    intros k _ [? ?]. done.
  - unfold MemoryRepository.get. by rewrite Hnone.
Qed.

Lemma deleteMemory_keeps_files id srv :
  AgentMemoryServer.fileStore (AgentMemoryServer.deleteMemory id srv).1
  = AgentMemoryServer.fileStore srv.
Proof.
  unfold AgentMemoryServer.deleteMemory.
  destruct (Schemas.DeleteMemorySchema id); [|done].
  destruct (MemoryRepository.delete _ _) as [db' []]; done.
Qed.

End DeleteFacts.

(** C3, at an input where the code departs from the claim. Deleting memory 1
    answers [true], removes its row and its keyword rows and leaves its
    file readable, and [get] no longer finds it; the entries of its tokens
    stay in the full-text index. *)
Theorem delete_leaves_index_entries :
  let stored := "data/2025/01/02/alpha-note.md" in
  let deleted := AgentMemoryServer.deleteMemory 1 sample_server in
  let db' := AgentMemoryServer.db deleted.1 in
  AgentMemoryServer.getMemory 1 sample_server
  = Ok (MkGetReply 1 stored (Some "The body of the note") "Alpha note")
  ∧ MemoryRepository.delete 1 (AgentMemoryServer.db sample_server) = (db', true)
  ∧ deleted.2 = Ok ()
  ∧ memories db' = [] ∧ keywords db' = []
  ∧ MemoryRepository.get 1 db' = None
  ∧ AgentMemoryServer.getMemory 1 deleted.1
    = Err (AgentMemoryServer.not_found 1)
  ∧ FileStore.readLimited "/srv" stored FileStore.default_limitBytes
      (AgentMemoryServer.fileStore deleted.1)
    = MkRead true (Some 20) (Some "The body of the note")
  ∧ MemoryRepository.delete 1 db' = (db', false)
  ∧ filter (λ e, Fts.rowid e = 1) (memories_fts db')
    = [Fts.Build 1 Fts.Summary "alpha"; Fts.Build 1 Fts.Summary "note";
       Fts.Build 1 Fts.Summary "alpha"; Fts.Build 1 Fts.Summary "note";
       Fts.Build 1 Fts.Keywords "k1";
       Fts.Build 1 Fts.Summary "alpha"; Fts.Build 1 Fts.Summary "note";
       Fts.Build 1 Fts.Keywords "k1"; Fts.Build 1 Fts.Keywords "k2";
       Fts.Build 1 Fts.Keywords "k2"].
Proof. vm_compute. repeat split. Qed.

(** ** Get after insert *)

Section SplitJoin.

Lemma separator_not_at c s t :
  String.prefix ", " (String c s) = false →
  String.prefix ", " (String c (s +:+ ", " +:+ t)) = false.
Proof.
  rewrite !str_prefix_cons. case_bool_decide; [|done]. simpl.
  destruct s as [|d s].
  - intros _. by rewrite str_app_nil_l, str_app_cons, str_prefix_cons.
  - by rewrite str_app_cons, !str_prefix_cons, !str_prefix_nil.
Qed.

Lemma split_go_piece s cur t :
  separator_free s = true →
  Js.split_go ", " 0 cur (s +:+ ", " +:+ t)
  = (String.rev cur +:+ s) :: Js.split_go ", " 0 "" t.
Proof.
  revert cur. induction s as [|c s IH]; intros cur Hs.
  - rewrite str_app_nil_l, str_app_nil_r.
    change (", " +:+ t) with (String "," (String " " t)).
    cbn [Js.split_go]. by rewrite !str_prefix_cons, str_prefix_nil.
  - cbn [separator_free] in Hs. apply andb_prop in Hs as [Hc Hs].
    apply negb_true_iff in Hc.
    rewrite str_app_cons. cbn [Js.split_go].
    rewrite (separator_not_at c s t Hc), IH by done.
    by rewrite str_rev_cons, str_app_assoc.
Qed.

Lemma split_go_last s cur :
  separator_free s = true →
  Js.split_go ", " 0 cur s = [String.rev cur +:+ s].
Proof.
  revert cur. induction s as [|c s IH]; intros cur Hs.
  - by rewrite str_app_nil_r.
  - cbn [separator_free] in Hs. apply andb_prop in Hs as [Hc Hs].
    apply negb_true_iff in Hc.
    cbn [Js.split_go]. rewrite Hc, IH by done.
    by rewrite str_rev_cons, str_app_assoc.
Qed.

(** [l.join(', ').split(', ')] is [l] when no element holds the separator. *)
Lemma split_join l :
  l ≠ [] → Forall (λ s, separator_free s = true) l →
  Js.split ", " (Js.join ", " l) = l.
Proof.
  intros Hl Hall. unfold Js.split, Js.join.
  induction Hall as [|s l Hs Hall IH]; [done|].
  destruct l as [|s' l].
  - simpl. by rewrite split_go_last.
  - cbn [String.concat]. rewrite split_go_piece by done.
    rewrite str_app_nil_l. f_equal. by apply IH.
Qed.

Lemma join_truthy s l : s ≠ "" → Js.truthy (Js.join ", " (s :: l)) = true.
Proof.
  intros Hs. unfold Js.join. destruct s as [|c s]; [done|].
  destruct l; [done|]. cbn [String.concat]. by rewrite str_app_cons.
Qed.

End SplitJoin.

Section GetFacts.

Implicit Types db : Database.

Lemma memory_by_id_elem mid db :
  is_Some (Sql.memory_by_id mid db) → ∃ m, m ∈ memories db ∧ Memory.id m = mid.
Proof.
  intros [m Hm]. unfold Sql.memory_by_id in Hm.
  apply head_filter_Some in Hm as [? ?]. by exists m.
Qed.

(** No keyword row waits for the id the next memory gets. *)
Lemma keywords_of_next_id db :
  keywords_reference db → Sql.keywords_of (Stmt.next_id db) db = [].
Proof.
  intros Href. unfold Sql.keywords_of. rewrite filter_none; [done|].
  intros k Hk Hid. unfold keywords_reference in Href.
  rewrite Forall_forall in Href.
  destruct (memory_by_id_elem _ _ (Href k Hk)) as (m & Hm%next_id_fresh & Hmk).
  lia.
Qed.

(** [get] right after [insert]: the row that was stored, and the keywords
    that were stored when none of them is empty or holds the separator. *)
Lemma get_after_insert fp s ks now db db' i :
  keywords_reference db →
  MemoryRepository.insert fp s ks now db = (db', Ok i) →
  Sql.keywords_of i db' = ks
  ∧ row <$> MemoryRepository.get i db' = Some (Memory.Build i fp s now)
  ∧ (Forall (λ k, k ≠ "" ∧ separator_free k = true) ks →
     mem_keywords <$> MemoryRepository.get i db' = Some ks).
Proof.
  intros Href (-> & Hm & Hk & Hby)%insert_row.
  assert (Hks : Sql.keywords_of (Stmt.next_id db) db' = ks).
  { unfold Sql.keywords_of. rewrite Hk, filter_app, fmap_app.
    fold (Sql.keywords_of (Stmt.next_id db) db).
    rewrite keywords_of_next_id by done. simpl.
    rewrite filter_all by (by intros k (x & -> & _)%list_elem_of_fmap).
    rewrite <-list_fmap_compose. apply list_fmap_id. }
  split; [done|]. unfold MemoryRepository.get. rewrite Hby. simpl.
  split; [done|]. intros Hall. f_equal.
  unfold MemoryRepository.with_keywords. cbv zeta. cbn [mem_keywords Memory.id].
  rewrite Hks.
  destruct Hall as [|k ks [Hk1 Hk2] Hall]; [done|]. cbn [Sql.group_concat].
  rewrite join_truthy by done. apply split_join; [done|].
  constructor; [done|]. eapply Forall_impl; [exact Hall|]. by intros ? [_ ?].
Qed.

End GetFacts.

(** C4, at an input where the code departs from the claim. A keyword that
    holds a comma and a space is stored as one keyword and comes back from
    [get] as two. *)
Theorem get_splits_keyword_at_separator :
  let args := MkInsertArgs "The body" "Gamma note" (Some ["a, b"; "Foo"]) in
  let inserted :=
    AgentMemoryServer.insertMemory args (MkDate 2025 0 2) 100
      (AgentMemoryServer.create "./data" "/srv" ∅) in
  let db' := AgentMemoryServer.db inserted.1 in
  let stored := "data/2025/01/02/gamma-note.md" in
  Schemas.InsertMemorySchema args
  = Ok ("The body", "Gamma note", ["a, b"; "Foo"])
  ∧ inserted.2 = Ok (MkStoredReply 1 stored)
  ∧ AgentMemoryServer.normalize_keywords ["a, b"; "Foo"] = ["a, b"; "foo"]
  ∧ Sql.keywords_of 1 db' = ["a, b"; "foo"]
  ∧ MemoryRepository.get 1 db'
    = Some (MkMemoryWithKeywords (Memory.Build 1 stored "Gamma note" 100)
              (Some "a, b, foo") ["a"; "b"; "foo"]).
Proof. vm_compute. repeat split. Qed.

(** ** List *)

(** Whenever the page has a row, [listMemories] throws: the rows of
    [repo.list] carry [keywords] as an array, and the handler calls
    [split] on it. *)
Lemma listMemories_throws args limit offset srv :
  Schemas.ListMemoriesSchema args = Ok (limit, offset) →
  MemoryRepository.list limit offset (AgentMemoryServer.db srv) ≠ [] →
  AgentMemoryServer.listMemories args srv
  = Err (TypeError "m.keywords.split is not a function").
Proof.
  intros Hschema Hrows. unfold AgentMemoryServer.listMemories.
  rewrite Hschema. simpl.
  destruct (MemoryRepository.list limit offset _) as [|m ms]; done.
Qed.

(** An empty page is answered, with the pagination of the claim. *)
Lemma listMemories_empty_page args limit offset srv :
  Schemas.ListMemoriesSchema args = Ok (limit, offset) →
  MemoryRepository.list limit offset (AgentMemoryServer.db srv) = [] →
  AgentMemoryServer.listMemories args srv
  = Ok (MkListReply []
          (MkPagination (length (memories (AgentMemoryServer.db srv)))
             limit offset
             (bool_decide
                (offset + limit < length (memories (AgentMemoryServer.db srv)))%nat))).
Proof.
  intros Hschema Hrows. unfold AgentMemoryServer.listMemories.
  rewrite Hschema. simpl. by rewrite Hrows.
Qed.

(** C5, at an input where the code departs from the claim. Over three
    records the repository returns the pages the claim describes, most
    recent first, and [listMemories] throws on each of them; only the page
    past the last record is answered. *)
Theorem listMemories_three_records :
  let db := AgentMemoryServer.db three_records in
  let page offset :=
    AgentMemoryServer.listMemories (MkListArgs (Some 1) (Some offset))
      three_records in
  let thrown := Err (TypeError "m.keywords.split is not a function") in
  MemoryRepository.count db = 3%nat
  ∧ (Memory.summary ∘ row) <$> MemoryRepository.list 1 0 db = ["Third"]
  ∧ (Memory.summary ∘ row) <$> MemoryRepository.list 1 1 db = ["Second"]
  ∧ (Memory.summary ∘ row) <$> MemoryRepository.list 1 2 db = ["First"]
  ∧ mem_keywords <$> MemoryRepository.list 3 0 db = [["y"; "z"]; []; ["x"]]
  ∧ page 0 = thrown ∧ page 1 = thrown ∧ page 2 = thrown
  ∧ AgentMemoryServer.call_tool "list_memories" (page 0)
    = Err (McpInternalError
             "Error executing tool list_memories: TypeError: m.keywords.split is not a function")
  ∧ page 3 = Ok (MkListReply [] (MkPagination 3 1 3 false)).
Proof. vm_compute. repeat split. Qed.

(** ** Raw reads *)

(** [readFile] reads exactly when the resolved path, in lower case, starts
    with the resolved root, in lower case. *)
Lemma readFile_gate filePath srv :
  let base :=
    Path.resolve (AgentMemoryServer.cwd srv)
      (AgentMemoryServer.baseContentDir srv) +:+ "/" in
  let target := Path.resolve (AgentMemoryServer.cwd srv) filePath in
  AgentMemoryServer.readFile filePath srv
  = if Js.startsWith (Js.toLowerCase target) (Js.toLowerCase base)
    then
      let info :=
        FileStore.readLimited (AgentMemoryServer.cwd srv) target
          FileStore.default_limitBytes (AgentMemoryServer.fileStore srv) in
      Ok (MkReadFileReply filePath (file_contents info) (file_exists info))
    else Err (McpInvalidRequest "File path outside content directory").
Proof.
  cbv zeta. unfold AgentMemoryServer.readFile, Path.sep.
  by destruct (Js.startsWith _ _).
Qed.

(** C10, at an input where the code departs from the claim. With the root
    [/srv/data], the path [/srv/DATA/secret.md] resolves to itself, which
    does not start with [/srv/data/]; [readFile] reads it. *)
Theorem readFile_reads_outside_root :
  let srv :=
    AgentMemoryServer.create "/srv/data" "/srv"
      {[ "/srv/DATA/secret.md" := Fs.File "not a memory" ]} in
  let filePath := "/srv/DATA/secret.md" in
  let resolvedBase := Path.resolve "/srv" "/srv/data" +:+ Path.sep in
  let resolvedTarget := Path.resolve "/srv" filePath in
  resolvedBase = "/srv/data/"
  ∧ resolvedTarget = "/srv/DATA/secret.md"
  ∧ Js.startsWith resolvedTarget resolvedBase = false
  ∧ AgentMemoryServer.readFile filePath srv
    = Ok (MkReadFileReply filePath (Some "not a memory") true)
  ∧ AgentMemoryServer.readFile "/srv/data/../DATA/secret.md" srv
    = Ok (MkReadFileReply "/srv/data/../DATA/secret.md"
            (Some "not a memory") true)
  ∧ AgentMemoryServer.readFile "/srv/other/secret.md" srv
    = Err (McpInvalidRequest "File path outside content directory").
Proof. vm_compute. repeat split. Qed.

(** ** Ordering rows *)

Section OrderBy.

Context {A : Type} (le : A → A → bool) (R : relation A).

Hypothesis le_true : ∀ a b, le a b = true → R a b.
Hypothesis le_false : ∀ a b, le a b = false → R b a.
Hypothesis R_trans : ∀ a b c, R a b → R b c → R a c.

Lemma insert_by_Permutation x l : Sql.insert_by le x l ≡ₚ x :: l.
Proof.
  induction l as [|y l IH]; simpl; [done|].
  destruct (le x y); [done|].
  by rewrite IH, Permutation_swap.
Qed.

Lemma order_by_Permutation l : Sql.order_by le l ≡ₚ l.
Proof.
  induction l as [|x l IH]; simpl; [done|].
  by rewrite insert_by_Permutation, IH.
Qed.

Lemma insert_by_sorted x l :
  StronglySorted R l → StronglySorted R (Sql.insert_by le x l).
Proof.
  induction l as [|y l IH]; intros Hl; simpl.
  - repeat constructor.
  - apply StronglySorted_inv in Hl as [Hl Hy].
    destruct (le x y) eqn:Hxy.
    + apply le_true in Hxy. constructor; [by constructor|].
      constructor; [done|].
      eapply Forall_impl; [exact Hy|]. intros z Hz. by eapply R_trans.
    + constructor; [by apply IH|].
      rewrite insert_by_Permutation. constructor; [|done].
      by apply le_false.
Qed.

Lemma order_by_sorted l : StronglySorted R (Sql.order_by le l).
Proof.
  induction l as [|x l IH]; simpl; [constructor|]. by apply insert_by_sorted.
Qed.

End OrderBy.

(** [ORDER BY key ASC] on a rational key. *)
Lemma order_by_key_sorted {A} (key : A → Q) l :
  StronglySorted (λ a b, (key a <= key b)%Q)
    (Sql.order_by (λ a b, Qle_bool (key a) (key b)) l).
Proof.
  apply order_by_sorted.
  - intros a b. apply Qle_bool_iff.
  - intros a b Hab. apply Qlt_le_weak, Qnot_le_lt. intros Hle.
    apply Qle_bool_iff in Hle. congruence.
  - intros a b c. apply Qle_trans.
Qed.

Lemma StronglySorted_take {A} (R : A → A → Prop) n l :
  StronglySorted R l → StronglySorted R (take n l).
Proof.
  intros Hl. rewrite <-(take_drop n l) in Hl.
  by apply StronglySorted_app_1_l in Hl.
Qed.

Lemma StronglySorted_drop {A} (R : A → A → Prop) n l :
  StronglySorted R l → StronglySorted R (drop n l).
Proof.
  intros Hl. rewrite <-(take_drop n l) in Hl.
  by apply StronglySorted_app_1_r in Hl.
Qed.

(** [repo.list]: the page is cut out of the rows of [memories] in
    descending order of [created_at], and holds at most [limit] of them. *)
Lemma list_newest_first limit offset db :
  ∃ sorted,
    sorted ≡ₚ memories db
    ∧ StronglySorted (λ a b, Memory.created_at b ≤ Memory.created_at a) sorted
    ∧ row <$> MemoryRepository.list limit offset db
      = take limit (drop offset sorted)
    ∧ StronglySorted
        (λ a b, Memory.created_at (row b) ≤ Memory.created_at (row a))
        (MemoryRepository.list limit offset db)
    ∧ (length (MemoryRepository.list limit offset db) ≤ limit)%nat.
Proof.
  set (le := λ a b, Memory.created_at b <=? Memory.created_at a).
  assert (Hsorted : StronglySorted
                      (λ a b, Memory.created_at b ≤ Memory.created_at a)
                      (Sql.order_by le (memories db))).
  { apply order_by_sorted; unfold le.
    - intros a b. apply Z.leb_le.
    - intros a b Hab%Z.leb_gt. lia.
    - intros a b c. lia. }
  exists (Sql.order_by le (memories db)).
  split; [apply order_by_Permutation|]. split; [done|].
  unfold MemoryRepository.list. fold le.
  split.
  { rewrite <-list_fmap_compose. apply list_fmap_id. }
  split.
  - apply (StronglySorted_fmap _
             (λ a b, Memory.created_at b ≤ Memory.created_at a));
      [by intros a b|].
    by apply StronglySorted_take, StronglySorted_drop.
  - rewrite length_fmap, length_take. lia.
Qed.

(** ** Search *)

Section SearchFacts.

Variable fts5_match : list Fts.t → string → option (list Z).
Variable bm25 : list Fts.t → string → Q → Q → Z → Q.

Lemma keywords_of_lowercase db mid :
  keywords_lowercase db →
  Js.toLowerCase <$> Sql.keywords_of mid db = Sql.keywords_of mid db.
Proof.
  unfold keywords_lowercase, Sql.keywords_of. intros Hall.
  induction (keywords db) as [|k ks IH]; [done|].
  apply Forall_cons in Hall as [Hk Hall]. rewrite filter_cons.
  case_decide; [|by apply IH].
  rewrite !fmap_cons, Hk. f_equal. by apply IH.
Qed.

Lemma kwExpr_overlap boost db m :
  keywords_lowercase db →
  SearchService.kwExpr (bool_decide (boost ≠ [])) (Js.toLowerCase <$> boost) db m
  = boost_overlap boost (Sql.keywords_of (Memory.id m) db).
Proof.
  intros Hlow. unfold SearchService.kwExpr, boost_overlap.
  rewrite keywords_of_lowercase by done.
  case_bool_decide as Hb.
  - apply Permutation_length, NoDup_Permutation.
    + apply NoDup_remove_dups.
    + apply NoDup_filter, NoDup_remove_dups.
    + intros x. rewrite elem_of_remove_dups, !list_elem_of_filter,
        elem_of_remove_dups. tauto.
  - by rewrite Hb.
Qed.

Lemma final_of_without_boost lambda r :
  matched_keywords r = 0%nat →
  (final_score (SearchService.final_of lambda r) == bm25_score r)%Q.
Proof. intros H. unfold SearchService.final_of. simpl. rewrite H. simpl. ring. Qed.

(** C1. When FTS5 accepts the sanitized query, [run] ranks as follows. The
    candidates are the first [2 * limit] of the matching rows in ascending
    order of their weighted BM25 score; each carries the number of distinct
    boost keywords, compared without regard to case, among its stored
    keywords; the rows returned are these candidates with [final_score =
    bm25_score - lambda * matched_keywords], in ascending order of
    [final_score]; with no boost keyword the count is 0 and [final_score]
    is the BM25 score; and [searchMemories] keeps the first [limit] rows. *)
Theorem search_ranking params db matched :
  let q := SearchService.sanitize (query params) in
  let score (m : Memory.t) :=
    bm25 (memories_fts db) q (summaryWeight params) (keywordWeight params)
         (Memory.id m) in
  let overlap (m : Memory.t) :=
    boost_overlap (boostKeywords params) (Sql.keywords_of (Memory.id m) db) in
  fts5_match (memories_fts db) q = Some matched →
  keywords_lowercase db →
  ∃ pool candidates rows,
    SearchService.run fts5_match bm25 params db = Ok rows
    ∧ pool ≡ₚ (λ m, MkRanked m (score m) (overlap m))
               <$> SearchService.matching_rows matched db
    ∧ StronglySorted (λ a b, (bm25_score a <= bm25_score b)%Q) pool
    ∧ candidates = take (2 * limit params) pool
    ∧ (length candidates ≤ 2 * limit params)%nat
    ∧ ranked <$> rows ≡ₚ candidates
    ∧ Forall (λ r,
        (final_score r
         == bm25_score (ranked r)
            - lambda params * inject_Z (Z.of_nat (matched_keywords (ranked r))))%Q)
        rows
    ∧ StronglySorted (λ a b, (final_score a <= final_score b)%Q) rows
    ∧ (boostKeywords params = [] →
       Forall (λ r, matched_keywords (ranked r) = 0%nat
                    ∧ (final_score r == bm25_score (ranked r))%Q) rows)
    ∧ ∀ args srv,
        Schemas.SearchMemoriesSchema args = Ok params →
        AgentMemoryServer.db srv = db →
        ∃ reply,
          AgentMemoryServer.searchMemories fts5_match bm25 args srv = Ok reply
          ∧ total_found reply = length rows
          ∧ (length (results reply) ≤ limit params)%nat
          ∧ hit_summary <$> results reply
            = (Memory.summary ∘ memory ∘ ranked) <$> take (limit params) rows.
Proof.
  intros q score overlap Hmatch Hlow.
  set (rank := λ m, MkRanked m (score m) (overlap m)).
  set (pool := Sql.order_by (λ a b, Qle_bool (bm25_score a) (bm25_score b))
                 (rank <$> SearchService.matching_rows matched db)).
  set (candidates := take (2 * limit params) pool).
  set (rows := Sql.order_by (λ a b, Qle_bool (final_score a) (final_score b))
                 (SearchService.final_of (lambda params) <$> candidates)).
  assert (Hrun : SearchService.run fts5_match bm25 params db = Ok rows).
  { unfold SearchService.run. fold q. rewrite Hmatch. f_equal.
    unfold rows, candidates, pool. rewrite (Nat.mul_comm (limit params) 2).
    do 4 f_equal. apply list_fmap_ext. intros _ m _. unfold rank. f_equal.
    unfold overlap. by rewrite kwExpr_overlap. }
  assert (Hrows : rows ≡ₚ SearchService.final_of (lambda params) <$> candidates)
    by apply order_by_Permutation.
  exists pool, candidates, rows.
  split; [done|].
  split; [apply order_by_Permutation|].
  split; [apply (order_by_key_sorted bm25_score)|].
  split; [done|].
  split. { unfold candidates. rewrite length_take. lia. }
  split. { rewrite Hrows, <-list_fmap_compose. by rewrite list_fmap_id. }
  split.
  { rewrite Hrows. apply Forall_fmap, Forall_true. intros r. simpl. reflexivity. }
  split; [apply (order_by_key_sorted final_score)|].
  split.
  { intros Hboost. rewrite Hrows. apply Forall_fmap, Forall_forall.
    intros r Hr. simpl.
    assert (H0 : matched_keywords r = 0%nat).
    { unfold candidates in Hr. apply elem_of_take in Hr as (i & Hr & _).
      apply list_elem_of_lookup_2 in Hr. unfold pool in Hr.
      rewrite order_by_Permutation in Hr.
      apply list_elem_of_fmap in Hr as (m & -> & _). simpl.
      unfold overlap, boost_overlap. by rewrite Hboost. }
    split; [done|]. by apply final_of_without_boost. }
  intros args srv Hschema Hdb. unfold AgentMemoryServer.searchMemories.
  rewrite Hschema. simpl. rewrite Hdb, Hrun. simpl.
  eexists. split; [done|]. simpl. split; [done|].
  split. { rewrite length_fmap, length_take. lia. }
  by rewrite <-list_fmap_compose.
Qed.

End SearchFacts.

(** ** Stored keywords are in lower case *)

Section Lowercase.

Import AgentMemoryServer.

Lemma lower_char_idem c : Js.lower_char (Js.lower_char c) = Js.lower_char c.
Proof. by destruct c as [[] [] [] [] [] [] [] []]. Qed.

Lemma toLowerCase_idem s : Js.toLowerCase (Js.toLowerCase s) = Js.toLowerCase s.
Proof. induction s as [|c s IH]; simpl; [done|]. by rewrite lower_char_idem, IH. Qed.

Lemma Forall_uniq (P : string → Prop) l : Forall P l → Forall P (Js.uniq l).
Proof.
  induction 1 as [|x l Hx Hl IH]; simpl; [constructor|].
  constructor; [done|]. apply Forall_forall.
  intros y [_ Hy]%list_elem_of_filter. rewrite Forall_forall in IH. auto.
Qed.

Lemma normalize_keywords_lowercase ks :
  Forall (λ k, Js.toLowerCase k = k) (normalize_keywords ks).
Proof.
  unfold normalize_keywords. apply Forall_take, Forall_uniq, Forall_forall.
  intros k [_ (x & -> & _)%list_elem_of_fmap]%list_elem_of_filter.
  apply toLowerCase_idem.
Qed.

Lemma update_keywords id summary ks now db db' r :
  MemoryRepository.update id summary (Some ks) now db = (db', Ok r) →
  keywords db'
  = filter (λ k, Keyword.memory_id k ≠ id) (keywords db)
    ++ (Keyword.Build id <$> ks).
Proof.
  unfold MemoryRepository.update, MemoryRepository.transaction.
  fold (summary_step id summary now db). simpl.
  assert (Hdel : keywords (Stmt.delete_keywords_where id
                             (summary_step id summary now db))
                 = filter (λ k, Keyword.memory_id k ≠ id) (keywords db)).
  { rewrite delete_keywords_where_keywords.
    by destruct (summary_step_frame id summary now db) as [-> _]. }
  case_bool_decide as Hks.
  - destruct (MemoryRepository.insert_each _ _ _) as [db2|e] eqn:Hins;
      simpl; [|done].
    intros [= <- _]. apply insert_each_Ok in Hins as (_ & _ & _ & ->).
    by rewrite Hdel.
  - simpl. intros [= <- _]. rewrite Hks, Hdel. simpl. by rewrite app_nil_r.
Qed.

Lemma insert_failed fp s ks now db db' e :
  MemoryRepository.insert fp s ks now db = (db', Err e) → db' = db.
Proof.
  unfold MemoryRepository.insert, MemoryRepository.transaction.
  destruct (_ ≫= _) as [[? ?]|]; by intros [= <-].
Qed.

Lemma update_failed id summary keywords now db db' e :
  MemoryRepository.update id summary keywords now db = (db', Err e) → db' = db.
Proof.
  unfold MemoryRepository.update, MemoryRepository.transaction.
  destruct (_ ≫= _) as [[? ?]|]; by intros [= <-].
Qed.

(** [insertMemory] and [updateMemory] keep the keywords in lower case. *)
Lemma insertMemory_keeps_lowercase args today now srv :
  keywords_lowercase (db srv) →
  keywords_lowercase (db (insertMemory args today now srv).1).
Proof.
  intros Hlow. unfold insertMemory.
  destruct (Schemas.InsertMemorySchema args) as [[[content summary] ks]|];
    [|done].
  destruct (FileStore.saveDated _ _ _ _ _ _) as [[fs' stored]|]; [|done].
  destruct (MemoryRepository.insert _ _ _ _ _) as [db' [i|e]] eqn:Hins; simpl.
  - apply insert_row in Hins as (_ & _ & Hk & _).
    unfold keywords_lowercase. rewrite Hk. apply Forall_app. split; [done|].
    apply Forall_fmap. apply normalize_keywords_lowercase.
  - by rewrite (insert_failed _ _ _ _ _ _ _ Hins).
Qed.

Lemma updateMemory_keeps_lowercase args now srv :
  keywords_lowercase (db srv) →
  keywords_lowercase (db (updateMemory args now srv).1).
Proof.
  intros Hlow. unfold updateMemory.
  destruct (Schemas.UpdateMemorySchema args) as [a|]; [|done].
  destruct (MemoryRepository.get _ _); [|done].
  set (srv1 := match upd_content a with Some _ => _ | None => _ end).
  assert (Hdb1 : db srv1 = db srv).
  { unfold srv1. destruct (upd_content a) as [c|]; [|done].
    by destruct (Js.truthy c). }
  destruct (MemoryRepository.update _ _ _ _ _) as [db' r] eqn:Hupd.
  rewrite Hdb1 in Hupd.
  assert (Hgoal : keywords_lowercase db').
  { destruct r as [r|e]; [|by rewrite (update_failed _ _ _ _ _ _ _ Hupd)].
    destruct (upd_keywords a) as [ks|]; simpl in Hupd.
    - apply update_keywords in Hupd. unfold keywords_lowercase.
      rewrite Hupd. apply Forall_app. split.
      + apply Forall_forall. intros k [_ Hk]%list_elem_of_filter.
        unfold keywords_lowercase in Hlow. rewrite Forall_forall in Hlow. auto.
      + apply Forall_fmap. apply normalize_keywords_lowercase.
    - unfold keywords_lowercase.
      assert (keywords db' = keywords (db srv)) as ->; [|done].
      unfold MemoryRepository.update, MemoryRepository.transaction in Hupd.
      fold (summary_step (upd_id a) (upd_summary a) now (db srv)) in Hupd.
      simpl in Hupd. injection Hupd as <- _.
      by destruct (summary_step_frame (upd_id a) (upd_summary a) now (db srv))
        as [-> _]. }
  destruct r as [[]|]; simpl; try done.
  by destruct (MemoryRepository.get _ _).
Qed.

End Lowercase.

(** ** The states the tools lead to *)

Section Invariants.

Import AgentMemoryServer.

Implicit Types db : Database.

Lemma memory_by_id_ids mid db :
  is_Some (Sql.memory_by_id mid db) ↔ mid ∈ Memory.id <$> memories db.
Proof.
  rewrite list_elem_of_fmap. split.
  - intros (m & Hm & Hid)%memory_by_id_elem. by exists m.
  - intros (m & -> & Hm). unfold Sql.memory_by_id.
    assert (Hin : m ∈ filter (λ m', Memory.id m' = Memory.id m) (memories db))
      by by apply list_elem_of_filter.
    destruct (filter _ _); [by apply elem_of_nil in Hin | by eexists].
Qed.

Lemma keywords_reference_ids db db' :
  keywords db' = keywords db →
  Memory.id <$> memories db' = Memory.id <$> memories db →
  keywords_reference db → keywords_reference db'.
Proof.
  unfold keywords_reference. intros -> Hids Href.
  eapply Forall_impl; [exact Href|]. intros k.
  by rewrite !memory_by_id_ids, Hids.
Qed.

Lemma update_memory_fold_ids vs s now db :
  Memory.id <$> memories (foldl (λ d old, Stmt.update_memory old s now d) db vs)
  = Memory.id <$> memories db.
Proof.
  revert db. induction vs as [|v vs IH]; intros db; simpl; [done|].
  rewrite IH. simpl. rewrite <-list_fmap_compose. apply list_fmap_ext.
  intros _ m _. simpl. by case_decide.
Qed.

Lemma summary_step_ids id summary now db :
  Memory.id <$> memories (summary_step id summary now db)
  = Memory.id <$> memories db.
Proof.
  unfold summary_step. destruct summary as [s|]; [|done].
  destruct (Js.truthy s); [|done]. apply update_memory_fold_ids.
Qed.

(** A keyword row that was accepted references a memory. *)
Lemma insert_each_references mid k ks db db' :
  foreign_keys db = true →
  MemoryRepository.insert_each mid (k :: ks) db = Ok db' →
  is_Some (Sql.memory_by_id mid db).
Proof.
  intros Hfk. simpl. unfold Stmt.insert_keyword. case_decide; [done|].
  rewrite Hfk. simpl. case_bool_decide as Hnone; [done|]. intros _.
  by destruct (Sql.memory_by_id mid db).
Qed.

Lemma insert_referential fp s ks now db :
  referential db → referential (MemoryRepository.insert fp s ks now db).1.
Proof.
  intros [Hfk Href].
  destruct (MemoryRepository.insert fp s ks now db) as [db' [i|e]] eqn:Hins;
    simpl.
  2:{ by rewrite (insert_failed _ _ _ _ _ _ _ Hins). }
  pose proof (insert_row _ _ _ _ _ _ _ Hins) as (Hi & Hm & Hk & Hby).
  split.
  - revert Hins. unfold MemoryRepository.insert, MemoryRepository.transaction,
      Stmt.insert_memory.
    case_decide; [done|]. simpl. case_bool_decide; simpl.
    + destruct (MemoryRepository.insert_each _ _ _) as [db2|] eqn:Heach;
        simpl; [|done].
      intros [= <- _]. by apply insert_each_Ok in Heach as (_ & -> & _).
    + by intros [= <- _].
  - unfold keywords_reference. rewrite Hk. apply Forall_app. split.
    + eapply Forall_impl; [exact Href|]. intros k.
      rewrite !memory_by_id_ids, Hm, fmap_app, elem_of_app. auto.
    + apply Forall_fmap, Forall_true. intros k. simpl. by rewrite Hby.
Qed.

Lemma update_referential id summary keywords now db :
  referential db →
  referential (MemoryRepository.update id summary keywords now db).1.
Proof.
  intros [Hfk Href].
  destruct (MemoryRepository.update id summary keywords now db)
    as [db' [r|e]] eqn:Hupd; simpl.
  2:{ by rewrite (update_failed _ _ _ _ _ _ _ Hupd). }
  pose proof (update_memories _ _ _ _ _ _ _ Hupd) as Hm.
  pose proof (summary_step_ids id summary now db) as Hids.
  destruct (summary_step_frame id summary now db) as [Hk1 Hfk1].
  revert Hupd. unfold MemoryRepository.update, MemoryRepository.transaction.
  fold (summary_step id summary now db).
  destruct keywords as [ks|]; simpl.
  2:{ intros [= <- _]. split; [congruence|].
      by apply (keywords_reference_ids db). }
  set (db1 := Stmt.delete_keywords_where id (summary_step id summary now db)).
  destruct (delete_keywords_where_frame id (summary_step id summary now db))
    as (Hm1 & Hfk2 & _). fold db1 in Hm1, Hfk2.
  assert (Hk2 : keywords db1
                = filter (λ k, Keyword.memory_id k ≠ id) (keywords db)).
  { unfold db1. by rewrite delete_keywords_where_keywords, Hk1. }
  assert (Href1 : keywords_reference db1).
  { unfold keywords_reference. rewrite Hk2. apply Forall_forall.
    intros k [_ Hk]%list_elem_of_filter.
    unfold keywords_reference in Href. rewrite Forall_forall in Href.
    specialize (Href k Hk). revert Href.
    by rewrite !memory_by_id_ids, Hm1, Hids. }
  case_bool_decide as Hks; simpl.
  2:{ intros [= <- _]. split; [congruence | done]. }
  destruct (MemoryRepository.insert_each id ks db1) as [db2|] eqn:Heach;
    simpl; [|done].
  intros [= <- _]. destruct ks as [|k ks]; [done|].
  assert (Hfkdb1 : foreign_keys db1 = true) by congruence.
  pose proof (insert_each_references _ _ _ _ _ Hfkdb1 Heach) as Hid.
  apply insert_each_Ok in Heach as (Hm2 & Hfk3 & _ & Hk3).
  split; [congruence|]. unfold keywords_reference. rewrite Hk3.
  apply Forall_app. split.
  - eapply Forall_impl; [exact Href1|]. intros k'.
    by rewrite !memory_by_id_ids, Hm2.
  - apply Forall_fmap, Forall_true. intros k'. simpl.
    revert Hid. by rewrite !memory_by_id_ids, Hm2.
Qed.

Lemma delete_referential id db :
  referential db →
  let db' := (MemoryRepository.delete id db).1 in
  referential db' ∧ keywords db' ⊆ keywords db.
Proof.
  intros [Hfk Href]. pose proof (delete_removes_rows id db Hfk) as H.
  destruct (Sql.memory_by_id id db) as [m|] eqn:Hby.
  2:{ rewrite H. done. }
  destruct H as (db' & -> & Hm & Hk & Hfk' & _). simpl.
  split; [split; [done|] |].
  - unfold keywords_reference. rewrite Hk. apply Forall_forall.
    intros k [Hid Hin]%list_elem_of_filter.
    unfold keywords_reference in Href. rewrite Forall_forall in Href.
    destruct (memory_by_id_elem _ _ (Href k Hin)) as (m' & Hm' & Hmk).
    apply memory_by_id_ids, list_elem_of_fmap. exists m'. split; [done|].
    rewrite Hm. apply list_elem_of_filter. split; [congruence | done].
  - rewrite Hk. intros k Hin%list_elem_of_filter. apply Hin.
Qed.

Lemma normalize_keywords_nonempty ks :
  Forall (λ k, k ≠ "") (normalize_keywords ks).
Proof.
  unfold normalize_keywords. apply Forall_take, Forall_uniq, Forall_forall.
  by intros k [? _]%list_elem_of_filter.
Qed.

(** The database of a server the tools lead to keeps its foreign keys and
    holds its keywords in lower case. *)
Lemma reachable_invariants srv :
  reachable srv → referential (db srv) ∧ keywords_lowercase (db srv).
Proof.
  induction 1 as [base cwd fs|args today now srv _ [Href Hlow]
                  |args now srv _ [Href Hlow]|id srv _ [Href Hlow]].
  - split; [split|]; constructor.
  - split; [|by apply insertMemory_keeps_lowercase].
    unfold insertMemory.
    destruct (Schemas.InsertMemorySchema args) as [[[content summary] ks]|];
      [|done].
    destruct (FileStore.saveDated _ _ _ _ _ _) as [[fs' stored]|]; [|done].
    pose proof (insert_referential (path stored) summary
                  (normalize_keywords ks) now (db srv) Href) as H.
    by destruct (MemoryRepository.insert _ _ _ _ _) as [db' [i|e]].
  - split; [|by apply updateMemory_keeps_lowercase].
    unfold updateMemory.
    destruct (Schemas.UpdateMemorySchema args) as [a|]; [|done].
    destruct (MemoryRepository.get _ _); [|done].
    set (srv1 := match upd_content a with Some _ => _ | None => _ end).
    assert (Hdb1 : db srv1 = db srv).
    { unfold srv1. destruct (upd_content a) as [c|]; [|done].
      by destruct (Js.truthy c). }
    rewrite Hdb1.
    pose proof (update_referential (upd_id a) (upd_summary a)
                  (normalize_keywords <$> upd_keywords a) now (db srv) Href)
      as H.
    destruct (MemoryRepository.update _ _ _ _ _) as [db' [[]|e]]; simpl in *;
      try done.
    by destruct (MemoryRepository.get _ db').
  - unfold deleteMemory.
    destruct (Schemas.DeleteMemorySchema id) as [id'|]; [|done].
    destruct (delete_referential id' (db srv) Href) as [H Hsub].
    destruct (MemoryRepository.delete id' (db srv)) as [db' []]; simpl in *.
    + split; [done|]. unfold keywords_lowercase in *.
      rewrite Forall_forall in Hlow. apply Forall_forall. auto.
    + split; [done|]. unfold keywords_lowercase in *.
      rewrite Forall_forall in Hlow. apply Forall_forall. auto.
Qed.

(** [get] right after [insertMemory], on a server the tools lead to. *)
Lemma get_after_insertMemory args today now srv srv' i fp :
  reachable srv →
  insertMemory args today now srv = (srv', Ok (MkStoredReply i fp)) →
  ∃ content summary ks,
    Schemas.InsertMemorySchema args = Ok (content, summary, ks)
    ∧ Sql.keywords_of i (db srv') = normalize_keywords ks
    ∧ row <$> MemoryRepository.get i (db srv')
      = Some (Memory.Build i fp summary now)
    ∧ (Forall (λ k, separator_free k = true) (normalize_keywords ks) →
       mem_keywords <$> MemoryRepository.get i (db srv')
       = Some (normalize_keywords ks)).
Proof.
  intros [[_ Href] _]%reachable_invariants. unfold insertMemory.
  destruct (Schemas.InsertMemorySchema args) as [[[content summary] ks]|];
    [|by intros [= _ ?]].
  destruct (FileStore.saveDated _ _ _ _ _ _) as [[fs' stored]|];
    [|by intros [= _ ?]].
  destruct (MemoryRepository.insert _ _ _ _ _) as [db' [j|e]] eqn:Hins;
    [|by intros [= _ ?]].
  intros [= <- <- <-]. exists content, summary, ks. split; [done|].
  destruct (get_after_insert _ _ _ _ _ _ _ Href Hins) as (Hk & Hrow & Hkws).
  split; [done|]. split; [done|]. intros Hfree. apply Hkws.
  pose proof (normalize_keywords_nonempty ks) as Hne.
  rewrite Forall_forall in Hne, Hfree. apply Forall_forall. auto.
Qed.

End Invariants.

(** ** A search, run *)

Lemma search_ranking_witness :
  let args :=
    MkSearchArgs "note" (Some ["K3"; "zz"]) (Some 1) None None None in
  ∃ params rows reply,
    Schemas.SearchMemoriesSchema args = Ok params
    ∧ SearchService.run sample_match sample_bm25 params
        (AgentMemoryServer.db two_notes) = Ok rows
    ∧ (Memory.id ∘ memory ∘ ranked) <$> rows = [2; 1]
    ∧ matched_keywords ∘ ranked <$> rows = [1%nat; 0%nat]
    ∧ StronglySorted (λ a b, (final_score a <= final_score b)%Q) rows
    ∧ AgentMemoryServer.searchMemories sample_match sample_bm25 args two_notes
      = Ok reply
    ∧ hit_summary <$> results reply = ["Beta note"]
    ∧ total_found reply = 2%nat.
Proof.
  cbv zeta.
  set (params := MkSearchParams "note" ["K3"; "zz"] 1 (8 # 10) (2 # 1) (1 # 1)).
  destruct (search_ranking sample_match sample_bm25 params
              (AgentMemoryServer.db two_notes) [1; 2])
    as (pool & candidates & rows & Hrun & _ & _ & _ & _ & _ & _ & Hsorted & _
        & Htruncate).
  { by vm_compute. }
  { unfold keywords_lowercase. vm_compute keywords. repeat constructor. }
  destruct (Htruncate
              (MkSearchArgs "note" (Some ["K3"; "zz"]) (Some 1) None None None)
              two_notes) as (reply & Hreply & Htotal & _ & Hhits);
    [by vm_compute | done |].
  exists params, rows, reply.
  split; [by vm_compute|]. split; [done|].
  assert (Hrows : rows = match SearchService.run sample_match sample_bm25 params
                                 (AgentMemoryServer.db two_notes) with
                         | Ok rs => rs
                         | Err _ => []
                         end) by by rewrite Hrun.
  split; [rewrite Hrows; by vm_compute|].
  split; [rewrite Hrows; by vm_compute|].
  split; [done|]. split; [done|].
  split; [rewrite Hhits, Hrows; by vm_compute|].
  rewrite Htotal, Hrows. by vm_compute.
Defined.

(** With the stand-in for FTS5, a search for a word of the summary that was
    replaced still finds the memory, under its new summary; after the
    memory is deleted the join with [memories] hides the entries that
    stayed. *)
Example search_after_update_and_delete :
  let updated :=
    (AgentMemoryServer.updateMemory
       (MkUpdateArgs 1 None (Some "Beta note") (Some ["k3"])) 200
       sample_server).1 in
  let deleted := (AgentMemoryServer.deleteMemory 1 sample_server).1 in
  let search srv :=
    AgentMemoryServer.searchMemories sample_match sample_bm25
      (MkSearchArgs "alpha" None None None None None) srv in
  let summaries r :=
    match r with
    | Ok reply => Some (hit_summary <$> results reply)
    | Err _ => None
    end in
  summaries (search sample_server) = Some ["Alpha note"]
  ∧ summaries (search updated) = Some ["Beta note"]
  ∧ summaries (search deleted) = Some [].
Proof. vm_compute. repeat split. Qed.

(** ** Trimming *)

Section TrimFacts.

Lemma trimStart_clean s : starts_clean (Js.trimStart s).
Proof.
  induction s as [|c s IH]; [done|]. simpl.
  destruct (Ascii.is_space c) eqn:Hc; [done|]. simpl. done.
Qed.


(** [trimStart] drops a prefix. *)
Lemma trimStart_suffix s : ∃ u, s = u +:+ Js.trimStart s.
Proof.
  induction s as [|c s [u IH]]; [by exists ""|]. simpl.
  destruct (Ascii.is_space c).
  - exists (String c u). by rewrite str_app_cons, <-IH.
  - by exists "".
Qed.

(** [trimEnd] drops a suffix. *)
Lemma trimEnd_prefix s : ∃ u, s = Js.trimEnd s +:+ u.
Proof.
  unfold Js.trimEnd. destruct (trimStart_suffix (String.rev s)) as [u Hu].
  exists (String.rev u). apply str_rev_inj.
  by rewrite str_rev_app_distr, !str_rev_involutive.
Qed.

Lemma starts_clean_prefix s u : starts_clean (s +:+ u) → starts_clean s.
Proof. destruct s as [|c s]; [done|]. by rewrite str_app_cons. Qed.

Lemma trim_trimmed s : trimmed (Js.trim s).
Proof.
  unfold trimmed, Js.trim. split.
  - destruct (trimEnd_prefix (Js.trimStart s)) as [u Hu].
    apply (starts_clean_prefix _ u). rewrite <-Hu. apply trimStart_clean.
  - unfold Js.trimEnd. rewrite str_rev_involutive. apply trimStart_clean.
Qed.


Lemma is_space_lower_char c :
  Ascii.is_space (Js.lower_char c) = Ascii.is_space c.
Proof.
  unfold Js.lower_char.
  destruct c as [[] [] [] [] [] [] [] []]; reflexivity.
Qed.

Lemma toLowerCase_rev s :
  Js.toLowerCase (String.rev s) = String.rev (Js.toLowerCase s).
Proof.
  induction s as [|c s IH]; [done|].
  cbn [Js.toLowerCase]. by rewrite !str_rev_cons, toLowerCase_app, IH.
Qed.

Lemma starts_clean_toLowerCase s :
  starts_clean s → starts_clean (Js.toLowerCase s).
Proof. destruct s as [|c s]; [done|]. simpl. by rewrite is_space_lower_char. Qed.

Lemma trimmed_toLowerCase s : trimmed s → trimmed (Js.toLowerCase s).
Proof.
  intros [Hs He]. split; [by apply starts_clean_toLowerCase|].
  rewrite <-toLowerCase_rev. by apply starts_clean_toLowerCase.
Qed.

End TrimFacts.

(** ** Keywords as the handlers store them *)

Section NormalizeFacts.

Import AgentMemoryServer.


Lemma uniq_NoDup l : NoDup (Js.uniq l).
Proof.
  induction l as [|x l IH]; simpl; [constructor|].
  constructor; [|by apply NoDup_filter].
  rewrite list_elem_of_filter. by intros [? _].
Qed.


Lemma normalize_keywords_normal ks :
  Forall normal_keyword (normalize_keywords ks).
Proof.
  unfold normalize_keywords. apply Forall_take, Forall_uniq, Forall_forall.
  intros k [Hne (k0 & -> & _)%list_elem_of_fmap]%list_elem_of_filter.
  split; [done|]. split.
  - apply trimmed_toLowerCase, trim_trimmed.
  - apply toLowerCase_idem.
Qed.

Lemma normalize_keywords_NoDup ks : NoDup (normalize_keywords ks).
Proof.
  unfold normalize_keywords.
  eapply sublist_NoDup; [apply uniq_NoDup | apply sublist_take].
Qed.

Lemma normalize_keywords_length ks : (length (normalize_keywords ks) ≤ 10)%nat.
Proof. unfold normalize_keywords. rewrite length_take. lia. Qed.


End NormalizeFacts.


(** ** The slug of a summary *)

Section SlugFacts.

Import AgentMemoryServer.

Lemma all_chars_app p s t :
  all_chars p (s +:+ t) = all_chars p s && all_chars p t.
Proof.
  induction s as [|c s IH]; [done|].
  rewrite str_app_cons. simpl. by rewrite IH, andb_assoc.
Qed.

Lemma no_adjacent_app p s t :
  no_adjacent p (s +:+ t) = true →
  no_adjacent p s = true ∧ no_adjacent p t = true.
Proof.
  induction s as [|c s IH]; [done|].
  rewrite str_app_cons. simpl.
  intros [Hc Hrest]%andb_prop. destruct (IH Hrest) as [Hs Ht].
  split; [|done]. rewrite Hs, andb_true_r.
  destruct s as [|d s]; [by rewrite andb_false_r|].
  by rewrite str_app_cons in Hc.
Qed.

Lemma starts_with_prefix p s t :
  starts_with p (s +:+ t) = false → starts_with p s = false.
Proof. destruct s as [|c s]; [done|]. by rewrite str_app_cons. Qed.

Lemma dash_others_slug b s : all_chars is_slug_char (dash_others b s) = true.
Proof.
  revert b. induction s as [|c s IH]; intros b; [done|]. simpl.
  destruct (is_slug_char c) eqn:Hc; simpl; [by rewrite Hc, IH|].
  destruct b; [apply IH|]. simpl. apply IH.
Qed.

Lemma squeeze_dashes_slug b s :
  all_chars is_slug_char s = true →
  all_chars is_slug_char (squeeze_dashes b s) = true.
Proof.
  revert b. induction s as [|c s IH]; intros b; [done|]. simpl.
  intros [Hc Hs]%andb_prop. case_decide.
  - destruct b; [by apply IH|]. simpl. by rewrite Hc, IH.
  - simpl. by rewrite Hc, IH.
Qed.

Lemma squeeze_dashes_no_double b s :
  no_adjacent is_dash (squeeze_dashes b s) = true
  ∧ (b = true → starts_with is_dash (squeeze_dashes b s) = false).
Proof.
  revert b. induction s as [|c s IH]; intros b; [done|]. simpl.
  case_decide as Hc.
  - destruct b.
    + apply IH.
    + destruct (IH true) as [Hnd Hst]. split; [|done]. simpl.
      by rewrite Hst, andb_false_r, Hnd.
  - destruct (IH false) as [Hnd _]. split.
    + simpl. unfold is_dash at 1. by rewrite bool_decide_false, Hnd.
    + intros _. simpl. unfold is_dash. by rewrite bool_decide_false.
Qed.

(** [strip_dash_start] drops a leading dash, if there is one. *)
Lemma strip_dash_start_cases s :
  (s = String "-" (strip_dash_start s))
  ∨ (starts_with is_dash s = false ∧ strip_dash_start s = s).
Proof.
  destruct s as [|c s]; [by right|].
  destruct (decide (c = "-"%char)) as [->|Hc]; [by left|].
  right. split; [simpl; unfold is_dash; by rewrite bool_decide_false|].
  destruct c as [[] [] [] [] [] [] [] []]; done.
Qed.

(** [strip_edge_dashes] drops at most a character at each end. *)
Lemma strip_edge_dashes_infix s :
  no_adjacent is_dash s = true →
  ∃ a b, s = a +:+ strip_edge_dashes s +:+ b
         ∧ starts_with is_dash (strip_edge_dashes s +:+ b) = false.
Proof.
  intros Hnd. unfold strip_edge_dashes.
  pose proof (strip_dash_start_cases s) as Hcases.
  remember (strip_dash_start s) as s1 eqn:Es1. clear Es1.
  assert (∃ a, s = a +:+ s1 ∧ starts_with is_dash s1 = false) as (a & Ha & Hs1).
  { destruct Hcases as [Hs|[Hs Heq]].
    - exists "-". split; [done|]. rewrite Hs in Hnd. simpl in Hnd.
      apply andb_prop in Hnd as [Hnd _]. by destruct (starts_with is_dash s1).
    - exists "". by rewrite Heq. }
  assert (∃ b, s1 = String.rev (strip_dash_start (String.rev s1)) +:+ b)
    as [b Hb].
  { destruct (strip_dash_start_cases (String.rev s1)) as [Hr|[_ Hr]].
    - exists "-". apply str_rev_inj.
      by rewrite str_rev_app_distr, str_rev_involutive.
    - exists "". by rewrite Hr, str_rev_involutive, str_app_nil_r. }
  exists a, b. by rewrite <-Hb.
Qed.

Lemma substring_prefix n s :
  ∃ u, s = String.substring 0 n s +:+ u
       ∧ (String.length (String.substring 0 n s) ≤ n)%nat.
Proof.
  revert s. induction n as [|n IH]; intros s.
  - exists s. by destruct s.
  - destruct s as [|c s]; [exists ""; simpl; split; [done | lia]|].
    destruct (IH s) as (u & Hu & Hlen). exists u. simpl.
    split; [by rewrite str_app_cons, <-Hu | lia].
Qed.

End SlugFacts.

(** X2. The slug [insertMemory] derives from a summary is at most 50
    characters long, is made of lower-case ASCII letters, digits and
    dashes, does not start with a dash and holds no two dashes in a row. *)
Theorem slug_of_shape summary :
  let slug := AgentMemoryServer.slug_of summary in
  (String.length slug ≤ 50)%nat
  ∧ all_chars AgentMemoryServer.is_slug_char slug = true
  ∧ starts_with is_dash slug = false
  ∧ no_adjacent is_dash slug = true.
Proof.
  cbv zeta. unfold AgentMemoryServer.slug_of.
  set (base := if Js.truthy _ then _ else _).
  set (squeezed := AgentMemoryServer.squeeze_dashes false
                     (AgentMemoryServer.dash_others false base)).
  assert (Hslug : all_chars AgentMemoryServer.is_slug_char squeezed = true)
    by apply squeeze_dashes_slug, dash_others_slug.
  destruct (squeeze_dashes_no_double false
              (AgentMemoryServer.dash_others false base)) as [Hnd _].
  fold squeezed in Hnd.
  destruct (strip_edge_dashes_infix squeezed Hnd) as (a & b & Hsq & Hstart).
  set (stripped := AgentMemoryServer.strip_edge_dashes squeezed) in *.
  destruct (substring_prefix 50 stripped) as (u & Hu & Hlen).
  set (slug := String.substring 0 50 stripped) in *.
  rewrite Hsq in Hslug, Hnd.
  rewrite all_chars_app in Hslug. apply andb_prop in Hslug as [_ Hslug].
  rewrite all_chars_app in Hslug. apply andb_prop in Hslug as [Hslug _].
  apply no_adjacent_app in Hnd as [_ Hnd].
  apply no_adjacent_app in Hnd as [Hnd _].
  apply starts_with_prefix in Hstart.
  rewrite Hu in Hslug, Hnd, Hstart.
  rewrite all_chars_app in Hslug. apply andb_prop in Hslug as [Hslug _].
  apply no_adjacent_app in Hnd as [Hnd _].
  apply starts_with_prefix in Hstart.
  done.
Qed.

Section EmptySlug.

Import AgentMemoryServer.

Lemma all_chars_rev p s : all_chars p (String.rev s) = all_chars p s.
Proof.
  induction s as [|c s IH]; [done|].
  rewrite str_rev_cons, all_chars_app, IH. simpl.
  by rewrite andb_true_r, andb_comm.
Qed.

Lemma all_chars_toLowerCase p s :
  all_chars p (Js.toLowerCase s) = all_chars (p ∘ Js.lower_char) s.
Proof. induction s as [|c s IH]; [done|]. simpl. by rewrite IH. Qed.

(** The pieces of [split(/\s+/)] are made of characters of the string. *)
Lemma split_spaces_go_chars p b cur s :
  all_chars p cur = true → all_chars p s = true →
  Forall (λ w, all_chars p w = true) (split_spaces_go b cur s).
Proof.
  revert b cur. induction s as [|c s IH]; intros b cur Hcur Hs; simpl.
  - constructor; [by rewrite all_chars_rev | constructor].
  - simpl in Hs. apply andb_prop in Hs as [Hc Hs].
    destruct (Ascii.is_space c).
    + destruct b; [by apply IH|].
      constructor; [by rewrite all_chars_rev | by apply IH].
    + apply IH; [|done]. simpl. by rewrite Hc, Hcur.
Qed.

(** [split(/\s+/)] yields the whole string or at least two pieces. *)
Lemma split_spaces_go_pieces b cur s :
  (1 ≤ length (split_spaces_go b cur s))%nat
  ∧ (b = false →
     split_spaces_go b cur s = [String.rev cur +:+ s]
     ∨ (2 ≤ length (split_spaces_go b cur s))%nat).
Proof.
  revert b cur. induction s as [|c s IH]; intros b cur; simpl.
  - split; [lia|]. intros _. left. by rewrite str_app_nil_r.
  - destruct (Ascii.is_space c).
    + destruct b.
      * split; [apply IH | done].
      * destruct (IH true "") as [H1 _]. simpl. split; [lia|].
        intros _. right. lia.
    + destruct (IH false (String c cur)) as [H1 H2]. split; [done|].
      intros _. destruct (H2 eq_refl) as [->|H]; [left|by right].
      by rewrite str_rev_cons, str_app_assoc.
Qed.

Lemma join_chars p sep l :
  all_chars p sep = true → Forall (λ w, all_chars p w = true) l →
  all_chars p (Js.join sep l) = true.
Proof.
  intros Hsep. unfold Js.join. induction 1 as [|w l Hw Hl IH]; [done|].
  destruct l as [|w' l]; [done|].
  change (String.concat sep (w :: w' :: l))
    with (w +:+ sep +:+ String.concat sep (w' :: l)).
  by rewrite !all_chars_app, Hw, Hsep, IH.
Qed.

Lemma dash_others_dashes b s :
  all_chars (λ c, negb (is_alnum c)) s = true →
  all_chars is_dash (dash_others b s) = true.
Proof.
  revert b. induction s as [|c s IH]; intros b; [done|]. simpl.
  intros [Hc Hs]%andb_prop. unfold is_alnum in Hc.
  destruct (is_slug_char c); simpl in *.
  - apply negb_true_iff, negb_false_iff in Hc. by rewrite Hc, IH.
  - destruct b; [by apply IH|]. simpl. by apply IH.
Qed.

Lemma squeeze_dashes_dashes s :
  all_chars is_dash s = true →
  squeeze_dashes true s = ""
  ∧ (squeeze_dashes false s = "" ∨ squeeze_dashes false s = "-").
Proof.
  induction s as [|c s IH]; [by split; [|left]|]. simpl.
  intros [Hc Hs]%andb_prop. apply bool_decide_eq_true in Hc as ->.
  destruct (IH Hs) as [Ht _]. rewrite decide_True by done.
  split; [done|]. right. by rewrite Ht.
Qed.

End EmptySlug.

(** X3. A summary of ASCII characters that is not empty and holds no letter
    and no digit has the empty slug, so that [insertMemory] asks the file
    store for the name [.md]; the fallback name [memory] is not used for
    it. *)
Theorem slug_of_without_alnum summary :
  summary ≠ "" →
  all_chars (λ c, is_ascii c && negb (is_alnum (Js.lower_char c))) summary
  = true →
  AgentMemoryServer.slug_of summary = ""
  ∧ FileStore.finalFileName_of (AgentMemoryServer.slug_of summary +:+ ".md")
    = ".md".
Proof.
  intros Hne Hascii.
  assert (Hchars : all_chars (λ c, negb (is_alnum (Js.lower_char c))) summary
                   = true).
  { clear Hne. induction summary as [|c s IH]; [done|]. simpl in *.
    apply andb_prop in Hascii as [[_ Hc]%andb_prop Hs]. by rewrite Hc, IH. }
  enough (AgentMemoryServer.slug_of summary = "") as -> by done.
  unfold AgentMemoryServer.slug_of.
  set (pieces := AgentMemoryServer.split_spaces_go false ""
                   (Js.toLowerCase summary)).
  set (p := λ c, negb (is_alnum c)).
  assert (Hlow : all_chars p (Js.toLowerCase summary) = true)
    by by rewrite all_chars_toLowerCase.
  assert (Hpieces : Forall (λ w, all_chars p w = true) (take 8 pieces))
    by by apply Forall_take, split_spaces_go_chars.
  assert (Hwords : Js.join "-" (take 8 pieces) ≠ "").
  { destruct (split_spaces_go_pieces false "" (Js.toLowerCase summary))
      as [_ H]. fold pieces in H.
    destruct (H eq_refl) as [->|Hlen].
    - simpl. rewrite str_app_nil_l. by destruct summary.
    - destruct pieces as [|w1 [|w2 ws]]; simpl in Hlen; try lia.
      unfold Js.join. cbn [take String.concat].
      intros [_ Habs]%str_app_eq_nil. done. }
  assert (Hbase : all_chars p (Js.join "-" (take 8 pieces)) = true)
    by by apply join_chars.
  destruct (Js.join "-" (take 8 pieces)) as [|c words] eqn:Ewords; [done|].
  cbn [Js.truthy].
  destruct (squeeze_dashes_dashes
              (AgentMemoryServer.dash_others false (String c words))
              (dash_others_dashes false _ Hbase)) as [_ [->| ->]]; done.
Qed.

Lemma slug_of_without_alnum_witness :
  AgentMemoryServer.slug_of "?! ..." = ""
  ∧ FileStore.finalFileName_of (AgentMemoryServer.slug_of "?! ..." +:+ ".md")
    = ".md".
Proof. apply slug_of_without_alnum; [done | by vm_compute]. Defined.

(** ** The sanitized query *)

Section SanitizeFacts.

Import SearchService.

Lemma count_char_app c s t :
  count_char c (s +:+ t) = (count_char c s + count_char c t)%nat.
Proof.
  induction s as [|d s IH]; [done|]. rewrite str_app_cons. simpl.
  rewrite IH. lia.
Qed.

Lemma count_char_spaces c s :
  Ascii.is_space c = false → all_chars Ascii.is_space s = true →
  count_char c s = 0%nat.
Proof.
  intros Hc. induction s as [|d s IH]; [done|]. simpl.
  intros [Hd Hs]%andb_prop. rewrite IH by done.
  case_decide; [congruence | done].
Qed.

Lemma trimStart_spaces s :
  ∃ u, s = u +:+ Js.trimStart s ∧ all_chars Ascii.is_space u = true.
Proof.
  induction s as [|c s (u & IH & Hu)]; [by exists ""|]. simpl.
  destruct (Ascii.is_space c) eqn:Hc.
  - exists (String c u). rewrite str_app_cons, <-IH. simpl. by rewrite Hc.
  - by exists "".
Qed.

(** [trim] drops white space at both ends. *)
Lemma trim_infix s :
  ∃ u v, s = u +:+ Js.trim s +:+ v
         ∧ all_chars Ascii.is_space u = true
         ∧ all_chars Ascii.is_space v = true.
Proof.
  unfold Js.trim, Js.trimEnd.
  destruct (trimStart_spaces s) as (u & Hs & Hu).
  destruct (trimStart_spaces (String.rev (Js.trimStart s))) as (w & Hr & Hw).
  exists u, (String.rev w). split; [|split; [done|by rewrite all_chars_rev]].
  rewrite Hs at 1. f_equal. apply str_rev_inj.
  by rewrite str_rev_app_distr, !str_rev_involutive.
Qed.

Lemma double_quotes_count s :
  count_char dquote (double_quotes s) = (2 * count_char dquote s)%nat.
Proof.
  induction s as [|c s IH]; [done|]. cbn [double_quotes count_char].
  case_decide as Hc; cbn [count_char]; rewrite IH.
  - subst c. rewrite !decide_True by done. lia.
  - rewrite decide_False by done. lia.
Qed.

Lemma blank_brackets_count s :
  count_char dquote (blank_brackets s) = count_char dquote s.
Proof.
  induction s as [|c s IH]; [done|]. simpl. rewrite IH. f_equal.
  destruct (is_bracket c) eqn:Hc; [|done].
  repeat case_decide; try done. by subst c.
Qed.

Lemma blank_brackets_none s :
  all_chars (λ c, negb (is_bracket c)) (blank_brackets s) = true.
Proof.
  induction s as [|c s IH]; [done|]. simpl. rewrite IH.
  by destruct (is_bracket c) eqn:Hc; [|rewrite Hc].
Qed.

Lemma collapse_spaces_count b s :
  count_char dquote (collapse_spaces b s) = count_char dquote s.
Proof.
  revert b. induction s as [|c s IH]; intros b; [done|]. simpl.
  destruct (Ascii.is_space c) eqn:Hc.
  - rewrite decide_False by (by intros ->).
    destruct b; simpl; by rewrite IH.
  - simpl. by rewrite IH.
Qed.

Lemma collapse_spaces_chars p b s :
  p " "%char = true → all_chars p s = true →
  all_chars p (collapse_spaces b s) = true.
Proof.
  intros Hp. revert b. induction s as [|c s IH]; intros b; [done|]. simpl.
  intros [Hc Hs]%andb_prop. destruct (Ascii.is_space c).
  - destruct b; simpl; [|rewrite Hp]; by apply IH.
  - simpl. by rewrite Hc, IH.
Qed.

Lemma collapse_spaces_single b s :
  all_chars (λ c, negb (Ascii.is_space c) || bool_decide (c = " "%char))
    (collapse_spaces b s) = true
  ∧ no_adjacent Ascii.is_space (collapse_spaces b s) = true
  ∧ (b = true → starts_with Ascii.is_space (collapse_spaces b s) = false).
Proof.
  revert b. induction s as [|c s IH]; intros b; [done|]. simpl.
  destruct (Ascii.is_space c) eqn:Hc.
  - destruct b; [apply IH|]. destruct (IH true) as (H1 & H2 & H3).
    simpl. rewrite H1, H2, H3 by done. done.
  - destruct (IH false) as (H1 & H2 & _). simpl. by rewrite Hc, H1, H2.
Qed.

End SanitizeFacts.

(** X4. The query [SearchService.run] hands to FTS5 holds no bracket, no
    white space but single spaces between its words and none at either
    end, and every double quote of the caller's query twice. *)
Theorem sanitize_shape query :
  let q := SearchService.sanitize query in
  all_chars (λ c, negb (SearchService.is_bracket c)) q = true
  ∧ all_chars (λ c, negb (Ascii.is_space c) || bool_decide (c = " "%char)) q
    = true
  ∧ no_adjacent Ascii.is_space q = true
  ∧ trimmed q
  ∧ count_char SearchService.dquote q
    = (2 * count_char SearchService.dquote query)%nat.
Proof.
  cbv zeta. unfold SearchService.sanitize.
  set (blanked := SearchService.blank_brackets
                    (SearchService.double_quotes query)).
  set (collapsed := SearchService.collapse_spaces false blanked).
  destruct (trim_infix collapsed) as (u & v & Hc & Hu & Hv).
  destruct (collapse_spaces_single false blanked) as (Hplain & Hadj & _).
  pose proof (collapse_spaces_chars
                (λ c, negb (SearchService.is_bracket c)) false blanked
                eq_refl (blank_brackets_none _)) as Hbr.
  pose proof (collapse_spaces_count false blanked) as Hcount.
  fold collapsed in Hplain, Hadj, Hbr, Hcount.
  rewrite Hc in Hplain, Hadj, Hbr, Hcount.
  rewrite !all_chars_app in Hplain, Hbr.
  apply andb_prop in Hplain as [_ [Hplain _]%andb_prop].
  apply andb_prop in Hbr as [_ [Hbr _]%andb_prop].
  apply no_adjacent_app in Hadj as [_ [Hadj _]%no_adjacent_app].
  rewrite !count_char_app in Hcount.
  rewrite (count_char_spaces _ u), (count_char_spaces _ v) in Hcount by done.
  unfold blanked in Hcount.
  rewrite blank_brackets_count, double_quotes_count in Hcount.
  repeat split; try done; [apply trim_trimmed | apply trim_trimmed | lia].
Qed.

(** ** Keys and the sequence of ids *)

Section KeyFacts.

Import AgentMemoryServer.

Implicit Types db : Database.

Lemma insert_each_NoDup mid ks db db' :
  NoDup (keywords db) → MemoryRepository.insert_each mid ks db = Ok db' →
  NoDup (keywords db').
Proof.
  revert db. induction ks as [|k ks IH]; intros db Hnd; simpl.
  - by intros [= <-].
  - destruct (Stmt.insert_keyword mid k db) as [db1|e] eqn:H1; [|done].
    simpl. apply IH.
    pose proof (insert_keyword_Ok _ _ _ _ H1) as (_ & _ & _ & ->).
    apply NoDup_app. split; [done|]. split; [|apply NoDup_singleton].
    intros x Hx ->%list_elem_of_singleton. revert H1.
    unfold Stmt.insert_keyword. by rewrite decide_True.
Qed.

Lemma next_id_above db : sqlite_sequence db < Stmt.next_id db.
Proof. unfold Stmt.next_id. lia. Qed.

Lemma next_id_positive db : 0 < Stmt.next_id db.
Proof.
  unfold Stmt.next_id.
  enough (0 ≤ foldr Z.max 0 (Memory.id <$> memories db)) by lia.
  induction (memories db) as [|a l IH]; [done|].
  rewrite fmap_cons. cbn [foldr]. lia.
Qed.

(** What [insert] does besides the rows [insert_row] tells of. *)
Lemma insert_frame fp s ks now db db' i :
  MemoryRepository.insert fp s ks now db = (db', Ok i) →
  sqlite_sequence db' = i ∧ foreign_keys db' = foreign_keys db
  ∧ (NoDup (keywords db) → NoDup (keywords db')).
Proof.
  unfold MemoryRepository.insert, MemoryRepository.transaction,
    Stmt.insert_memory.
  case_decide; [done|]. simpl. case_bool_decide; simpl.
  - destruct (MemoryRepository.insert_each _ _ _) as [db2|] eqn:Heach;
      simpl; [|done].
    intros [= <- <-].
    pose proof (insert_each_Ok _ _ _ _ Heach) as (_ & Hfk2 & Hseq2 & _).
    split; [by rewrite Hseq2|]. split; [by rewrite Hfk2|]. intros Hnd.
    eapply insert_each_NoDup; [|exact Heach]. exact Hnd.
  - by intros [= <- <-].
Qed.

Lemma update_frame id summary kws now db db' r :
  MemoryRepository.update id summary kws now db = (db', Ok r) →
  sqlite_sequence db' = sqlite_sequence db
  ∧ (NoDup (keywords db) → NoDup (keywords db')).
Proof.
  unfold MemoryRepository.update, MemoryRepository.transaction.
  fold (summary_step id summary now db).
  assert (Hseq : sqlite_sequence (summary_step id summary now db)
                 = sqlite_sequence db).
  { unfold summary_step. destruct summary as [s|]; [|done].
    destruct (Js.truthy s); [|done].
    apply update_memory_fold_frame. }
  destruct (summary_step_frame id summary now db) as [Hk _].
  destruct kws as [ks|]; simpl.
  2:{ intros [= <- _]. by rewrite Hk. }
  set (db1 := Stmt.delete_keywords_where id (summary_step id summary now db)).
  destruct (delete_keywords_where_frame id (summary_step id summary now db))
    as (_ & _ & Hseq1). fold db1 in Hseq1.
  assert (Hnd1 : NoDup (keywords db) → NoDup (keywords db1)).
  { intros Hnd. unfold db1. rewrite delete_keywords_where_keywords, Hk.
    by apply NoDup_filter. }
  case_bool_decide; simpl.
  - destruct (MemoryRepository.insert_each _ _ _) as [db2|] eqn:Heach;
      simpl; [|done].
    intros [= <- _].
    pose proof (insert_each_Ok _ _ _ _ Heach) as (_ & _ & Hseq2 & _).
    split; [congruence|]. intros Hnd.
    by apply (insert_each_NoDup _ _ _ _ (Hnd1 Hnd) Heach).
  - intros [= <- _]. split; [congruence | done].
Qed.

Lemma delete_memory_fold_sequence vs db :
  sqlite_sequence (foldl (λ d old, Stmt.delete_memory old d) db vs)
  = sqlite_sequence db.
Proof.
  revert db. induction vs as [|v vs IH]; intros db; simpl; [done|].
  rewrite IH. unfold Stmt.delete_memory, Trigger.memories_ad.
  rewrite fts_delete_without_values. cbn [foreign_keys set_memories].
  destruct (foreign_keys db); [|done].
  destruct (delete_keywords_where_frame (Memory.id v)
              (set_memories (filter (λ m, Memory.id m ≠ Memory.id v)
                               (memories db)) db)) as (_ & _ & Hseq).
  by rewrite Hseq.
Qed.

Lemma delete_sequence id db :
  sqlite_sequence (MemoryRepository.delete id db).1 = sqlite_sequence db.
Proof.
  unfold MemoryRepository.delete, Stmt.delete_memories_where. simpl.
  apply delete_memory_fold_sequence.
Qed.

Lemma insert_keys_hold fp s ks now db :
  keys_hold db → keys_hold (MemoryRepository.insert fp s ks now db).1.
Proof.
  intros (Hids & Hkws & Hseq).
  destruct (MemoryRepository.insert fp s ks now db) as [db' [i|e]] eqn:Hins;
    simpl.
  2:{ by rewrite (insert_failed _ _ _ _ _ _ _ Hins). }
  pose proof (insert_row _ _ _ _ _ _ _ Hins) as (Hi & Hm & _).
  pose proof (insert_frame _ _ _ _ _ _ _ Hins) as (Hs & _ & Hnd).
  split; [|split; [by apply Hnd|]].
  - rewrite Hm, fmap_app. apply NoDup_app. split; [done|].
    split; [|apply NoDup_singleton].
    intros x (m & -> & Hm')%list_elem_of_fmap Hx%list_elem_of_singleton.
    apply next_id_fresh in Hm'. simpl in Hx. lia.
  - rewrite Hm, Hs. apply Forall_app. split.
    + eapply Forall_impl; [exact Hseq|]. intros m. simpl.
      pose proof (next_id_above db). lia.
    + apply Forall_singleton. simpl. pose proof (next_id_positive db). lia.
Qed.

Lemma update_keys_hold id summary kws now db :
  keys_hold db →
  keys_hold (MemoryRepository.update id summary kws now db).1.
Proof.
  intros (Hids & Hkws & Hseq).
  destruct (MemoryRepository.update id summary kws now db)
    as [db' [r|e]] eqn:Hupd; simpl.
  2:{ by rewrite (update_failed _ _ _ _ _ _ _ Hupd). }
  pose proof (update_memories _ _ _ _ _ _ _ Hupd) as Hm.
  pose proof (update_frame _ _ _ _ _ _ _ Hupd) as (Hs & Hnd).
  pose proof (summary_step_ids id summary now db) as Hsame.
  rewrite <-Hm in Hsame.
  split; [by rewrite Hsame|]. split; [by apply Hnd|].
  rewrite Hs. apply Forall_forall. intros m Hin.
  assert (Memory.id m ∈ Memory.id <$> memories db) as (m0 & -> & Hm0)%list_elem_of_fmap.
  { rewrite <-Hsame. apply list_elem_of_fmap. by exists m. }
  rewrite Forall_forall in Hseq. by apply Hseq.
Qed.

Lemma delete_memories_sublist id db :
  memories (MemoryRepository.delete id db).1 `sublist_of` memories db
  ∧ (foreign_keys db = true →
     keywords (MemoryRepository.delete id db).1 `sublist_of` keywords db).
Proof.
  unfold MemoryRepository.delete, Stmt.delete_memories_where. simpl.
  generalize (filter (λ m, Memory.id m = id) (memories db)). intros vs.
  revert db. induction vs as [|v vs IH]; intros db; simpl; [done|].
  destruct (IH (Stmt.delete_memory v db)) as [Hm Hk].
  assert (Hm1 : memories (Stmt.delete_memory v db) `sublist_of` memories db).
  { unfold Stmt.delete_memory, Trigger.memories_ad.
    rewrite fts_delete_without_values. cbn [foreign_keys set_memories].
    destruct (foreign_keys db) eqn:Hfk; [|apply sublist_filter].
    destruct (delete_keywords_where_frame (Memory.id v)
                (set_memories (filter (λ m, Memory.id m ≠ Memory.id v)
                                 (memories db)) db)) as (Hm' & _).
    rewrite Hm'. apply sublist_filter. }
  split; [by etrans|]. intros Hfk.
  assert (foreign_keys (Stmt.delete_memory v db) = true
          ∧ keywords (Stmt.delete_memory v db) `sublist_of` keywords db)
    as [Hfk1 Hk1].
  { unfold Stmt.delete_memory, Trigger.memories_ad.
    rewrite fts_delete_without_values. simpl. rewrite Hfk.
    destruct (delete_keywords_where_frame (Memory.id v)
                (set_memories (filter (λ m, Memory.id m ≠ Memory.id v)
                                 (memories db)) db)) as (_ & Hfk' & _).
    rewrite Hfk'. split; [done|]. rewrite delete_keywords_where_keywords.
    apply sublist_filter. }
  etrans; [by apply Hk | done].
Qed.

Lemma delete_keys_hold id db :
  foreign_keys db = true → keys_hold db →
  keys_hold (MemoryRepository.delete id db).1.
Proof.
  intros Hfk (Hids & Hkws & Hseq).
  destruct (delete_memories_sublist id db) as [Hm Hk].
  split; [|split].
  - eapply sublist_NoDup; [exact Hids|]. by apply fmap_sublist.
  - eapply sublist_NoDup; [exact Hkws | by apply Hk].
  - rewrite delete_sequence. apply Forall_forall. intros m Hin.
    rewrite Forall_forall in Hseq. apply Hseq. by eapply elem_of_sublist.
Qed.

(** The database of a server the tools lead to: what holds of a new
    database and survives the three operations of the repository holds of
    it. *)
Lemma reachable_db_ind (P : Database → Prop) :
  P (initializeSchema openDatabase) →
  (∀ db fp s ks now,
     P db → P (MemoryRepository.insert fp s (normalize_keywords ks) now db).1) →
  (∀ db id summary keywords now,
     P db →
     P (MemoryRepository.update id summary (normalize_keywords <$> keywords)
          now db).1) →
  (∀ db id, P db → P (MemoryRepository.delete id db).1) →
  ∀ srv, reachable srv → P (db srv).
Proof.
  intros Hnew Hins Hupd Hdel srv.
  induction 1 as [base cwd fs|args today now srv _ IH
                  |args now srv _ IH|id srv _ IH].
  - done.
  - unfold insertMemory.
    destruct (Schemas.InsertMemorySchema args) as [[[content summary] ks]|];
      [|done].
    destruct (FileStore.saveDated _ _ _ _ _ _) as [[fs' stored]|]; [|done].
    specialize (Hins (db srv) (path stored) summary ks now IH).
    by destruct (MemoryRepository.insert _ _ _ _ _) as [db' [i|e]].
  - unfold updateMemory.
    destruct (Schemas.UpdateMemorySchema args) as [a|]; [|done].
    destruct (MemoryRepository.get _ _); [|done].
    set (srv1 := match upd_content a with Some _ => _ | None => _ end).
    assert (Hdb1 : db srv1 = db srv).
    { unfold srv1. destruct (upd_content a) as [c|]; [|done].
      by destruct (Js.truthy c). }
    rewrite Hdb1.
    specialize (Hupd (db srv) (upd_id a) (upd_summary a) (upd_keywords a)
                  now IH).
    destruct (MemoryRepository.update _ _ _ _ _) as [db' [[]|e]]; simpl in *;
      try done.
    by destruct (MemoryRepository.get _ db').
  - unfold deleteMemory.
    destruct (Schemas.DeleteMemorySchema id) as [id'|]; [|done].
    specialize (Hdel (db srv) id' IH).
    by destruct (MemoryRepository.delete id' (db srv)) as [db' []].
Qed.

Lemma reachable_keys_hold srv : reachable srv → keys_hold (db srv).
Proof.
  intros Hr.
  enough (referential (db srv) ∧ keys_hold (db srv)) by tauto.
  revert srv Hr. apply (reachable_db_ind (λ d, referential d ∧ keys_hold d)).
  - split; [split|split; [|split]]; constructor.
  - intros db fp s ks now [Href Hkeys]. split.
    + by apply insert_referential.
    + by apply insert_keys_hold.
  - intros db id summary keywords now [Href Hkeys]. split.
    + by apply update_referential.
    + by apply update_keys_hold.
  - intros db id [Href Hkeys]. split.
    + by apply delete_referential.
    + apply delete_keys_hold; [apply Href | done].
Qed.

End KeyFacts.

(** ** What the repository accepts *)

Section Progress.

Import AgentMemoryServer.

Implicit Types db : Database.

Lemma insert_each_succeeds mid ks db :
  NoDup ks → (∀ k, k ∈ ks → Keyword.Build mid k ∉ keywords db) →
  is_Some (Sql.memory_by_id mid db) →
  ∃ db', MemoryRepository.insert_each mid ks db = Ok db'.
Proof.
  revert db. induction ks as [|k ks IH]; intros db Hnd Hfresh Hsome; simpl.
  - by eexists.
  - apply NoDup_cons in Hnd as [Hk Hnd].
    assert (∃ db1, Stmt.insert_keyword mid k db = Ok db1) as [db1 H1].
    { unfold Stmt.insert_keyword.
      rewrite decide_False by (apply Hfresh; by left).
      rewrite (bool_decide_false (Sql.memory_by_id mid db = None)).
      - rewrite andb_false_r. by eexists.
      - by destruct Hsome as [m ->]. }
    rewrite H1. simpl.
    pose proof (insert_keyword_Ok _ _ _ _ H1) as (Hm & _ & _ & Hkw).
    apply IH; [done| |].
    + intros k' Hk'. rewrite Hkw, elem_of_app, list_elem_of_singleton.
      intros [Hold|[= ->]]; [|done]. revert Hold. apply Hfresh. by right.
    + unfold Sql.memory_by_id. by rewrite Hm.
Qed.

Lemma keywords_of_none mid db k :
  Sql.keywords_of mid db = [] → Keyword.Build mid k ∉ keywords db.
Proof.
  unfold Sql.keywords_of. intros Hnone Hin.
  assert (k ∈ Keyword.keyword
              <$> filter (λ r, Keyword.memory_id r = mid) (keywords db)) as H.
  { apply list_elem_of_fmap. exists (Keyword.Build mid k). split; [done|].
    by apply list_elem_of_filter. }
  rewrite Hnone in H. by apply elem_of_nil in H.
Qed.

(** [insert] accepts a path no row has and keywords that are distinct. *)
Lemma insert_succeeds fp s ks now db :
  fp ∉ Memory.file_path <$> memories db → NoDup ks → keywords_reference db →
  ∃ db', MemoryRepository.insert fp s ks now db = (db', Ok (Stmt.next_id db)).
Proof.
  intros Hfp Hnd Href.
  unfold MemoryRepository.insert, MemoryRepository.transaction,
    Stmt.insert_memory.
  rewrite decide_False by done. simpl.
  set (i := Stmt.next_id db). set (new := Memory.Build i fp s now).
  set (db1 := Trigger.memories_ai new _).
  case_bool_decide; simpl; [|by eexists].
  destruct (insert_each_succeeds i ks db1) as [db2 ->]; [done| | |by eexists].
  - intros k _. apply (keywords_of_none i db k).
    by apply keywords_of_next_id.
  - unfold Sql.memory_by_id. simpl. rewrite filter_app, filter_none.
    + simpl. rewrite filter_cons_True by done. by eexists.
    + intros m Hm%next_id_fresh. fold i in Hm. lia.
Qed.

(** [update] accepts distinct keywords for a memory that is stored. *)
Lemma update_succeeds id summary kws now db :
  is_Some (Sql.memory_by_id id db) → from_option NoDup True kws →
  ∃ db', MemoryRepository.update id summary kws now db = (db', Ok true).
Proof.
  intros Hsome Hnd. destruct kws as [ks|].
  2:{ eexists. by apply update_keywords_omitted. }
  unfold MemoryRepository.update, MemoryRepository.transaction.
  fold (summary_step id summary now db). simpl.
  set (db1 := Stmt.delete_keywords_where id (summary_step id summary now db)).
  assert (Hsome1 : is_Some (Sql.memory_by_id id db1)).
  { unfold db1. rewrite memory_by_id_delete_keywords.
    by apply summary_step_exists. }
  case_bool_decide; simpl.
  - destruct (insert_each_succeeds id ks db1) as [db2 Heach]; [done| |done|].
    + intros k _. apply keywords_of_none, keywords_of_cleared.
    + rewrite Heach. simpl. eexists. f_equal. f_equal.
      apply bool_decide_eq_true.
      pose proof (insert_each_Ok _ _ _ _ Heach) as (Hm & _).
      unfold Sql.memory_by_id in *. rewrite Hm.
      by destruct Hsome1 as [m ->].
  - eexists. f_equal. f_equal. apply bool_decide_eq_true.
    by destruct Hsome1 as [m ->].
Qed.

(** *** One row for an id *)

Lemma filter_id_unique mid m db :
  NoDup (Memory.id <$> memories db) → Sql.memory_by_id mid db = Some m →
  filter (λ m', Memory.id m' = mid) (memories db) = [m].
Proof.
  unfold Sql.memory_by_id.
  induction (memories db) as [|a l IH]; [done|].
  rewrite fmap_cons, NoDup_cons, filter_cons. intros [Ha Hl].
  case_decide as Hid.
  - intros [= ->]. f_equal. apply filter_none. intros m' Hm' Hid'.
    apply Ha, list_elem_of_fmap. exists m'. by rewrite Hid'.
  - by apply IH.
Qed.

Lemma summary_step_other id j summary now db :
  j ≠ id →
  Sql.memory_by_id j (summary_step id summary now db) = Sql.memory_by_id j db.
Proof.
  intros Hj. unfold summary_step. destruct summary as [s|]; [|done].
  destruct (Js.truthy s); [|done]. unfold Stmt.update_memories_where.
  assert (Hall : Forall (λ v, Memory.id v = id)
                   (filter (λ m, Memory.id m = id) (memories db))).
  { apply Forall_forall. intros v Hv%list_elem_of_filter. apply Hv. }
  revert Hall. generalize (filter (λ m, Memory.id m = id) (memories db)).
  intros vs. revert db. induction vs as [|v vs IH]; intros db Hall; [done|].
  apply Forall_cons in Hall as [Hv Hall]. simpl. rewrite IH by done.
  apply memory_by_id_update_memory_ne. congruence.
Qed.

(** The row of [id] after the first step of [update]. *)
Lemma summary_step_row id m summary now db :
  NoDup (Memory.id <$> memories db) → Sql.memory_by_id id db = Some m →
  Sql.memory_by_id id (summary_step id summary now db)
  = Some (match summary with
          | Some s =>
              if Js.truthy s
              then Memory.Build id (Memory.file_path m) s now else m
          | None => m
          end).
Proof.
  intros Hnd Hm. unfold summary_step. destruct summary as [s|]; [|done].
  destruct (Js.truthy s); [|done]. unfold Stmt.update_memories_where.
  rewrite (filter_id_unique id m db Hnd Hm). simpl.
  apply memory_by_id_update_memory; [|by rewrite Hm].
  unfold Sql.memory_by_id in Hm. apply head_filter_Some in Hm. apply Hm.
Qed.

Lemma update_row id m summary kws now db db' r :
  NoDup (Memory.id <$> memories db) → Sql.memory_by_id id db = Some m →
  MemoryRepository.update id summary kws now db = (db', Ok r) →
  Sql.memory_by_id id db'
  = Some (match summary with
          | Some s =>
              if Js.truthy s
              then Memory.Build id (Memory.file_path m) s now else m
          | None => m
          end)
  ∧ ∀ j, j ≠ id → Sql.memory_by_id j db' = Sql.memory_by_id j db.
Proof.
  intros Hnd Hm Hupd. pose proof (update_memories _ _ _ _ _ _ _ Hupd) as Heq.
  assert (Hby : ∀ j, Sql.memory_by_id j db'
                     = Sql.memory_by_id j (summary_step id summary now db)).
  { intros j. unfold Sql.memory_by_id. by rewrite Heq. }
  rewrite Hby. split; [by apply summary_step_row|]. intros j Hj.
  rewrite Hby. by apply summary_step_other.
Qed.

End Progress.

(** ** The tool handlers: what they write *)

Section HandlerFacts.

Import AgentMemoryServer.

Lemma readLimited_file cwd p c fs :
  Fs.lookup cwd p fs = Some (Fs.File c) →
  file_contents (FileStore.readLimited cwd p FileStore.default_limitBytes fs)
  = read_back c.
Proof.
  intros Hl. unfold FileStore.readLimited, FileStore.readLimited_try,
    Fs.existsSync, Fs.statSync_size, Fs.readFileSync, read_back.
  rewrite Hl. simpl.
  by destruct (FileStore.default_limitBytes <? Z.of_nat (String.length c)).
Qed.

Lemma lookup_writeFileSync cwd p c fs :
  Fs.lookup cwd p (Fs.writeFileSync cwd p c fs) = Some (Fs.File c).
Proof. unfold Fs.lookup, Fs.writeFileSync. apply lookup_insert_eq. Qed.

Lemma lookup_writeFileSync_File cwd p q c fs :
  (∃ c0, Fs.lookup cwd q fs = Some (Fs.File c0)) →
  ∃ c0, Fs.lookup cwd q (Fs.writeFileSync cwd p c fs) = Some (Fs.File c0).
Proof.
  unfold Fs.lookup, Fs.writeFileSync. intros [c0 Hq].
  destruct (decide (Path.resolve cwd p = Path.resolve cwd q)) as [->|Hne].
  - exists c. apply lookup_insert_eq.
  - exists c0. by rewrite lookup_insert_ne.
Qed.

(** The three handlers keep the working directory and the content root. *)
Lemma handlers_keep_dirs srv :
  (∀ args today now,
     cwd (insertMemory args today now srv).1 = cwd srv
     ∧ baseContentDir (insertMemory args today now srv).1 = baseContentDir srv)
  ∧ (∀ args now,
       cwd (updateMemory args now srv).1 = cwd srv
       ∧ baseContentDir (updateMemory args now srv).1 = baseContentDir srv)
  ∧ (∀ id,
       cwd (deleteMemory id srv).1 = cwd srv
       ∧ baseContentDir (deleteMemory id srv).1 = baseContentDir srv).
Proof.
  split; [|split].
  - intros args today now. unfold insertMemory.
    destruct (Schemas.InsertMemorySchema args) as [[[content summary] ks]|];
      [|done].
    destruct (FileStore.saveDated _ _ _ _ _ _) as [[fs' stored]|]; [|done].
    by destruct (MemoryRepository.insert _ _ _ _ _) as [db' [i|e]].
  - intros args now. unfold updateMemory.
    destruct (Schemas.UpdateMemorySchema args) as [a|]; [|done].
    destruct (MemoryRepository.get _ _); [|done].
    set (srv1 := match upd_content a with Some _ => _ | None => _ end).
    assert (Hdirs : cwd srv1 = cwd srv ∧ baseContentDir srv1 = baseContentDir srv).
    { unfold srv1. destruct (upd_content a) as [c|]; [|done].
      by destruct (Js.truthy c). }
    destruct (MemoryRepository.update _ _ _ _ _) as [db' [[]|e]]; simpl;
      try done.
    by destruct (MemoryRepository.get _ db').
  - intros id. unfold deleteMemory.
    destruct (Schemas.DeleteMemorySchema id) as [id'|]; [|done].
    by destruct (MemoryRepository.delete id' (db srv)) as [db' []].
Qed.

Lemma update_memory_fold_paths (P : string → Prop) vs s now db :
  Forall (λ m, P (Memory.file_path m)) (memories db) →
  Forall (λ v, P (Memory.file_path v)) vs →
  Forall (λ m, P (Memory.file_path m))
    (memories (foldl (λ d old, Stmt.update_memory old s now d) db vs)).
Proof.
  revert db. induction vs as [|v vs IH]; intros db Hdb Hvs; [done|].
  apply Forall_cons in Hvs as [Hv Hvs]. simpl. apply IH; [|done].
  simpl. apply Forall_fmap. eapply Forall_impl; [exact Hdb|].
  intros m Hm. simpl. by case_decide.
Qed.

Lemma update_paths (P : string → Prop) id summary kws now db :
  Forall (λ m, P (Memory.file_path m)) (memories db) →
  Forall (λ m, P (Memory.file_path m))
    (memories (MemoryRepository.update id summary kws now db).1).
Proof.
  intros Hdb.
  destruct (MemoryRepository.update id summary kws now db)
    as [db' [r|e]] eqn:Hupd; simpl.
  2:{ by rewrite (update_failed _ _ _ _ _ _ _ Hupd). }
  rewrite (update_memories _ _ _ _ _ _ _ Hupd).
  unfold summary_step. destruct summary as [s|]; [|done].
  destruct (Js.truthy s); [|done]. apply update_memory_fold_paths; [done|].
  apply Forall_forall. intros v [_ Hv]%list_elem_of_filter.
  rewrite Forall_forall in Hdb. by apply Hdb.
Qed.

Lemma reachable_files_exist srv : reachable srv → files_exist srv.
Proof.
  unfold files_exist.
  induction 1 as [base cwd0 fs|args today now srv _ IH
                  |args now srv _ IH|id srv _ IH].
  - constructor.
  - unfold insertMemory.
    destruct (Schemas.InsertMemorySchema args) as [[[content summary] ks]|];
      [|done].
    destruct (saveDated_shape (cwd srv) (baseContentDir srv)
                (slug_of summary +:+ ".md") content today (fileStore srv))
      as (stored & -> & _ & _).
    assert (Hold : Forall (λ m, ∃ c, Fs.lookup (cwd srv)
                                       (Memory.file_path m)
                                       (Fs.writeFileSync (cwd srv)
                                          (path stored) content
                                          (fileStore srv))
                                     = Some (Fs.File c))
                     (memories (db srv))).
    { eapply Forall_impl; [exact IH|]. intros m.
      apply lookup_writeFileSync_File. }
    destruct (MemoryRepository.insert _ _ _ _ _) as [db' [i|e]] eqn:Hins;
      simpl.
    + pose proof (insert_row _ _ _ _ _ _ _ Hins) as (_ & -> & _).
      apply Forall_app. split; [done|]. apply Forall_singleton. simpl.
      eexists. apply lookup_writeFileSync.
    + by rewrite (insert_failed _ _ _ _ _ _ _ Hins).
  - unfold updateMemory.
    destruct (Schemas.UpdateMemorySchema args) as [a|]; [|done].
    destruct (MemoryRepository.get _ _) as [existing|]; [|done].
    set (srv1 := match upd_content a with Some _ => _ | None => _ end).
    assert (db srv1 = db srv ∧ cwd srv1 = cwd srv
                 ∧ Forall (λ m, ∃ c, Fs.lookup (cwd srv)
                                       (Memory.file_path m) (fileStore srv1)
                                     = Some (Fs.File c))
                     (memories (db srv))) as (Hdb1 & Hcwd1 & Hfs1).
    { unfold srv1. destruct (upd_content a) as [c|]; [|done].
      destruct (Js.truthy c); [|done]. simpl. split; [done|]. split; [done|].
      eapply Forall_impl; [exact IH|]. intros m.
      apply lookup_writeFileSync_File. }
    rewrite Hdb1.
    pose proof (update_paths
                  (λ fp, ∃ c, Fs.lookup (cwd srv) fp (fileStore srv1)
                              = Some (Fs.File c))
                  (upd_id a) (upd_summary a)
                  (normalize_keywords <$> upd_keywords a) now (db srv) Hfs1)
      as Hafter.
    destruct (MemoryRepository.update _ _ _ _ _) as [db' [[]|e]];
      simpl in *; rewrite ?Hcwd1; try done.
    destruct (MemoryRepository.get _ db'); simpl; by rewrite Hcwd1.
  - unfold deleteMemory.
    destruct (Schemas.DeleteMemorySchema id) as [id'|]; [|done].
    destruct (delete_memories_sublist id' (db srv)) as [Hsub _].
    assert (Forall (λ m, ∃ c, Fs.lookup (cwd srv) (Memory.file_path m)
                                (fileStore srv) = Some (Fs.File c))
              (memories (MemoryRepository.delete id' (db srv)).1)) as Hafter.
    { apply Forall_forall. intros m Hm. rewrite Forall_forall in IH.
      apply IH. by eapply elem_of_sublist. }
    by destruct (MemoryRepository.delete id' (db srv)) as [db' []].
Qed.

(** What a valid [insertMemory] does on a server the tools lead to. *)
Lemma insertMemory_effect args today now srv content summary ks :
  reachable srv →
  Schemas.InsertMemorySchema args = Ok (content, summary, ks) →
  ∃ fp db',
    let id := Stmt.next_id (db srv) in
    insertMemory args today now srv
    = (set_db db' (set_fileStore
                     (Fs.writeFileSync (cwd srv) fp content (fileStore srv))
                     srv),
       Ok (MkStoredReply id fp))
    ∧ MemoryRepository.insert fp summary (normalize_keywords ks) now (db srv)
      = (db', Ok id)
    ∧ Fs.existsSync (cwd srv) fp (fileStore srv) = false.
Proof.
  intros Hr Hschema. unfold insertMemory. rewrite Hschema.
  destruct (saveDated_shape (cwd srv) (baseContentDir srv)
              (slug_of summary +:+ ".md") content today (fileStore srv))
    as (stored & -> & _ & Hfree & _).
  pose proof (reachable_files_exist srv Hr) as Hfiles.
  destruct (reachable_invariants srv Hr) as [[_ Href] _].
  destruct (insert_succeeds (path stored) summary (normalize_keywords ks) now
              (db srv)) as [db' Hins]; [| |done|].
  - intros (m & Hfp & Hm)%list_elem_of_fmap. unfold files_exist in Hfiles.
    rewrite Forall_forall in Hfiles. destruct (Hfiles m Hm) as [c Hc].
    rewrite <-Hfp in Hc. unfold Fs.existsSync in Hfree.
    by rewrite Hc in Hfree.
  - apply normalize_keywords_NoDup.
  - exists (path stored), db'. cbv zeta. by rewrite Hins.
Qed.

End HandlerFacts.

(** ** The tool handlers: insert, update and get *)

(** A pair from its second component, for a first component that is known. *)
Lemma pair_from_snd {A B} (x : A * B) (b : B) : x.2 = b → x = (x.1, b).
Proof. destruct x. simpl. by intros ->. Qed.

(** X5. When [insert_memory] answers with an id and a path, the id is
    positive and was not in use, no file was seen at the path, the path
    now holds the content, and [get_memory] of the id answers with the
    path, the summary and the content (the placeholder when the content is
    above the cap of [readLimited]). *)
Theorem insertMemory_then_getMemory
    args today now srv srv' id fp content summary ks :
  Schemas.InsertMemorySchema args = Ok (content, summary, ks) →
  AgentMemoryServer.insertMemory args today now srv
  = (srv', Ok (MkStoredReply id fp)) →
  0 < id
  ∧ Sql.memory_by_id id (AgentMemoryServer.db srv) = None
  ∧ Fs.existsSync (AgentMemoryServer.cwd srv) fp
      (AgentMemoryServer.fileStore srv) = false
  ∧ Fs.lookup (AgentMemoryServer.cwd srv') fp
      (AgentMemoryServer.fileStore srv') = Some (Fs.File content)
  ∧ Sql.memory_by_id id (AgentMemoryServer.db srv')
    = Some (Memory.Build id fp summary now)
  ∧ AgentMemoryServer.getMemory id srv'
    = Ok (MkGetReply id fp (read_back content) summary).
Proof.
  intros Hschema. unfold AgentMemoryServer.insertMemory. rewrite Hschema.
  destruct (saveDated_shape (AgentMemoryServer.cwd srv)
              (AgentMemoryServer.baseContentDir srv)
              (AgentMemoryServer.slug_of summary +:+ ".md") content today
              (AgentMemoryServer.fileStore srv))
    as (stored & -> & _ & Hfree & _).
  destruct (MemoryRepository.insert _ _ _ _ _) as [db' [i|e]] eqn:Hins;
    [|by intros [= _ ?]].
  intros [= <- <- <-].
  pose proof (insert_row _ _ _ _ _ _ _ Hins) as (-> & _ & _ & Hrow).
  pose proof (next_id_positive (AgentMemoryServer.db srv)) as Hpos.
  split; [done|]. split.
  { destruct (Sql.memory_by_id (Stmt.next_id (AgentMemoryServer.db srv))
                (AgentMemoryServer.db srv)) as [m|] eqn:Hm; [|done].
    unfold Sql.memory_by_id in Hm. apply head_filter_Some in Hm as [Hid Hm].
    apply next_id_fresh in Hm. cbv beta in Hid. lia. }
  split; [done|]. simpl. split; [apply lookup_writeFileSync|].
  split; [done|].
  unfold AgentMemoryServer.getMemory, Schemas.GetMemorySchema, Schemas.check.
  rewrite bool_decide_true by done. simpl.
  unfold MemoryRepository.get. rewrite Hrow. simpl.
  rewrite (readLimited_file _ _ content); [done|].
  apply lookup_writeFileSync.
Qed.

Lemma insertMemory_then_getMemory_witness :
  AgentMemoryServer.getMemory 1 sample_server
  = Ok (MkGetReply 1 "data/2025/01/02/alpha-note.md"
          (Some "The body of the note") "Alpha note").
Proof.
  pose proof (insertMemory_then_getMemory
                (MkInsertArgs "The body of the note" "Alpha note"
                   (Some ["k1"; "K2"]))
                (MkDate 2025 0 2) 100
                (AgentMemoryServer.create "./data" "/srv" ∅) sample_server 1
                "data/2025/01/02/alpha-note.md" "The body of the note"
                "Alpha note" ["k1"; "K2"] eq_refl) as H.
  destruct H as (_ & _ & _ & _ & _ & Hget).
  - apply pair_from_snd. by vm_compute.
  - exact Hget.
Defined.

(** X6. On a server that only the tools have written to, the database
    rejects no [insert_memory] whose arguments the schema accepts: the
    path the file store picks is the path of no memory ([file_path] is
    [UNIQUE]) and the keywords that are stored are distinct (the key of
    [keywords]); so, the write of the file taken to succeed, the tool
    answers with the next id of the table. *)
Theorem insertMemory_succeeds args today now srv :
  reachable srv →
  is_ok (Schemas.InsertMemorySchema args) = true →
  ∃ srv' id fp,
    AgentMemoryServer.insertMemory args today now srv
    = (srv', Ok (MkStoredReply id fp))
    ∧ id = Stmt.next_id (AgentMemoryServer.db srv)
    ∧ fp ∉ Memory.file_path <$> memories (AgentMemoryServer.db srv).
Proof.
  intros Hr Hok.
  destruct (Schemas.InsertMemorySchema args) as [[[content summary] ks]|]
    eqn:Hschema; [|done].
  destruct (insertMemory_effect args today now srv content summary ks Hr
              Hschema) as (fp & db' & Hrun & Hins & Hfree).
  cbv zeta in Hrun, Hins. eexists _, _, fp. split; [exact Hrun|].
  split; [done|].
  intros (m & Hfp & Hm)%list_elem_of_fmap.
  pose proof (reachable_files_exist srv Hr) as Hfiles.
  unfold files_exist in Hfiles. rewrite Forall_forall in Hfiles.
  destruct (Hfiles m Hm) as [c Hc]. rewrite <-Hfp in Hc.
  unfold Fs.existsSync in Hfree. by rewrite Hc in Hfree.
Qed.

Lemma insertMemory_succeeds_witness :
  ∃ srv' id fp,
    AgentMemoryServer.insertMemory
      (MkInsertArgs "Another body" "Alpha note" (Some ["k3"; "K3 "]))
      (MkDate 2025 0 2) 150 sample_server
    = (srv', Ok (MkStoredReply id fp))
    ∧ id = 2.
Proof.
  destruct (insertMemory_succeeds
              (MkInsertArgs "Another body" "Alpha note" (Some ["k3"; "K3 "]))
              (MkDate 2025 0 2) 150 sample_server sample_reachable eq_refl)
    as (srv' & id & fp & Hrun & -> & _).
  exists srv', (Stmt.next_id (AgentMemoryServer.db sample_server)), fp.
  split; [exact Hrun|]. by vm_compute.
Defined.

(** ** The tool handlers: update *)

Section UpdateRoundTrip.

Import AgentMemoryServer.

(** What the schema of [update_memory] lets through is not empty. *)
Lemma UpdateMemorySchema_truthy a :
  Schemas.UpdateMemorySchema a = Ok a →
  0 < upd_id a
  ∧ from_option (λ c, Js.truthy c = true) True (upd_content a)
  ∧ from_option (λ s, Js.truthy s = true) True (upd_summary a).
Proof.
  unfold Schemas.UpdateMemorySchema, Schemas.check, Schemas.summary_ok.
  destruct (bool_decide (0 < upd_id a)) eqn:Hid; [|done].
  apply bool_decide_eq_true in Hid. simpl.
  destruct (upd_content a) as [[|c0 c]|]; simpl; try done;
    destruct (upd_summary a) as [[|s0 s]|]; simpl; try done.
  all: rewrite bool_decide_false by (simpl; lia); done.
Qed.

Lemma getMemory_inv id srv reply :
  getMemory id srv = Ok reply →
  0 < id
  ∧ ∃ m, Sql.memory_by_id id (db srv) = Some m ∧ Memory.id m = id
         ∧ reply
           = MkGetReply id (Memory.file_path m)
               (file_contents
                  (FileStore.readLimited (cwd srv) (Memory.file_path m)
                     FileStore.default_limitBytes (fileStore srv)))
               (Memory.summary m).
Proof.
  unfold getMemory, Schemas.GetMemorySchema, Schemas.check.
  case_bool_decide as Hid; simpl; [|done].
  unfold MemoryRepository.get.
  destruct (Sql.memory_by_id id (db srv)) as [m|] eqn:Hm; simpl; [|done].
  assert (Memory.id m = id) as Hmid.
  { unfold Sql.memory_by_id in Hm. apply head_filter_Some in Hm. apply Hm. }
  intros [= <-]. split; [done|].
  exists m. split; [done|]. split; [done|]. by rewrite Hmid.
Qed.

Lemma keywords_of_replaced id j ks db db' :
  keywords db'
  = filter (λ k, Keyword.memory_id k ≠ id) (keywords db)
    ++ (Keyword.Build id <$> ks) →
  Sql.keywords_of j db' = if decide (j = id) then ks else Sql.keywords_of j db.
Proof.
  intros Hk. unfold Sql.keywords_of. rewrite Hk, filter_app, fmap_app.
  rewrite list_filter_filter. case_decide as Hj.
  - subst j. rewrite filter_none by (intros k _ [? ?]; done). simpl.
    rewrite filter_all by (by intros k (x & -> & _)%list_elem_of_fmap).
    rewrite <-list_fmap_compose. apply list_fmap_id.
  - rewrite (filter_none _ (Keyword.Build id <$> ks))
      by (intros k (x & -> & _)%list_elem_of_fmap; simpl; congruence).
    simpl. rewrite app_nil_r. f_equal. apply list_filter_iff.
    intros k. split; [tauto|]. intros Hkj. split; [done | congruence].
Qed.

(** What [updateMemory] does for a memory that is stored. *)
Lemma updateMemory_effect a now srv m :
  reachable srv → Schemas.UpdateMemorySchema a = Ok a →
  Sql.memory_by_id (upd_id a) (db srv) = Some m →
  ∃ db',
    let fs' :=
      match upd_content a with
      | Some c => Fs.writeFileSync (cwd srv) (Memory.file_path m) c (fileStore srv)
      | None => fileStore srv
      end in
    updateMemory a now srv
    = (set_db db' (set_fileStore fs' srv),
       Ok (MkStoredReply (upd_id a) (Memory.file_path m)))
    ∧ MemoryRepository.update (upd_id a) (upd_summary a)
        (normalize_keywords <$> upd_keywords a) now (db srv) = (db', Ok true)
    ∧ Sql.memory_by_id (upd_id a) db'
      = Some (match upd_summary a with
              | Some s => Memory.Build (upd_id a) (Memory.file_path m) s now
              | None => m
              end).
Proof.
  intros Hr Hschema Hm.
  destruct (UpdateMemorySchema_truthy a Hschema) as (_ & Hc & Hs).
  destruct (reachable_keys_hold srv Hr) as (Hids & _).
  destruct (update_succeeds (upd_id a) (upd_summary a)
              (normalize_keywords <$> upd_keywords a) now (db srv))
    as [db' Hupd].
  { by rewrite Hm. }
  { destruct (upd_keywords a); simpl; [apply normalize_keywords_NoDup|done]. }
  destruct (update_row _ _ _ _ _ _ _ _ Hids Hm Hupd) as [Hrow _].
  assert (Hrow' : Sql.memory_by_id (upd_id a) db'
                  = Some (match upd_summary a with
                          | Some s =>
                              Memory.Build (upd_id a) (Memory.file_path m) s now
                          | None => m
                          end)).
  { rewrite Hrow. destruct (upd_summary a) as [s|]; [|done].
    simpl in Hs. by rewrite Hs. }
  exists db'. cbv zeta. split; [|done].
  unfold updateMemory. rewrite Hschema. unfold MemoryRepository.get.
  rewrite Hm. simpl.
  set (srv1 := match upd_content a with Some _ => _ | None => _ end).
  assert (Hsrv1 : srv1
                  = set_fileStore
                      match upd_content a with
                      | Some c =>
                          Fs.writeFileSync (cwd srv) (Memory.file_path m) c
                            (fileStore srv)
                      | None => fileStore srv
                      end srv).
  { unfold srv1. destruct (upd_content a) as [c|]; simpl in *.
    - by rewrite Hc.
    - by destruct srv. }
  rewrite Hsrv1. simpl. rewrite Hupd, Hrow'. simpl.
  by destruct (upd_summary a).
Qed.

End UpdateRoundTrip.

(** X7. On a server that only the tools have written to, the database
    rejects no [update_memory] of a stored memory whose arguments the
    schema accepts, and the tool (the write of the file taken to succeed)
    answers with the id and the path of the memory, which it keeps;
    [get_memory] then answers with the new content where content was
    given and with the old content otherwise, and with the new summary
    where a summary was given and with the old one otherwise; and the
    keywords are the normalized new keywords where keywords were given and
    the old ones otherwise. *)
Theorem updateMemory_then_getMemory a now srv before :
  reachable srv →
  Schemas.UpdateMemorySchema a = Ok a →
  AgentMemoryServer.getMemory (upd_id a) srv = Ok before →
  ∃ srv',
    AgentMemoryServer.updateMemory a now srv
    = (srv', Ok (MkStoredReply (upd_id a) (got_file_path before)))
    ∧ AgentMemoryServer.getMemory (upd_id a) srv'
      = Ok (MkGetReply (upd_id a) (got_file_path before)
              (match upd_content a with
               | Some c => read_back c
               | None => got_file_contents before
               end)
              (default (got_summary before) (upd_summary a)))
    ∧ Sql.keywords_of (upd_id a) (AgentMemoryServer.db srv')
      = match upd_keywords a with
        | Some ks => AgentMemoryServer.normalize_keywords ks
        | None => Sql.keywords_of (upd_id a) (AgentMemoryServer.db srv)
        end.
Proof.
  intros Hr Hschema Hget.
  destruct (getMemory_inv _ _ _ Hget) as (Hid & m & Hm & Hmid & ->).
  destruct (updateMemory_effect a now srv m Hr Hschema Hm)
    as (db' & Hrun & Hupd & Hrow).
  cbv zeta in Hrun. eexists. split; [exact Hrun|]. simpl. split.
  - unfold AgentMemoryServer.getMemory, Schemas.GetMemorySchema,
      Schemas.check.
    rewrite bool_decide_true by done. simpl.
    unfold MemoryRepository.get. rewrite Hrow. simpl.
    assert (Hpath : Memory.file_path
                      match upd_summary a with
                      | Some s =>
                          Memory.Build (upd_id a) (Memory.file_path m) s now
                      | None => m
                      end = Memory.file_path m)
      by by destruct (upd_summary a).
    rewrite Hpath. f_equal. f_equal.
    + by destruct (upd_summary a).
    + destruct (upd_content a) as [c|]; [|done].
      apply readLimited_file, lookup_writeFileSync.
    + by destruct (upd_summary a).
  - destruct (upd_keywords a) as [ks|] eqn:Hks; simpl in Hupd.
    + rewrite (keywords_of_replaced (upd_id a) (upd_id a)
                 (AgentMemoryServer.normalize_keywords ks)
                 (AgentMemoryServer.db srv) db').
      * by rewrite decide_True.
      * by eapply update_keywords.
    + rewrite update_keywords_omitted in Hupd by by rewrite Hm.
      injection Hupd as <-. unfold Sql.keywords_of.
      by destruct (summary_step_frame (upd_id a) (upd_summary a) now
                     (AgentMemoryServer.db srv)) as [-> _].
Qed.

Lemma updateMemory_then_getMemory_witness :
  ∃ srv',
    AgentMemoryServer.updateMemory
      (MkUpdateArgs 1 (Some "New body") None (Some ["K9"; "k9"; " x "])) 200
      sample_server
    = (srv', Ok (MkStoredReply 1 "data/2025/01/02/alpha-note.md"))
    ∧ AgentMemoryServer.getMemory 1 srv'
      = Ok (MkGetReply 1 "data/2025/01/02/alpha-note.md" (Some "New body")
              "Alpha note")
    ∧ Sql.keywords_of 1 (AgentMemoryServer.db srv') = ["k9"; "x"].
Proof.
  destruct (updateMemory_then_getMemory
              (MkUpdateArgs 1 (Some "New body") None
                 (Some ["K9"; "k9"; " x "])) 200 sample_server
              (MkGetReply 1 "data/2025/01/02/alpha-note.md"
                 (Some "The body of the note") "Alpha note")
              sample_reachable eq_refl)
    as (srv' & Hrun & Hget & Hkws).
  - by vm_compute.
  - exists srv'. split; [exact Hrun|]. split; [exact Hget|]. exact Hkws.
Defined.



(** ** What the tools keep true of the store *)

Section StoreInvariants.

Import AgentMemoryServer.

Implicit Types db : Database.

Lemma keywords_of_app id db db' rows :
  keywords db' = keywords db ++ rows →
  Sql.keywords_of id db'
  = Sql.keywords_of id db
    ++ (Keyword.keyword <$> filter (λ k, Keyword.memory_id k = id) rows).
Proof.
  intros Hk. unfold Sql.keywords_of. by rewrite Hk, filter_app, fmap_app.
Qed.

Lemma keywords_of_rows id j (ks : list string) :
  Keyword.keyword <$> filter (λ k, Keyword.memory_id k = j) (Keyword.Build id <$> ks)
  = if decide (j = id) then ks else [].
Proof.
  case_decide as Hj.
  - subst j.
    rewrite filter_all by (by intros k (x & -> & _)%list_elem_of_fmap).
    rewrite <-list_fmap_compose. apply list_fmap_id.
  - rewrite filter_none; [done|].
    intros k (x & -> & _)%list_elem_of_fmap. simpl. congruence.
Qed.

Lemma keywords_of_sublist id db db' :
  keywords db' `sublist_of` keywords db →
  Sql.keywords_of id db' `sublist_of` Sql.keywords_of id db.
Proof.
  intros Hsub. unfold Sql.keywords_of. apply fmap_sublist.
  induction Hsub as [|x l1 l2 _ IH|x l1 l2 _ IH]; [done| |].
  - rewrite !filter_cons. case_decide; [by constructor | done].
  - rewrite filter_cons. case_decide; [by constructor | done].
Qed.

Lemma insert_keywords_normal fp s ks now db :
  keywords_reference db → keywords_normal db →
  keywords_normal (MemoryRepository.insert fp s (normalize_keywords ks) now db).1.
Proof.
  intros Href Hn.
  destruct (MemoryRepository.insert fp s (normalize_keywords ks) now db)
    as [db' [i|e]] eqn:Hins; simpl.
  2:{ by rewrite (insert_failed _ _ _ _ _ _ _ Hins). }
  pose proof (insert_row _ _ _ _ _ _ _ Hins) as (Hi & _ & Hk & _).
  intros j. rewrite (keywords_of_app j db db' _ Hk), keywords_of_rows.
  case_decide as Hj; [|rewrite app_nil_r; apply Hn].
  subst j. rewrite Hi, (keywords_of_next_id db Href). simpl.
  split; [apply normalize_keywords_length|].
  split; [apply normalize_keywords_NoDup | apply normalize_keywords_normal].
Qed.

Lemma update_keywords_normal id summary kws now db :
  keywords_normal db →
  keywords_normal
    (MemoryRepository.update id summary (normalize_keywords <$> kws) now db).1.
Proof.
  intros Hn.
  destruct (MemoryRepository.update id summary (normalize_keywords <$> kws)
              now db) as [db' [r|e]] eqn:Hupd; simpl.
  2:{ by rewrite (update_failed _ _ _ _ _ _ _ Hupd). }
  destruct kws as [ks|]; simpl in Hupd.
  - intros j.
    rewrite (keywords_of_replaced id j (normalize_keywords ks) db db')
      by by eapply update_keywords.
    case_decide; [|apply Hn].
    split; [apply normalize_keywords_length|].
    split; [apply normalize_keywords_NoDup | apply normalize_keywords_normal].
  - revert Hupd. unfold MemoryRepository.update, MemoryRepository.transaction.
    fold (summary_step id summary now db). simpl. intros [= <- _].
    intros j. unfold Sql.keywords_of.
    destruct (summary_step_frame id summary now db) as [-> _]. apply Hn.
Qed.

Lemma delete_keywords_normal id db :
  foreign_keys db = true → keywords_normal db →
  keywords_normal (MemoryRepository.delete id db).1.
Proof.
  intros Hfk Hn j. destruct (delete_memories_sublist id db) as [_ Hk].
  pose proof (keywords_of_sublist j _ _ (Hk Hfk)) as Hsub.
  destruct (Hn j) as (Hlen & Hnd & Hall).
  split; [|split].
  - apply sublist_length in Hsub. lia.
  - by eapply sublist_NoDup.
  - rewrite Forall_forall in Hall. apply Forall_forall. intros k Hk'.
    apply Hall. by eapply sublist_subseteq.
Qed.

Lemma reachable_keywords_normal srv : reachable srv → keywords_normal (db srv).
Proof.
  intros Hr.
  enough (referential (db srv) ∧ keywords_normal (db srv)) by tauto.
  revert srv Hr.
  apply (reachable_db_ind (λ d, referential d ∧ keywords_normal d)).
  - split; [split; constructor|]. intros j. split; [simpl; lia|].
    split; constructor.
  - intros db fp s ks now [Href Hn]. split.
    + by apply insert_referential.
    + apply insert_keywords_normal; [apply Href | done].
  - intros db id summary kws now [Href Hn]. split.
    + by apply update_referential.
    + by apply update_keywords_normal.
  - intros db id [Href Hn]. split.
    + by apply delete_referential.
    + apply delete_keywords_normal; [apply Href | done].
Qed.

(** The sequence of [memories] never goes down. *)
Lemma steps_sequence srv srv' :
  steps srv srv' → sqlite_sequence (db srv) ≤ sqlite_sequence (db srv').
Proof.
  induction 1 as [|args today now srv' _ IH|args now srv' _ IH|id srv' _ IH].
  - lia.
  - etrans; [exact IH|]. unfold insertMemory.
    destruct (Schemas.InsertMemorySchema args) as [[[content summary] ks]|];
      [|done].
    destruct (FileStore.saveDated _ _ _ _ _ _) as [[fs' stored]|]; [|done].
    destruct (MemoryRepository.insert _ _ _ _ _) as [db' [i|e]] eqn:Hins;
      simpl.
    + destruct (insert_frame _ _ _ _ _ _ _ Hins) as (-> & _).
      pose proof (insert_row _ _ _ _ _ _ _ Hins) as (-> & _).
      pose proof (next_id_above (db srv')). lia.
    + by rewrite (insert_failed _ _ _ _ _ _ _ Hins).
  - etrans; [exact IH|]. unfold updateMemory.
    destruct (Schemas.UpdateMemorySchema args) as [a|]; [|done].
    destruct (MemoryRepository.get _ _); [|done].
    set (srv1 := match upd_content a with Some _ => _ | None => _ end).
    assert (Hdb1 : db srv1 = db srv').
    { unfold srv1. destruct (upd_content a) as [c|]; [|done].
      by destruct (Js.truthy c). }
    rewrite Hdb1.
    destruct (MemoryRepository.update _ _ _ _ _) as [db' [r|e]] eqn:Hupd.
    + destruct (update_frame _ _ _ _ _ _ _ Hupd) as [Hseq _].
      assert (sqlite_sequence (db (set_db db' srv1)) = sqlite_sequence (db srv'))
        as Hsame by done.
      destruct r; [destruct (MemoryRepository.get _ db')|]; simpl; lia.
    + rewrite (update_failed _ _ _ _ _ _ _ Hupd). simpl. lia.
  - etrans; [exact IH|]. unfold deleteMemory.
    destruct (Schemas.DeleteMemorySchema id) as [id'|]; [|done].
    pose proof (delete_sequence id' (db srv')) as Hseq.
    destruct (MemoryRepository.delete id' (db srv')) as [db' []];
      simpl in *; lia.
Qed.

Lemma insertMemory_id args today now srv srv' reply :
  insertMemory args today now srv = (srv', Ok reply) →
  reply_id reply = Stmt.next_id (db srv)
  ∧ Sql.memory_by_id (reply_id reply) (db srv')
    = Some (Memory.Build (reply_id reply) (reply_file_path reply)
              match Schemas.InsertMemorySchema args with
              | Ok (_, summary, _) => summary
              | Err _ => ""
              end now).
Proof.
  unfold insertMemory.
  destruct (Schemas.InsertMemorySchema args) as [[[content summary] ks]|];
    [|by intros [= _ ?]].
  destruct (FileStore.saveDated _ _ _ _ _ _) as [[fs' stored]|];
    [|by intros [= _ ?]].
  destruct (MemoryRepository.insert _ _ _ _ _) as [db' [i|e]] eqn:Hins;
    [|by intros [= _ ?]].
  intros [= <- <-]. simpl.
  by pose proof (insert_row _ _ _ _ _ _ _ Hins) as (-> & _ & _ & ->).
Qed.

End StoreInvariants.

(** X9. On a server that only the tools have written to, the keywords
    stored for a memory are at most ten, pairwise distinct, none empty,
    none with white space at either end and all in lower case; every
    keyword row belongs to a memory that is stored; and the ids of the
    memories are positive and pairwise distinct. *)
Theorem stored_keywords_normal srv :
  reachable srv →
  let db := AgentMemoryServer.db srv in
  (∀ id, (length (Sql.keywords_of id db) ≤ 10)%nat
         ∧ NoDup (Sql.keywords_of id db)
         ∧ Forall normal_keyword (Sql.keywords_of id db))
  ∧ (∀ id k, k ∈ Sql.keywords_of id db → is_Some (Sql.memory_by_id id db))
  ∧ NoDup (Memory.id <$> memories db)
  ∧ Forall (λ m, 0 < Memory.id m) (memories db).
Proof.
  intros Hr. cbv zeta. split; [by apply reachable_keywords_normal|].
  destruct (reachable_invariants srv Hr) as [[_ Href] _].
  destruct (reachable_keys_hold srv Hr) as (Hids & _ & Hpos).
  split; [|split; [done|]].
  - intros id k (r & -> & [Hid Hin]%list_elem_of_filter)%list_elem_of_fmap.
    unfold keywords_reference in Href. rewrite Forall_forall in Href.
    rewrite <-Hid. by apply Href.
  - eapply Forall_impl; [exact Hpos|]. simpl. lia.
Qed.

Lemma stored_keywords_normal_witness :
  Sql.keywords_of 1 (AgentMemoryServer.db two_notes) = ["k1"; "k2"]
  ∧ Forall normal_keyword (Sql.keywords_of 1 (AgentMemoryServer.db two_notes))
  ∧ NoDup (Memory.id <$> memories (AgentMemoryServer.db two_notes)).
Proof.
  destruct (stored_keywords_normal two_notes two_notes_reachable)
    as (Hn & _ & Hids & _).
  split; [by vm_compute|]. split; [apply Hn | exact Hids].
Defined.

(** X10. An id is never given twice: the id [insert_memory] answers with
    is above the id of every memory that was stored at any earlier time,
    whether or not that memory has been deleted since, and the new memory
    is stored under it. *)
Theorem ids_never_reused srv m srv' args today now srv'' reply :
  reachable srv → m ∈ memories (AgentMemoryServer.db srv) →
  steps srv srv' →
  AgentMemoryServer.insertMemory args today now srv' = (srv'', Ok reply) →
  Memory.id m < reply_id reply
  ∧ Sql.memory_by_id (reply_id reply) (AgentMemoryServer.db srv') = None
  ∧ Memory.id <$> Sql.memory_by_id (reply_id reply) (AgentMemoryServer.db srv'')
    = Some (reply_id reply).
Proof.
  intros Hr Hm Hsteps Hins.
  destruct (insertMemory_id _ _ _ _ _ _ Hins) as [Hid Hrow].
  destruct (reachable_keys_hold srv Hr) as (_ & _ & Hseq).
  rewrite Forall_forall in Hseq. specialize (Hseq m Hm).
  pose proof (steps_sequence srv srv' Hsteps) as Hmono.
  pose proof (next_id_above (AgentMemoryServer.db srv')) as Habove.
  split; [lia|]. split; [|by rewrite Hrow].
  destruct (Sql.memory_by_id (reply_id reply) (AgentMemoryServer.db srv'))
    as [m'|] eqn:Hm'; [|done].
  unfold Sql.memory_by_id in Hm'. apply head_filter_Some in Hm' as [Hid' Hin].
  apply next_id_fresh in Hin. cbv beta in Hid'. lia.
Qed.

Lemma ids_never_reused_witness :
  ∃ srv'',
    AgentMemoryServer.insertMemory (MkInsertArgs "Again" "Alpha note" None)
      (MkDate 2025 0 2) 300 (AgentMemoryServer.deleteMemory 1 sample_server).1
    = (srv'', Ok (MkStoredReply 2 "data/2025/01/02/alpha-note-1.md"))
    ∧ Sql.memory_by_id 1 (AgentMemoryServer.db srv'') = None
    ∧ Memory.id <$> Sql.memory_by_id 2 (AgentMemoryServer.db srv'') = Some 2.
Proof.
  eexists. split; [apply pair_from_snd; by vm_compute|].
  split; [by vm_compute|].
  eapply (ids_never_reused sample_server
            (Memory.Build 1 "data/2025/01/02/alpha-note.md" "Alpha note" 100)
            (AgentMemoryServer.deleteMemory 1 sample_server).1
            (MkInsertArgs "Again" "Alpha note" None) (MkDate 2025 0 2) 300
            _ (MkStoredReply 2 "data/2025/01/02/alpha-note-1.md")
            sample_reachable).
  - by vm_compute; left.
  - apply steps_delete, steps_refl.
  - apply pair_from_snd. by vm_compute.
Defined.

(** ** The tool handlers: search *)

Section SearchHits.

Import AgentMemoryServer.

Variable fts5_match : list Fts.t → string → option (list Z).
Variable bm25 : list Fts.t → string → Q → Q → Z → Q.

Lemma matching_rows_stored matched db m :
  m ∈ SearchService.matching_rows matched db → m ∈ memories db.
Proof.
  unfold SearchService.matching_rows.
  intros (rid & Hm & _)%list_elem_of_bind.
  by apply list_elem_of_filter in Hm as [_ Hm].
Qed.

(** The rows of [run] are rows of [memories], at most twice the limit. *)
Lemma run_rows_stored params db rows :
  SearchService.run fts5_match bm25 params db = Ok rows →
  (length rows ≤ 2 * limit params)%nat
  ∧ Forall (λ r, memory (ranked r) ∈ memories db) rows.
Proof.
  unfold SearchService.run.
  destruct (fts5_match _ _) as [matched|]; [|done]. intros [= <-]. split.
  - rewrite (Permutation_length (order_by_Permutation _ _)).
    rewrite length_fmap, length_take. lia.
  - apply Forall_forall. intros r Hr.
    rewrite (order_by_Permutation _ _) in Hr.
    apply list_elem_of_fmap in Hr as (x & -> & Hx%subseteq_take).
    rewrite (order_by_Permutation _ _) in Hx.
    apply list_elem_of_fmap in Hx as (m & -> & Hm). simpl.
    by eapply matching_rows_stored.
Qed.

End SearchHits.

(** X11. On a server that only the tools have written to, every result
    of [search_memories] is a stored memory: it carries the path and the
    summary of a row of [memories], the file at the path holds content,
    and the result carries that content (the placeholder above the cap);
    there are at most [limit] results, and [total_found] is at least
    their number and at most twice the limit. *)
Theorem search_hits_are_stored
    (fts5_match : list Fts.t → string → option (list Z))
    (bm25 : list Fts.t → string → Q → Q → Z → Q) args srv reply :
  reachable srv →
  AgentMemoryServer.searchMemories fts5_match bm25 args srv = Ok reply →
  let limit := Z.to_nat (default 10 (sea_limit args)) in
  Forall (λ h, ∃ m c,
            m ∈ memories (AgentMemoryServer.db srv)
            ∧ hit_file_path h = Memory.file_path m
            ∧ hit_summary h = Memory.summary m
            ∧ Fs.lookup (AgentMemoryServer.cwd srv) (Memory.file_path m)
                (AgentMemoryServer.fileStore srv) = Some (Fs.File c)
            ∧ hit_file_contents h = read_back c)
         (results reply)
  ∧ (0 < limit ≤ 100)%nat
  ∧ (length (results reply) ≤ limit)%nat
  ∧ (length (results reply) ≤ total_found reply ≤ 2 * limit)%nat.
Proof.
  intros Hr. unfold AgentMemoryServer.searchMemories.
  destruct (Schemas.SearchMemoriesSchema args) as [params|] eqn:Hschema;
    [|done].
  assert (Hlimit : limit params = Z.to_nat (default 10 (sea_limit args))
                   ∧ 0 < default 10 (sea_limit args) ≤ 100).
  { revert Hschema. unfold Schemas.SearchMemoriesSchema, Schemas.check.
    destruct (bool_decide (1 ≤ String.length (sea_query args))%nat);
      simpl; [|done].
    destruct (Schemas.keywords_ok _); simpl; [|done].
    destruct (bool_decide (0 < default 10 (sea_limit args) ≤ 100)) eqn:Hl;
      simpl; [|done].
    destruct (negb (Qle_bool (default _ (sea_summaryWeight args)) 0));
      simpl; [|done].
    destruct (negb (Qle_bool (default _ (sea_keywordWeight args)) 0));
      simpl; [|done].
    destruct (Qle_bool 0 _); simpl; [|done].
    intros [= <-].
    split; [done|]. by apply bool_decide_eq_true in Hl. }
  destruct Hlimit as [Hlimit Hrange]. simpl.
  destruct (SearchService.run fts5_match bm25 params (AgentMemoryServer.db srv))
    as [rows|] eqn:Hrun; [|done].
  simpl. intros [= <-]. simpl.
  destruct (run_rows_stored _ _ _ _ _ Hrun) as [Hlen Hrows].
  rewrite length_fmap, length_take, <-Hlimit.
  split; [|lia].
  apply Forall_fmap, Forall_forall. intros r Hin%subseteq_take.
  rewrite Forall_forall in Hrows. specialize (Hrows r Hin).
  pose proof (reachable_files_exist srv Hr) as Hfiles.
  unfold files_exist in Hfiles. rewrite Forall_forall in Hfiles.
  destruct (Hfiles _ Hrows) as [c Hc].
  exists (memory (ranked r)), c. simpl.
  split; [done|]. split; [done|]. split; [done|]. split; [done|].
  by apply readLimited_file.
Qed.

Lemma search_hits_are_stored_witness :
  ∃ reply,
    AgentMemoryServer.searchMemories sample_match sample_bm25
      (MkSearchArgs "note" None (Some 1) None None None) two_notes = Ok reply
    ∧ length (results reply) = 1%nat
    ∧ Forall (λ h, ∃ c, hit_file_contents h = read_back c) (results reply).
Proof.
  destruct (AgentMemoryServer.searchMemories sample_match sample_bm25
              (MkSearchArgs "note" None (Some 1) None None None) two_notes)
    as [reply|] eqn:Hrun; [|by vm_compute in Hrun].
  exists reply. split; [done|].
  destruct (search_hits_are_stored sample_match sample_bm25 _ _ _
              two_notes_reachable Hrun) as (Hhits & _ & _ & _).
  split.
  - assert (reply = match AgentMemoryServer.searchMemories sample_match
                            sample_bm25
                            (MkSearchArgs "note" None (Some 1) None None None)
                            two_notes with
                    | Ok r => r
                    | Err _ => reply
                    end) as -> by by rewrite Hrun.
    by vm_compute.
  - eapply Forall_impl; [exact Hhits|]. simpl.
    intros h (m & c & _ & _ & _ & _ & Hc). by exists c.
Defined.

(** ** The resources: export and statistics *)

Section ResourceFacts.

Import AgentMemoryServer.

Implicit Types db : Database.

Lemma memory_by_id_unique db m :
  NoDup (Memory.id <$> memories db) → m ∈ memories db →
  Sql.memory_by_id (Memory.id m) db = Some m.
Proof.
  unfold Sql.memory_by_id. induction (memories db) as [|a l IH]; intros Hnd Hm.
  - by apply elem_of_nil in Hm.
  - rewrite fmap_cons in Hnd. apply NoDup_cons in Hnd as [Ha Hnd].
    rewrite filter_cons. apply elem_of_cons in Hm as [->|Hm].
    + by rewrite decide_True.
    + rewrite decide_False; [by apply IH|].
      intros Heq. apply Ha. rewrite Heq. apply list_elem_of_fmap. by exists m.
Qed.

Lemma filter_sublist_impl {A} (P Q : A → Prop) `{!∀ x, Decision (P x)}
    `{!∀ x, Decision (Q x)} (l : list A) :
  (∀ x, P x → Q x) → filter P l `sublist_of` filter Q l.
Proof.
  intros HPQ. induction l as [|x l IH]; [done|].
  rewrite !filter_cons. destruct (decide (P x)) as [HP|HP].
  - rewrite decide_True by by apply HPQ. by constructor.
  - destruct (decide (Q x)); [by constructor | done].
Qed.

Lemma remove_dups_length {A} `{EqDecision A} (l : list A) :
  (length (remove_dups l) ≤ length l)%nat.
Proof.
  induction l as [|x l IH]; simpl; [done|].
  destruct (decide_rel elem_of x l); simpl; lia.
Qed.

(** The rows of a table whose rows reference at most [n] of the keys
    [ids] each. *)
Lemma length_by_key (ks : list Keyword.t) (ids : list Z) (n : nat) :
  Forall (λ k, Keyword.memory_id k ∈ ids) ks →
  (∀ i, (length (filter (λ k, Keyword.memory_id k = i) ks) ≤ n)%nat) →
  (length ks ≤ n * length ids)%nat.
Proof.
  revert ks. induction ids as [|i ids IH]; intros ks Hin Hcount.
  - destruct ks as [|k ks]; [simpl; lia|].
    apply Forall_cons in Hin as [Hk _]. by apply elem_of_nil in Hk.
  - rewrite <-(Permutation_length
                 (filter_app_complement (λ k, Keyword.memory_id k = i) ks)).
    rewrite length_app. specialize (Hcount i) as Hi. simpl.
    enough (length (filter (λ k, ¬ Keyword.memory_id k = i) ks)
            ≤ n * length ids)%nat by lia.
    apply IH.
    + apply Forall_forall. intros k [Hne Hk]%list_elem_of_filter.
      rewrite Forall_forall in Hin. specialize (Hin k Hk).
      apply elem_of_cons in Hin as [?|?]; [done|done].
    + intros j. rewrite list_filter_filter.
      etrans; [|exact (Hcount j)].
      apply sublist_length, filter_sublist_impl. tauto.
Qed.

Lemma head_sorted_least {A} (R : relation A) (l : list A) x y :
  StronglySorted R l → head l = Some x → y ∈ l → x = y ∨ R x y.
Proof.
  destruct l as [|a l]; [done|]. intros Hs [= ->] Hy.
  apply StronglySorted_inv in Hs as [_ Hall].
  apply elem_of_cons in Hy as [->|Hy]; [by left|right].
  rewrite Forall_forall in Hall. by apply Hall.
Qed.

Lemma oldest_newest_bounds db m :
  m ∈ memories db →
  ∃ lo hi,
    ResourceHandlers.oldest db = Some lo
    ∧ ResourceHandlers.newest db = Some hi
    ∧ lo ≤ Memory.created_at m ≤ hi.
Proof.
  intros Hm. unfold ResourceHandlers.oldest, ResourceHandlers.newest.
  set (asc := λ a b, Memory.created_at a <=? Memory.created_at b).
  set (desc := λ a b, Memory.created_at b <=? Memory.created_at a).
  assert (Hasc : StronglySorted
                   (λ a b, Memory.created_at a ≤ Memory.created_at b)
                   (Sql.order_by asc (memories db))).
  { apply order_by_sorted; unfold asc.
    - intros a b. apply Z.leb_le.
    - intros a b Hab%Z.leb_gt. lia.
    - intros a b c. lia. }
  assert (Hdesc : StronglySorted
                    (λ a b, Memory.created_at b ≤ Memory.created_at a)
                    (Sql.order_by desc (memories db))).
  { apply order_by_sorted; unfold desc.
    - intros a b. apply Z.leb_le.
    - intros a b Hab%Z.leb_gt. lia.
    - intros a b c. lia. }
  assert (Hm1 : m ∈ Sql.order_by asc (memories db))
    by by rewrite (order_by_Permutation _ _).
  assert (Hm2 : m ∈ Sql.order_by desc (memories db))
    by by rewrite (order_by_Permutation _ _).
  destruct (Sql.order_by asc (memories db)) as [|lo l1] eqn:H1;
    [by apply elem_of_nil in Hm1|].
  destruct (Sql.order_by desc (memories db)) as [|hi l2] eqn:H2;
    [by apply elem_of_nil in Hm2|].
  exists (Memory.created_at lo), (Memory.created_at hi).
  split; [done|]. split; [done|].
  destruct (head_sorted_least _ _ lo m Hasc eq_refl Hm1) as [->|?];
    destruct (head_sorted_least _ _ hi m Hdesc eq_refl Hm2) as [->|?]; lia.
Qed.

End ResourceFacts.

(** X12. [exportAllMemories] gives every row of [memories] once, newest
    first, and counts them: it is what [repo.list] gives for a window
    that starts at 0 and is as long as the table; and on a server that
    only the tools have written to, each exported row is the row
    [repo.get] gives for its id. *)
Theorem exportAllMemories_complete now srv :
  reachable srv →
  let db := AgentMemoryServer.db srv in
  let e := ResourceHandlers.exportAllMemories now db in
  export_timestamp e = now
  ∧ export_total_memories e = MemoryRepository.count db
  ∧ length (export_memories e) = export_total_memories e
  ∧ row <$> export_memories e ≡ₚ memories db
  ∧ StronglySorted
      (λ a b, Memory.created_at (row b) ≤ Memory.created_at (row a))
      (export_memories e)
  ∧ (∀ n, (MemoryRepository.count db ≤ n)%nat →
          export_memories e = MemoryRepository.list n 0 db)
  ∧ Forall (λ r, MemoryRepository.get (Memory.id (row r)) db = Some r)
      (export_memories e).
Proof.
  intros Hr. cbv zeta.
  unfold ResourceHandlers.exportAllMemories, MemoryRepository.count. simpl.
  set (le := λ a b, Memory.created_at b <=? Memory.created_at a).
  pose proof (order_by_Permutation le (memories (AgentMemoryServer.db srv)))
    as Hperm.
  split; [done|]. split; [by rewrite length_fmap, Hperm|].
  split; [done|]. split.
  { rewrite <-list_fmap_compose. simpl. by rewrite list_fmap_id. }
  split.
  { destruct (list_newest_first
                (length (memories (AgentMemoryServer.db srv))) 0
                (AgentMemoryServer.db srv)) as (_ & _ & _ & _ & Hs & _).
    revert Hs. unfold MemoryRepository.list. fold le. simpl.
    rewrite take_ge; [done|]. by rewrite Hperm. }
  split.
  { intros n Hn. unfold MemoryRepository.list. fold le. simpl.
    rewrite take_ge; [done|]. by rewrite Hperm. }
  destruct (reachable_keys_hold srv Hr) as (Hids & _).
  apply Forall_fmap, Forall_forall. intros m Hm. rewrite Hperm in Hm. simpl.
  unfold MemoryRepository.get. by rewrite (memory_by_id_unique _ m Hids Hm).
Qed.

Lemma exportAllMemories_complete_witness :
  (Memory.summary ∘ row)
    <$> export_memories
          (ResourceHandlers.exportAllMemories 500 (AgentMemoryServer.db two_notes))
  = ["Beta note"; "Alpha note"]
  ∧ export_total_memories
      (ResourceHandlers.exportAllMemories 500 (AgentMemoryServer.db two_notes))
    = 2%nat.
Proof.
  destruct (exportAllMemories_complete 500 two_notes two_notes_reachable)
    as (_ & -> & _).
  split; by vm_compute.
Defined.

(** X13. The counts of [getDatabaseStats] on a server that only the tools
    have written to: there are at most as many distinct keywords as
    keyword rows and at most ten keyword rows for each memory; without a
    memory there is no oldest and no newest time; and with one, the
    oldest time is at most, and the newest at least, the time of every
    memory. *)
Theorem getDatabaseStats_counts srv :
  reachable srv →
  let db := AgentMemoryServer.db srv in
  (ResourceHandlers.uniqueKeywords db ≤ ResourceHandlers.keywordCount db)%nat
  ∧ (ResourceHandlers.keywordCount db
     ≤ 10 * ResourceHandlers.memoryCount db)%nat
  ∧ ResourceHandlers.memoryCount db = MemoryRepository.count db
  ∧ (ResourceHandlers.memoryCount db = 0%nat →
     ResourceHandlers.oldest db = None ∧ ResourceHandlers.newest db = None)
  ∧ ∀ m, m ∈ memories db →
         ∃ lo hi,
           ResourceHandlers.oldest db = Some lo
           ∧ ResourceHandlers.newest db = Some hi
           ∧ lo ≤ Memory.created_at m ≤ hi.
Proof.
  intros Hr. cbv zeta. split; [|split; [|split; [done|split]]].
  - unfold ResourceHandlers.uniqueKeywords, ResourceHandlers.keywordCount.
    rewrite <-(length_fmap Keyword.keyword (keywords _)).
    apply remove_dups_length.
  - unfold ResourceHandlers.keywordCount, ResourceHandlers.memoryCount.
    rewrite <-(length_fmap Memory.id (memories _)).
    destruct (reachable_invariants srv Hr) as [[_ Href] _].
    pose proof (reachable_keywords_normal srv Hr) as Hn.
    apply length_by_key.
    + unfold keywords_reference in Href. eapply Forall_impl; [exact Href|].
      simpl. intros k [m Hm]. unfold Sql.memory_by_id in Hm.
      apply head_filter_Some in Hm as [Hid Hin].
      apply list_elem_of_fmap. by exists m.
    + intros i. destruct (Hn i) as [Hlen _].
      unfold Sql.keywords_of in Hlen. by rewrite length_fmap in Hlen.
  - unfold ResourceHandlers.memoryCount, ResourceHandlers.oldest,
      ResourceHandlers.newest.
    intros Hnil%nil_length_inv. by rewrite Hnil.
  - apply oldest_newest_bounds.
Qed.

Lemma getDatabaseStats_counts_witness :
  ResourceHandlers.keywordCount (AgentMemoryServer.db two_notes) = 3%nat
  ∧ ResourceHandlers.oldest (AgentMemoryServer.db two_notes) = Some 100
  ∧ ResourceHandlers.newest (AgentMemoryServer.db two_notes) = Some 150
  ∧ (ResourceHandlers.keywordCount (AgentMemoryServer.db two_notes)
     ≤ 10 * ResourceHandlers.memoryCount (AgentMemoryServer.db two_notes))%nat.
Proof.
  destruct (getDatabaseStats_counts two_notes two_notes_reachable)
    as (_ & Hk & _).
  repeat split; [by vm_compute..|exact Hk].
Defined.
